(** * fcc front end: diagnostics, token matching and the analyzer

    A shallow embedding of [src/parser-helpers.c], [src/analyzer.c] and the
    value analyzer (the source that includes [analyzer-value.h]).  C
    pointers to symbols are references into a symbol store, the single
    mutable AST node shape is a record whose updated copy every analysis
    function hands back, and [printf] appends to an explicit output stream.
    Dereferencing a null pointer, or reading a member of a type descriptor
    that its variant does not carry, has no defined result: such runs yield
    [None].  The counters and indices, [int] in C, are integers here; a
    run would need more than two thousand million diagnostics to overflow
    them. *)

From stdpp Require Import base option list strings gmap pretty.
From Stdlib Require Import ZArith Ascii.

Local Open Scope Z_scope.

(** ** Symbols and type descriptors *)

(** A [sym*]: the address of a symbol. *)
Definition symRef := positive.
Bind Scope positive_scope with symRef.

(** Modelled from the spec: the symbol kinds of the absent [sym.h].
    [symType], [symStruct] and [symEnum] are named in [tokenIsDecl]; the
    others are the remaining kinds of sections 3.3 and 4.2.2. *)
Inductive symClass :=
  symScope | symType | symStruct | symUnion | symEnum | symId | symParam.

Global Instance symClass_eq_dec : EqDecision symClass.
Proof. solve_decision. Defined.

(** Modelled from the spec: the type descriptor of the absent [type.h]
    (section 3.4), with the members the analyzer reads: [basic], [base],
    [array], [returnType], [params]. *)
Inductive type :=
  | typeBasic (basic : symRef)
  | typePtr (base : type)
  | typeArray (base : type) (array : Z)
  | typeFunction (returnType : type) (params : Z)
  | typeInvalid.

Global Instance type_eq_dec : EqDecision type.
Proof. solve_decision. Defined.

Module sym.
(** Modelled from the spec: [struct sym] of the absent [sym.h], with the
    members the sources read: [ident], the kind, [dt] (null for kinds
    without a data type) and the [firstChild]/[nextSibling] chain of the
    children. *)
Record t := mk {
  ident : string;
  class : symClass;
  dt : option type;
  firstChild : list symRef
}.
End sym.

(** ** AST nodes *)

(** Modelled from the spec: the node classes and literal classes of the
    absent [ast.h] (section 3.5). *)
Inductive astClass :=
  | astModule | astFnImpl | astDecl | astDeclStruct | astStruct | astUnion
  | astCode | astBranch | astLoop | astIter | astReturn | astBreak
  | astBOP | astUOP | astTOP | astIndex | astCall | astLiteral
  | astEmpty | astInvalid.

Global Instance astClass_eq_dec : EqDecision astClass.
Proof. solve_decision. Defined.

Inductive literalClass :=
  | literalUndefined | literalInt | literalBool | literalIdent
  | literalStr | literalArray | literalInit.

Global Instance literalClass_eq_dec : EqDecision literalClass.
Proof. solve_decision. Defined.

Record tokenLocation := mkLoc { line : Z; lineChar : Z }.

(** Modelled from the spec: [struct ast] of the absent [ast.h], with the
    members the sources read and write.  [firstChild] is the
    [firstChild]/[nextSibling] chain, [children] the separately kept child
    count, [l] and [r] the two distinguished (nullable) slots. *)
#[local] Unset Elimination Schemes.
Inductive ast := mkAst {
  class : astClass;
  litClass : literalClass;
  o : string;
  literal : string;
  symbol : option symRef;
  dt : option type;
  location : tokenLocation;
  firstChild : list ast;
  children : Z;
  l : option ast;
  r : option ast
}.
#[local] Set Elimination Schemes.

(** Assignments to one member of a node. *)
Definition setDt (Node : ast) (DT : type) : ast :=
  mkAst (class Node) (litClass Node) (o Node) (literal Node) (symbol Node)
        (Some DT) (location Node) (firstChild Node) (children Node)
        (l Node) (r Node).

Definition setSymbol (Node : ast) (s : option symRef) : ast :=
  mkAst (class Node) (litClass Node) (o Node) (literal Node) s
        (dt Node) (location Node) (firstChild Node) (children Node)
        (l Node) (r Node).

Definition setL (Node : ast) (n : ast) : ast :=
  mkAst (class Node) (litClass Node) (o Node) (literal Node) (symbol Node)
        (dt Node) (location Node) (firstChild Node) (children Node)
        (Some n) (r Node).

Definition setR (Node : ast) (n : ast) : ast :=
  mkAst (class Node) (litClass Node) (o Node) (literal Node) (symbol Node)
        (dt Node) (location Node) (firstChild Node) (children Node)
        (l Node) (Some n).

Definition setFirstChild (Node : ast) (cs : list ast) : ast :=
  mkAst (class Node) (litClass Node) (o Node) (literal Node) (symbol Node)
        (dt Node) (location Node) cs (children Node)
        (l Node) (r Node).

(** [!strcmp(a, b)] *)
Definition streq (a b : string) : bool := String.eqb a b.

(** ** The type algebra *)

Section TypeAlgebra.
(** The symbols in memory. *)
Variable syms : gmap symRef sym.t.

(** Modelled from the spec: the built-in types are [Type] symbols known
    by their identifiers [void], [bool], [char], [int] (section 6.2). *)
Definition symIs (k : symClass) (name : string) (s : symRef) : bool :=
  match syms !! s with
  | Some Sym => bool_decide (sym.class Sym = k) && streq (sym.ident Sym) name
  | None => false
  end.

(** Modelled from the spec: [typeIsInvalid] of the absent [type.c]. *)
Definition typeIsInvalid (DT : type) : bool :=
  match DT with typeInvalid => true | _ => false end.

(** Modelled from the spec: [typeIsBasic] of the absent [type.c]; true
    for a [Basic] descriptor and for [Invalid]. *)
Definition typeIsBasic (DT : type) : bool :=
  match DT with typeBasic _ | typeInvalid => true | _ => false end.

(** Modelled from the spec: [typeIsPtr] of the absent [type.c]; true for
    a [Pointer] descriptor and for [Invalid]. *)
Definition typeIsPtr (DT : type) : bool :=
  match DT with typePtr _ | typeInvalid => true | _ => false end.

(** Modelled from the spec: [typeIsArray] of the absent [type.c]; true
    for an [Array] descriptor and for [Invalid]. *)
Definition typeIsArray (DT : type) : bool :=
  match DT with typeArray _ _ | typeInvalid => true | _ => false end.

(** Modelled from the spec: [typeIsVoid] of the absent [type.c],
    [Basic{void}]; like every predicate it answers true for [Invalid]
    (the reason [analyzerCommaBOP] tests [typeIsInvalid] itself). *)
Definition typeIsVoid (DT : type) : bool :=
  match DT with
  | typeBasic s => symIs symType "void" s
  | typeInvalid => true
  | _ => false
  end.

(** Modelled from the spec: the numeric family, [int], [char], [bool]. *)
Definition numericSym (s : symRef) : bool :=
  symIs symType "int" s || symIs symType "char" s || symIs symType "bool" s.

(** Modelled from the spec: [typeIsNumeric] of the absent [type.c],
    true for [Basic{int,char,bool}] and [Invalid]. *)
Definition typeIsNumeric (DT : type) : bool :=
  match DT with
  | typeBasic s => numericSym s
  | typeInvalid => true
  | _ => false
  end.

(** Modelled from the spec: [typeIsOrdinal] of the absent [type.c],
    numeric or [Pointer], and [Invalid]. *)
Definition typeIsOrdinal (DT : type) : bool :=
  typeIsNumeric DT || typeIsPtr DT.

(** Modelled from the spec: [typeIsEquality] of the absent [type.c],
    ordinal or [Pointer], and [Invalid]. *)
Definition typeIsEquality (DT : type) : bool :=
  typeIsOrdinal DT || typeIsPtr DT.

(** Modelled from the spec: [typeIsCondition] of the absent [type.c],
    the equality types and [Invalid]. *)
Definition typeIsCondition (DT : type) : bool := typeIsEquality DT.

(** Modelled from the spec: [typeIsCallable] of the absent [type.c],
    [Function], [Pointer] to [Function], and [Invalid]. *)
Definition typeIsCallable (DT : type) : bool :=
  match DT with
  | typeFunction _ _ | typePtr (typeFunction _ _) | typeInvalid => true
  | _ => false
  end.

(** Modelled from the spec: [typeIsAssignment] of the absent [type.c],
    any type that is neither a [Function] nor void, and [Invalid]. *)
Definition typeIsAssignment (DT : type) : bool :=
  match DT with
  | typeInvalid => true
  | typeFunction _ _ => false
  | _ => negb (typeIsVoid DT)
  end.

(** Modelled from the spec: [typeIsRecord] of the absent [type.c], a
    [Basic] whose symbol is a [Struct] or [Union], and [Invalid]. *)
Definition typeIsRecord (DT : type) : bool :=
  match DT with
  | typeBasic s =>
      match syms !! s with
      | Some Sym => bool_decide (sym.class Sym = symStruct)
                    || bool_decide (sym.class Sym = symUnion)
      | None => false
      end
  | typeInvalid => true
  | _ => false
  end.

(** Modelled from the spec: [typeIsCompatible] of the absent [type.c].
    Either side [Invalid]: true.  Two [Basic]: the same symbol, or both
    numeric.  Two [Pointer]: compatible bases, or either base void.  An
    [Array] against a [Pointer] of compatible base, on either side,
    lengths ignored.  Anything else: false. *)
Fixpoint typeIsCompatible (DT Model : type) : bool :=
  match DT, Model with
  | typeInvalid, _ => true
  | _, typeInvalid => true
  | typeBasic a, typeBasic b =>
      bool_decide (a = b) || (numericSym a && numericSym b)
  | typePtr x, typePtr y =>
      typeIsCompatible x y || typeIsVoid x || typeIsVoid y
  | typeArray x _, typePtr y => typeIsCompatible x y
  | typePtr x, typeArray y _ => typeIsCompatible x y
  | _, _ => false
  end.

(** Modelled from the spec: [typeDeepDuplicate] of the absent [type.c],
    a fresh structural copy; descriptors are values here, so the copy is
    the descriptor. *)
Definition typeDeepDuplicate (DT : type) : type := DT.

(** Modelled from the spec: [typeDeriveFrom] of the absent [type.c], a
    structural deep clone. *)
Definition typeDeriveFrom (DT : type) : type := typeDeepDuplicate DT.

(** Modelled from the spec: [typeDerivePtr] of the absent [type.c]. *)
Definition typeDerivePtr (DT : type) : type := typePtr DT.

(** Modelled from the spec: [typeDeriveBase] of the absent [type.c], the
    base of a [Pointer] or [Array], else [Invalid]. *)
Definition typeDeriveBase (DT : type) : type :=
  match DT with
  | typePtr b | typeArray b _ => typeDeepDuplicate b
  | _ => typeInvalid
  end.

(** Modelled from the spec: [typeDeriveArray] of the absent [type.c]. *)
Definition typeDeriveArray (elem : type) (n : Z) : type := typeArray elem n.

(** Modelled from the spec: [typeDeriveReturn] of the absent [type.c],
    the return type of a [Function], looking through one [Pointer].  The
    spec gives no result for other descriptors; [Invalid] stands for it. *)
Definition typeDeriveReturn (fn : type) : type :=
  match fn with
  | typeFunction ret _ => typeDeepDuplicate ret
  | typePtr (typeFunction ret _) => typeDeepDuplicate ret
  | _ => typeInvalid
  end.

(** Modelled from the spec: the rank of a numeric symbol, [int] above
    [char] above [bool] (section 4.2.3). *)
Definition numericRank (s : symRef) : Z :=
  if symIs symType "int" s then 3
  else if symIs symType "char" s then 2
  else if symIs symType "bool" s then 1
  else 0.

(** Modelled from the spec: [typeDeriveFromTwo] of the absent [type.c].
    If either side is a pointer, that pointer, deep cloned; else the
    numeric of wider rank.  The spec gives no result outside these
    cases; [Invalid] stands for it. *)
Definition typeDeriveFromTwo (L R : type) : type :=
  match L, R with
  | typePtr _, _ => typeDeepDuplicate L
  | _, typePtr _ => typeDeepDuplicate R
  | typeBasic a, typeBasic b =>
      if numericSym a && numericSym b then
        if numericRank a <? numericRank b then typeDeepDuplicate R
        else typeDeepDuplicate L
      else typeInvalid
  | _, _ => typeInvalid
  end.

(** Modelled from the spec: [typeDeriveUnified] of the absent [type.c],
    the same rule as [typeDeriveFromTwo]. *)
Definition typeDeriveUnified (L R : type) : type := typeDeriveFromTwo L R.

(** Modelled from the spec: [symChild] of the absent [sym.c], the child
    of [Scope] named [Look], null when there is none. *)
(** Modelled from the spec: the walk of [symChild] along a child chain. *)
Fixpoint symChildFrom (Current : list symRef) (Look : string) : option symRef :=
  match Current with
  | [] => None
  | c :: rest =>
      match syms !! c with
      | Some Sym => if streq (sym.ident Sym) Look then Some c
                    else symChildFrom rest Look
      | None => symChildFrom rest Look
      end
  end.

Definition symChild (Scope : symRef) (Look : string) : option symRef :=
  match syms !! Scope with
  | Some Sym => symChildFrom (sym.firstChild Sym) Look
  | None => None
  end.
End TypeAlgebra.

(** The members of a type descriptor, as [L->base] and the like read
    them.  A member that the variant of the descriptor does not carry has
    no defined value. *)
Module ty.
Definition basic (DT : type) : option symRef :=
  match DT with typeBasic s => Some s | _ => None end.
Definition base (DT : type) : option type :=
  match DT with typePtr b | typeArray b _ => Some b | _ => None end.
Definition returnType (DT : type) : option type :=
  match DT with typeFunction ret _ => Some ret | _ => None end.
Definition params (DT : type) : option Z :=
  match DT with typeFunction _ n => Some n | _ => None end.
End ty.

(** ** Runs of the analyzer *)

(** Modelled from the spec: the enumeration that indexes the built-in
    types table (section 6.2); [builtinInt] and [builtinBool] are named in
    [analyzerLiteral]. *)
Inductive builtin := builtinVoid | builtinBool | builtinChar | builtinInt.

(** Modelled from the spec: [analyzerCtx] of the absent [analyzer.h],
    with the members [analyzer.c] uses; [returnType] is a nullable
    pointer. *)
Record analyzerCtx := mkCtx {
  types : builtin → symRef;
  errors : Z;
  warnings : Z;
  returnType : option type
}.

(** What a run of the analyzer acts on: its context and standard output. *)
Record world := mkWorld { ctx : analyzerCtx; stdout : string }.

(** A run either has no defined result or yields a value and a new world. *)
Definition run (A : Type) : Type := world → option (A * world).

Global Instance run_ret : MRet run := λ A a w, Some (a, w).
Global Instance run_bind : MBind run := λ A B f m w,
  match m w with
  | Some (a, w') => f a w'
  | None => None
  end.

Definition undefined {A} : run A := λ _, None.

(** Following a nullable pointer. *)
Notation "'deref' x ← p ; k" :=
  (match p with Some x => k | None => undefined end)
  (at level 20, x name, p at level 100, k at level 200, only parsing).

(** An [if] without [else] around a call that returns nothing. *)
Definition when_ (b : bool) (m : run unit) : run unit :=
  if b then m else mret tt.

Definition nl : string := String "010"%char "".

Definition printf (s : string) : run unit :=
  λ w, Some (tt, mkWorld (ctx w) (stdout w +:+ s)).

(** Reading [ctx->types] and [ctx->returnType]. *)
Definition getTypes : run (builtin → symRef) := λ w, Some (types (ctx w), w).

Definition getReturnType : run (option type) :=
  λ w, Some (returnType (ctx w), w).

Definition setReturnType (t : option type) : run unit :=
  λ w, Some (tt, mkWorld (mkCtx (types (ctx w)) (errors (ctx w))
                                (warnings (ctx w)) t) (stdout w)).

(** [ctx->errors++] *)
Definition countError : run unit :=
  λ w, Some (tt, mkWorld (mkCtx (types (ctx w)) (errors (ctx w) + 1)
                                (warnings (ctx w)) (returnType (ctx w)))
                         (stdout w)).

(** The text that [analyzerError] writes for a node and a formatted
    message: no full stop precedes the newline. *)
Definition analyzerLine (Node : ast) (msg : string) : string :=
  "error(" +:+ pretty (line (location Node)) +:+ ":"
           +:+ pretty (lineChar (location Node)) +:+ "): " +:+ msg +:+ nl.

(** [analyzerError]: the formatted message stands for [format] and its
    arguments. *)
Definition analyzerError (Node : ast) (msg : string) : run unit :=
  printf ("error(" +:+ pretty (line (location Node)) +:+ ":"
                   +:+ pretty (lineChar (location Node)) +:+ "): ");;
  printf msg;;
  printf nl;;
  countError.

Section Analyzer.
Variable syms : gmap symRef sym.t.

(** [typeToStr] of the absent [type.c] renders a type for a message; its
    text is left open. *)
Variable typeToStr : type → string → string.

Definition analyzerErrorExpected (Node : ast) (where_ Expected : string)
    (Found : type) : run unit :=
  let FoundStr := typeToStr Found "" in
  analyzerError Node (where_ +:+ " expected " +:+ Expected
                             +:+ ", found " +:+ FoundStr).

Definition analyzerErrorExpectedType (Node : ast) (where_ : string)
    (Expected Found : type) : run unit :=
  let ExpectedStr := typeToStr Expected "" in
  analyzerErrorExpected Node where_ ExpectedStr Found.

Definition analyzerErrorOp (op desc : string) (Operand : ast) (DT : type)
    : run unit :=
  let DTStr := typeToStr DT "" in
  analyzerError Operand (op +:+ " requires " +:+ desc
                            +:+ ", found " +:+ DTStr).

Definition analyzerErrorMismatch (Node : ast) (op : string) (L R : type)
    : run unit :=
  let LStr := typeToStr L "" in
  let RStr := typeToStr R "" in
  analyzerError Node ("type mismatch between " +:+ LStr +:+ " and "
                        +:+ RStr +:+ " for " +:+ op).

Definition analyzerErrorDegree (Node : ast) (thing : string)
    (expected found : Z) (where_ : string) : run unit :=
  analyzerError Node (pretty expected +:+ " " +:+ thing +:+ " expected, "
                        +:+ pretty found +:+ " given to " +:+ where_).

Definition analyzerErrorParamMismatch (Node : ast) (n : Z)
    (Expected Found : type) : run unit :=
  let ExpectedStr := typeToStr Expected "" in
  let FoundStr := typeToStr Found "" in
  deref s ← symbol Node;
  deref Sym ← syms !! s;
  analyzerError Node ("type mismatch at parameter " +:+ pretty n
                        +:+ " of " +:+ sym.ident Sym +:+ ": expected "
                        +:+ ExpectedStr +:+ ", found " +:+ FoundStr).

Definition analyzerErrorMember (op : string) (Node : ast) (Record_ : type)
    : run unit :=
  let RecordStr := typeToStr Record_ "" in
  analyzerError Node (op +:+ " expected field of " +:+ RecordStr
                         +:+ ", found " +:+ literal Node).

Definition analyzerInit (Types : builtin → symRef) : analyzerCtx :=
  mkCtx Types 0 0 None.

(** *** Operator classes *)

Definition isNumericBOP (op : string) : bool :=
     streq op "+" || streq op "-"
  || streq op "*" || streq op "/"
  || streq op "%"
  || streq op "&" || streq op "|"
  || streq op "^"
  || streq op "<<" || streq op ">>"
  || streq op "+=" || streq op "-="
  || streq op "*=" || streq op "/="
  || streq op "%="
  || streq op "&=" || streq op "|="
  || streq op "^="
  || streq op "<<=" || streq op ">>=".

Definition isOrdinalBOP (op : string) : bool :=
     streq op ">" || streq op "<"
  || streq op ">=" || streq op "<=".

Definition isEqualityBOP (op : string) : bool :=
  streq op "==" || streq op "!=".

Definition isAssignmentBOP (op : string) : bool :=
     streq op "="
  || streq op "+=" || streq op "-="
  || streq op "*=" || streq op "/="
  || streq op "%="
  || streq op "&=" || streq op "|="
  || streq op "^="
  || streq op "<<=" || streq op ">>=".

Definition isMemberBOP (op : string) : bool :=
  streq op "." || streq op "->".

Definition isDerefBOP (op : string) : bool := streq op "->".

Definition isCommaBOP (op : string) : bool := streq op ",".

(** *** Expressions

    Each function takes the node and gives back the type it returns in C
    together with the node as it has been left.  The functions of the
    source call [analyzerValue] on operands; here they receive it as
    [value], and [analyzerValue] below ties the knot. *)

Definition valueFn : Type := ast → run (type * ast).

Definition analyzerBOP (value : valueFn) (Node : ast) : run (type * ast) :=
  deref ln ← l Node;
  '(L, ln) ← value ln;
  deref rn ← r Node;
  '(R, rn) ← value rn;
  let Node := setR (setL Node ln) rn in
  when_ (isNumericBOP (o Node)
         && (negb (typeIsNumeric syms L) || negb (typeIsNumeric syms R)))
    (analyzerErrorOp (o Node) "numeric type"
       (if negb (typeIsNumeric syms L) then ln else rn)
       (if negb (typeIsNumeric syms L) then L else R));;
  when_ (isAssignmentBOP (o Node)
         && (negb (typeIsAssignment syms L)
             || negb (typeIsAssignment syms R)))
    (analyzerErrorOp (o Node) "assignable type"
       (if negb (typeIsAssignment syms L) then ln else rn)
       (if negb (typeIsAssignment syms L) then L else R));;
  if typeIsCompatible syms L R then
    let DT := if isAssignmentBOP (o Node) then typeDeriveFrom R
              else typeDeriveFromTwo syms L R in
    mret (DT, setDt Node DT)
  else
    analyzerErrorMismatch Node (o Node) L R;;
    mret (typeInvalid, setDt Node typeInvalid).

Definition analyzerComparisonBOP (value : valueFn) (Node : ast)
    : run (type * ast) :=
  deref ln ← l Node;
  '(L, ln) ← value ln;
  deref rn ← r Node;
  '(R, rn) ← value rn;
  let Node := setR (setL Node ln) rn in
  (if isOrdinalBOP (o Node) then
     when_ (negb (typeIsOrdinal syms L) || negb (typeIsOrdinal syms R))
       (analyzerErrorOp (o Node) "comparable type"
          (if negb (typeIsOrdinal syms L) then ln else rn)
          (if negb (typeIsOrdinal syms L) then L else R))
   else
     when_ (negb (typeIsEquality syms L) || negb (typeIsEquality syms R))
       (analyzerErrorOp (o Node) "comparable type"
          (if negb (typeIsEquality syms L) then ln else rn)
          (if negb (typeIsEquality syms L) then L else R)));;
  if typeIsCompatible syms L R then
    let DT := typeDeriveFromTwo syms L R in
    mret (DT, setDt Node DT)
  else
    analyzerErrorMismatch Node (o Node) L R;;
    mret (typeInvalid, setDt Node typeInvalid).

Definition analyzerMemberBOP (value : valueFn) (Node : ast)
    : run (type * ast) :=
  deref ln ← l Node;
  '(L, ln) ← value ln;
  let Node := setL Node ln in
  (if isDerefBOP (o Node) then
     if negb (typeIsPtr L) then
       analyzerErrorOp (o Node) "pointer" ln L
     else
       deref b ← ty.base L;
       when_ (negb (typeIsRecord syms b))
         (analyzerErrorOp (o Node) "structure pointer" ln L)
   else
     when_ (negb (typeIsRecord syms L))
       (analyzerErrorOp (o Node) "structure type" ln L));;
  Node ← (if typeIsBasic L then
            deref s ← ty.basic L;
            deref rn ← r Node;
            mret (setSymbol Node (symChild syms s (literal rn)))
          else if typeIsPtr L then
            deref b ← ty.base L;
            if typeIsBasic b then
              deref s ← ty.basic b;
              deref rn ← r Node;
              mret (setSymbol Node (symChild syms s (literal rn)))
            else mret Node
          else mret Node);
  match symbol Node with
  | Some s =>
      deref Sym ← syms !! s;
      deref fdt ← sym.dt Sym;
      let DT := typeDeepDuplicate fdt in
      mret (DT, setDt Node DT)
  | None =>
      deref rn ← r Node;
      analyzerErrorMember (o Node) rn L;;
      mret (typeInvalid, setDt Node typeInvalid)
  end.

Definition analyzerCommaBOP (value : valueFn) (Node : ast)
    : run (type * ast) :=
  deref rn ← r Node;
  '(R, rn) ← value rn;
  let Node := setR Node rn in
  if negb (typeIsVoid syms R) || typeIsInvalid R then
    let DT := typeDeepDuplicate R in
    mret (DT, setDt Node DT)
  else
    analyzerErrorOp (o Node) "non-void" rn R;;
    mret (typeInvalid, setDt Node typeInvalid).

Definition analyzerUOP (value : valueFn) (Node : ast) : run (type * ast) :=
  deref rn ← r Node;
  '(R, rn) ← value rn;
  let Node := setR Node rn in
  if    streq (o Node) "+" || streq (o Node) "-"
     || streq (o Node) "++" || streq (o Node) "--"
     || streq (o Node) "!"
     || streq (o Node) "~" then
    if negb (typeIsNumeric syms R) then
      analyzerErrorOp (o Node) "numeric type" rn R;;
      mret (typeInvalid, setDt Node typeInvalid)
    else if streq (o Node) "++" || streq (o Node) "--" then
      let DT := typeDeriveFrom R in mret (DT, setDt Node DT)
    else
      let DT := typeDeriveFrom R in mret (DT, setDt Node DT)
  else if streq (o Node) "*" then
    if typeIsPtr R then
      let DT := typeDeriveBase R in mret (DT, setDt Node DT)
    else
      analyzerErrorOp (o Node) "pointer" rn R;;
      mret (typeInvalid, setDt Node typeInvalid)
  else if streq (o Node) "&" then
    let DT := typeDerivePtr R in mret (DT, setDt Node DT)
  else
    mret (typeInvalid, setDt Node typeInvalid).

Definition analyzerTernary (value : valueFn) (Node : ast)
    : run (type * ast) :=
  match firstChild Node with
  | [] => undefined
  | cn :: rest =>
      '(Cond, cn) ← value cn;
      deref ln ← l Node;
      '(L, ln) ← value ln;
      deref rn ← r Node;
      '(R, rn) ← value rn;
      let Node := setR (setL (setFirstChild Node (cn :: rest)) ln) rn in
      when_ (negb (typeIsCondition syms Cond))
        (analyzerErrorOp "ternary ?:" "condition value" cn Cond);;
      if typeIsCompatible syms L R then
        let DT := typeDeriveUnified syms L R in
        mret (DT, setDt Node DT)
      else
        analyzerErrorMismatch Node "ternary ?:" L R;;
        mret (typeInvalid, setDt Node typeInvalid)
  end.

Definition analyzerIndex (value : valueFn) (Node : ast)
    : run (type * ast) :=
  deref ln ← l Node;
  '(L, ln) ← value ln;
  deref rn ← r Node;
  '(R, rn) ← value rn;
  let Node := setR (setL Node ln) rn in
  when_ (negb (typeIsNumeric syms R))
    (analyzerErrorOp "[]" "numeric index" rn R);;
  if typeIsArray L || typeIsPtr L then
    let DT := typeDeriveBase L in mret (DT, setDt Node DT)
  else
    analyzerErrorOp "[]" "array or pointer" ln L;;
    mret (typeInvalid, setDt Node typeInvalid).

(** The loop of [analyzerCall] over the argument nodes and the parameter
    symbols at once; it stops where either chain ends and gives back the
    argument chain as left. *)
Fixpoint analyzerCallParams (value : valueFn) (Node : ast)
    (cNode : list ast) (cParam : list symRef) (n : Z)
    {struct cNode} : run (list ast) :=
  match cNode, cParam with
  | cn :: cNode, cp :: cParam =>
      '(Param, cn) ← value cn;
      deref CParam ← syms !! cp;
      deref pdt ← sym.dt CParam;
      when_ (negb (typeIsCompatible syms Param pdt))
        (analyzerErrorParamMismatch Node n pdt Param);;
      rest ← analyzerCallParams value Node cNode cParam (n + 1);
      mret (cn :: rest)
  | _, _ => mret cNode
  end.

Definition analyzerCall (value : valueFn) (Node : ast) : run (type * ast) :=
  deref ln ← l Node;
  '(L, ln) ← value ln;
  let Node := setL Node ln in
  if negb (typeIsCallable L) then
    deref s ← symbol Node;
    deref Sym ← syms !! s;
    deref sdt ← sym.dt Sym;
    deref first ← head (firstChild Node);
    analyzerErrorOp "()" "function" first sdt;;
    mret (typeInvalid, setDt Node typeInvalid)
  else
    deref s ← symbol Node;
    deref Sym ← syms !! s;
    deref sdt ← sym.dt Sym;
    let DT := typeDeepDuplicate (typeDeriveReturn sdt) in
    let Node := setDt Node DT in
    deref params ← (if typeIsPtr L then ty.base L ≫= ty.params
                    else ty.params L);
    if negb (bool_decide (params = children Node)) then
      analyzerErrorDegree Node "parameters" params (children Node)
                          (sym.ident Sym);;
      mret (DT, Node)
    else
      args ← analyzerCallParams value Node (firstChild Node)
                                (sym.firstChild Sym) 0;
      mret (DT, setFirstChild Node args).

Definition analyzerLiteral (Node : ast) : run (type * ast) :=
  if bool_decide (litClass Node = literalInt) then
    Types ← getTypes;
    let DT := typeBasic (Types builtinInt) in mret (DT, setDt Node DT)
  else if bool_decide (litClass Node = literalBool) then
    Types ← getTypes;
    let DT := typeBasic (Types builtinBool) in mret (DT, setDt Node DT)
  else if bool_decide (litClass Node = literalIdent) then
    deref s ← symbol Node;
    deref Sym ← syms !! s;
    deref sdt ← sym.dt Sym;
    let DT := typeDeepDuplicate sdt in mret (DT, setDt Node DT)
  else
    mret (typeInvalid, setDt Node typeInvalid).

Definition analyzerArrayLiteral (value : valueFn) (Node : ast)
    : run (type * ast) :=
  match firstChild Node with
  | [] => undefined
  | cn :: rest =>
      '(elem, cn) ← value cn;
      let Node := setFirstChild Node (cn :: rest) in
      let DT := typeDeriveArray elem (children Node) in
      mret (DT, setDt Node DT)
  end.

Fixpoint analyzerValue (Node : ast) {struct Node} : run (type * ast) :=
  match class Node with
  | astBOP =>
      if isNumericBOP (o Node) || isAssignmentBOP (o Node) then
        analyzerBOP analyzerValue Node
      else if isOrdinalBOP (o Node) || isEqualityBOP (o Node) then
        analyzerComparisonBOP analyzerValue Node
      else if isMemberBOP (o Node) then
        analyzerMemberBOP analyzerValue Node
      else if isCommaBOP (o Node) then
        analyzerCommaBOP analyzerValue Node
      else
        mret (typeInvalid, setDt Node typeInvalid)
  | astUOP => analyzerUOP analyzerValue Node
  | astTOP => analyzerTernary analyzerValue Node
  | astIndex => analyzerIndex analyzerValue Node
  | astCall => analyzerCall analyzerValue Node
  | astLiteral =>
      if bool_decide (litClass Node = literalArray) then
        analyzerArrayLiteral analyzerValue Node
      else
        analyzerLiteral Node
  | astInvalid => mret (typeInvalid, setDt Node typeInvalid)
  | _ => mret (typeInvalid, setDt Node typeInvalid)
  end.

(** *** Statements *)

(** [analyzerDecl] and [analyzerDeclStruct] of the absent
    [analyzer-decl.c], taken as they come. *)
Variable analyzerDecl : ast → run ast.
Variable analyzerDeclStruct : ast → run ast.

(** Modelled from the spec: [astIsValueClass] of the absent [ast.c], the
    expression classes, those [analyzerValue] has a case for. *)
Definition astIsValueClass (c : astClass) : bool :=
  match c with
  | astBOP | astUOP | astTOP | astIndex | astCall | astLiteral => true
  | _ => false
  end.

Definition nodeFn : Type := ast → run ast.

(** The loop over a [firstChild]/[nextSibling] chain. *)
Fixpoint analyzerNodes (node : nodeFn) (Current : list ast)
    : run (list ast) :=
  match Current with
  | [] => mret []
  | cn :: rest =>
      cn ← node cn;
      rest ← analyzerNodes node rest;
      mret (cn :: rest)
  end.

Definition analyzerModule (node : nodeFn) (Node : ast) : run ast :=
  cs ← analyzerNodes node (firstChild Node);
  mret (setFirstChild Node cs).

Definition analyzerFnImpl (node : nodeFn) (Node : ast) : run ast :=
  deref ln ← l Node;
  ln ← analyzerDecl ln;
  let Node := setL Node ln in
  deref s ← symbol Node;
  deref Sym ← syms !! s;
  deref sdt ← sym.dt Sym;
  deref ret ← ty.returnType sdt;
  setReturnType (Some ret);;
  deref rn ← r Node;
  rn ← node rn;
  setReturnType None;;
  mret (setR Node rn).

Definition analyzerCode (node : nodeFn) (Node : ast) : run ast :=
  cs ← analyzerNodes node (firstChild Node);
  mret (setFirstChild Node cs).

Definition analyzerBranch (node : nodeFn) (Node : ast) : run ast :=
  match firstChild Node with
  | [] => undefined
  | cond :: rest =>
      '(condDT, cond) ← analyzerValue cond;
      let Node := setFirstChild Node (cond :: rest) in
      when_ (negb (typeIsCondition syms condDT))
        (analyzerErrorExpected cond "if" "condition" condDT);;
      deref ln ← l Node;
      ln ← node ln;
      let Node := setL Node ln in
      match r Node with
      | Some rn => rn ← node rn; mret (setR Node rn)
      | None => mret Node
      end
  end.

Definition analyzerLoop (node : nodeFn) (Node : ast) : run ast :=
  deref ln ← l Node;
  if bool_decide (class ln = astCode) then
    (* do while: the condition is [r], the code is [l] *)
    deref cond ← r Node;
    '(condDT, cond) ← analyzerValue cond;
    when_ (negb (typeIsCondition syms condDT))
      (analyzerErrorExpected cond "do loop" "condition" condDT);;
    code ← node ln;
    mret (setR (setL Node code) cond)
  else
    '(condDT, cond) ← analyzerValue ln;
    when_ (negb (typeIsCondition syms condDT))
      (analyzerErrorExpected cond "do loop" "condition" condDT);;
    deref code ← r Node;
    code ← node code;
    mret (setR (setL Node cond) code).

Definition analyzerIter (node : nodeFn) (Node : ast) : run ast :=
  match firstChild Node with
  | init :: cond :: iter :: rest =>
      init ← (if bool_decide (class init = astDecl) then node init
              else if negb (bool_decide (class init = astEmpty)) then
                '(_, init) ← analyzerValue init; mret init
              else mret init);
      cond ← (if negb (bool_decide (class cond = astEmpty)) then
                '(condDT, cond) ← analyzerValue cond;
                when_ (negb (typeIsCondition syms condDT))
                  (analyzerErrorExpected cond "for loop" "condition" condDT);;
                mret cond
              else mret cond);
      iter ← (if negb (bool_decide (class iter = astEmpty)) then
                '(_, iter) ← analyzerValue iter; mret iter
              else mret iter);
      let Node := setFirstChild Node (init :: cond :: iter :: rest) in
      deref ln ← l Node;
      ln ← node ln;
      mret (setL Node ln)
  | _ => undefined
  end.

Definition analyzerReturn (Node : ast) : run ast :=
  '(R, Node) ← (match r Node with
                | Some rn =>
                    '(R, rn) ← analyzerValue rn; mret (R, setR Node rn)
                | None => mret (typeInvalid, Node)
                end);
  returnType ← getReturnType;
  deref ret ← returnType;
  if negb (typeIsCompatible syms R ret) then
    deref rn ← r Node;
    analyzerErrorExpectedType rn "return" ret R;;
    mret Node
  else mret Node.

Fixpoint analyzerNode (Node : ast) {struct Node} : run ast :=
  match class Node with
  | astEmpty => mret Node
  | astInvalid => mret Node
  | astFnImpl => analyzerFnImpl analyzerNode Node
  | astDeclStruct => analyzerDeclStruct Node
  | astDecl => analyzerDecl Node
  | astCode => analyzerCode analyzerNode Node
  | astBranch => analyzerBranch analyzerNode Node
  | astLoop => analyzerLoop analyzerNode Node
  | astIter => analyzerIter analyzerNode Node
  | astReturn => analyzerReturn Node
  | astBreak => mret Node
  | c => if astIsValueClass c then '(_, Node) ← analyzerValue Node; mret Node
         else mret Node
  end.

Record analyzerResult := mkResult { res_errors : Z; res_warnings : Z }.

(** [analyzer]: a fresh context, one walk from the module node, the
    counts of the context as the result.  The tree as left and the
    output are handed back with it. *)
Definition analyzer (Tree : ast) (Types : builtin → symRef) (out : string)
    : option (analyzerResult * ast * string) :=
  match analyzerModule analyzerNode Tree (mkWorld (analyzerInit Types) out) with
  | Some (Tree, w) =>
      Some (mkResult (errors (ctx w)) (warnings (ctx w)), Tree, stdout w)
  | None => None
  end.
End Analyzer.

(** ** Parser helpers ([src/parser-helpers.c]) *)

Module Parser.
(** Modelled from the spec: the token classes of the absent lexer header
    (section 3.2), the four that [tokenClassGetStr] names. *)
Inductive tokenClass := tokenOther | tokenEOF | tokenIdent | tokenInt.

Global Instance tokenClass_eq_dec : EqDecision tokenClass.
Proof. solve_decision. Defined.

(** Modelled from the spec: the lexer context of the absent lexer header,
    as the parser sees it: the class and text of the current token, the
    position of its stream, and the input not yet read. *)
Record lexerCtx := mkLexer {
  token : tokenClass;
  buffer : string;
  stream_line : Z;
  stream_lineChar : Z;
  unread : string
}.

(** Modelled from the spec: [parserCtx] of the absent [parser.h], with
    the members [parser-helpers.c] uses. *)
Record parserCtx := mkParser {
  lexer : lexerCtx;
  scope : symRef;
  location : tokenLocation;
  errors : Z
}.

(** The parser context with standard output and standard input. *)
Record world := mkWorld {
  ctx : parserCtx;
  stdout : string;
  stdin : string
}.

Definition printf (s : string) (w : world) : world :=
  mkWorld (ctx w) (stdout w +:+ s) (stdin w).

(** [getchar()], its result dropped. *)
Definition getchar (w : world) : world :=
  mkWorld (ctx w) (stdout w)
          (match stdin w with String _ rest => rest | EmptyString => "" end).

Definition countError (w : world) : world :=
  mkWorld (mkParser (lexer (ctx w)) (scope (ctx w)) (location (ctx w))
                    (errors (ctx w) + 1))
          (stdout w) (stdin w).

Definition setLexer (lx : lexerCtx) (w : world) : world :=
  mkWorld (mkParser lx (scope (ctx w)) (location (ctx w)) (errors (ctx w)))
          (stdout w) (stdin w).

Definition setLocation (loc : tokenLocation) (w : world) : world :=
  mkWorld (mkParser (lexer (ctx w)) (scope (ctx w)) loc (errors (ctx w)))
          (stdout w) (stdin w).

(** The text that [error] writes for a formatted message: [puts(".")]
    ends it with a full stop and a newline. *)
Definition errorLine (loc : tokenLocation) (msg : string) : string :=
  "error(" +:+ pretty (line loc) +:+ ":" +:+ pretty (lineChar loc)
           +:+ "): " +:+ msg +:+ "." +:+ nl.

Definition error (msg : string) (w : world) : world :=
  let w := printf ("error(" +:+ pretty (line (location (ctx w))) +:+ ":"
                     +:+ pretty (lineChar (location (ctx w))) +:+ "): ") w in
  let w := printf msg w in
  let w := printf ("." +:+ nl) w in
  let w := countError w in
  getchar w.

Definition errorExpected (Expected : string) (w : world) : world :=
  error ("expected " +:+ Expected +:+ ", found '"
           +:+ buffer (lexer (ctx w)) +:+ "'") w.





Section Tokens.
(** [lexerNext] of the absent [lexer.c]: reads the next token. *)
Variable lexerNext : lexerCtx → lexerCtx.

Definition tokenIs (Match : string) (w : world) : bool :=
  streq (buffer (lexer (ctx w))) Match.

Definition tokenIsIdent (w : world) : bool :=
  bool_decide (token (lexer (ctx w)) = tokenIdent).

Definition tokenIsInt (w : world) : bool :=
  bool_decide (token (lexer (ctx w)) = tokenInt).

Definition tokenNext (w : world) : world :=
  let w := setLexer (lexerNext (lexer (ctx w))) w in
  setLocation (mkLoc (stream_line (lexer (ctx w)))
                     (stream_lineChar (lexer (ctx w)))) w.

Definition tokenMatch (w : world) : world := tokenNext w.

Definition tokenDupMatch (w : world) : string * world :=
  let Old := buffer (lexer (ctx w)) in
  (Old, tokenMatch w).

Definition tokenClassGetStr (c : tokenClass) : string :=
  match c with
  | tokenOther => "other"
  | tokenEOF => "end of file"
  | tokenIdent => "identifier"
  | tokenInt => "int"
  end.

Definition tokenMatchToken (Match : tokenClass) (w : world) : world :=
  if bool_decide (token (lexer (ctx w)) = Match) then tokenMatch w
  else
    let w := errorExpected (tokenClassGetStr Match) w in
    setLexer (lexerNext (lexer (ctx w))) w.

(** The buffer for [expectedInQuotes] is a matter of memory, not modelled;
    the text it holds is the match between quotes. *)
Definition tokenMatchStr (Match : string) (w : world) : world :=
  if tokenIs Match w then tokenMatch w
  else
    let expectedInQuotes := "'" +:+ Match +:+ "'" in
    let w := errorExpected expectedInQuotes w in
    setLexer (lexerNext (lexer (ctx w))) w.

Definition tokenTryMatchStr (Match : string) (w : world) : bool * world :=
  if tokenIs Match w then (true, tokenMatch w) else (false, w).

Definition tokenMatchIdent (w : world) : string * world :=
  let Old := buffer (lexer (ctx w)) in
  (Old, tokenMatchToken tokenIdent w).

(** The world after a match has failed against [Expected]: one "expected"
    diagnostic written and counted, one character of input read by
    [getchar], the lexer advanced by one token, scope and recorded
    location as they were. *)
Definition afterFailedMatch (Expected : string) (w : world) : world :=
  mkWorld
    (mkParser (lexerNext (lexer (ctx w))) (scope (ctx w)) (location (ctx w))
              (errors (ctx w) + 1))
    (stdout w +:+ errorLine (location (ctx w))
                    ("expected " +:+ Expected +:+ ", found '"
                       +:+ buffer (lexer (ctx w)) +:+ "'"))
    (match stdin w with String _ rest => rest | EmptyString => "" end).

(** [atoi] of the C library, as it comes. *)
Variable atoi : string → Z.

Definition tokenMatchInt (w : world) : Z * world :=
  let ret := atoi (buffer (lexer (ctx w))) in
  (ret, tokenMatchToken tokenInt w).

(** The world after a match has succeeded: the lexer advanced by one token
    and the recorded location set to where the lexer's stream then is. *)
Definition afterMatch (w : world) : world :=
  mkWorld
    (mkParser (lexerNext (lexer (ctx w))) (scope (ctx w))
              (mkLoc (stream_line (lexerNext (lexer (ctx w))))
                     (stream_lineChar (lexerNext (lexer (ctx w)))))
              (errors (ctx w)))
    (stdout w) (stdin w).

(** A run of calls to the two matching functions, one after the other. *)
Inductive matchCall := byClass (Match : tokenClass) | byStr (Match : string).

Definition tokenMatchCall (c : matchCall) (w : world) : world :=
  match c with
  | byClass Match => tokenMatchToken Match w
  | byStr Match => tokenMatchStr Match w
  end.

Fixpoint tokenMatchCalls (cs : list matchCall) (w : world) : world :=
  match cs with
  | [] => w
  | c :: cs => tokenMatchCalls cs (tokenMatchCall c w)
  end.

(** What a call says it expected when it fails. *)
Definition expectedText (c : matchCall) : string :=
  match c with
  | byClass Match => tokenClassGetStr Match
  | byStr Match => "'" +:+ Match +:+ "'"
  end.

(** Whether a call finds what it asks for, and how many of a run of calls
    do not. *)
Definition matches (c : matchCall) (w : world) : bool :=
  match c with
  | byClass Match => bool_decide (token (lexer (ctx w)) = Match)
  | byStr Match => tokenIs Match w
  end.

End Tokens.
End Parser.

(** ** What a run leaves behind *)

Fixpoint linesText (ds : list string) : string :=
  match ds with
  | [] => ""
  | d :: ds => d +:+ linesText ds
  end.

(** The world after the diagnostics [ds] have been written and counted. *)
Definition emit (w : world) (ds : list string) : world :=
  mkWorld (mkCtx (types (ctx w)) (errors (ctx w) + Z.of_nat (length ds))
                 (warnings (ctx w)) (returnType (ctx w)))
          (stdout w +:+ linesText ds).

(** As [emit], with the return type of the context replaced. *)
Definition emitRet (w : world) (ds : list string) (rt : option type) : world :=
  mkWorld (mkCtx (types (ctx w)) (errors (ctx w) + Z.of_nat (length ds))
                 (warnings (ctx w)) rt)
          (stdout w +:+ linesText ds).

(** Two worlds that the analyzer cannot tell apart: it reads neither the
    error count nor what has been printed. *)
Definition agree (w1 w2 : world) : Prop :=
  types (ctx w1) = types (ctx w2)
  ∧ warnings (ctx w1) = warnings (ctx w2)
  ∧ returnType (ctx w1) = returnType (ctx w2).

(** A computation that only reports: whatever it yields, it yields in every
    world that agrees, and all it does to the world is to add the same
    diagnostics. *)
Definition Quiet {A} (m : run A) : Prop :=
  ∀ w a w', m w = Some (a, w') →
    ∃ ds, w' = emit w ds ∧ ∀ w2, agree w w2 → m w2 = Some (a, emit w2 ds).

(** A computation that reports and may set the return type. *)
Definition Uniform {A} (m : run A) : Prop :=
  ∀ w a w', m w = Some (a, w') →
    ∃ ds rt, w' = emitRet w ds rt
             ∧ ∀ w2, agree w w2 → m w2 = Some (a, emitRet w2 ds rt).

(** Running again on the node that a run has left reproduces the run. *)
Definition Settled {A} (f : ast → run (A * ast)) (Node : ast) : Prop :=
  ∀ w a Node' w', f Node w = Some (a, Node', w') →
    f Node' w = Some (a, Node', w').

Definition SettledNode (f : ast → run ast) (Node : ast) : Prop :=
  ∀ w Node' w', f Node w = Some (Node', w') → f Node' w = Some (Node', w').

(** The lines of the analyzer's diagnostics, as [analyzerErrorOp],
    [analyzerErrorMember], [analyzerErrorDegree] and
    [analyzerErrorExpectedType] format them. *)
Definition opLine (typeToStr : type → string → string) (op desc : string)
    (Operand : ast) (DT : type) : string :=
  analyzerLine Operand (op +:+ " requires " +:+ desc +:+ ", found "
                           +:+ typeToStr DT "").


Definition degreeLine (Node : ast) (thing : string) (expected found : Z)
    (where_ : string) : string :=
  analyzerLine Node (pretty expected +:+ " " +:+ thing +:+ " expected, "
                       +:+ pretty found +:+ " given to " +:+ where_).

Definition expectedTypeLine (typeToStr : type → string → string) (Node : ast)
    (where_ : string) (Expected Found : type) : string :=
  analyzerLine Node (where_ +:+ " expected " +:+ typeToStr Expected ""
                            +:+ ", found " +:+ typeToStr Found "").





(** A node that carries a type, as do all nodes visited below it. *)
#[local] Unset Elimination Schemes.
#[local] Set Elimination Schemes.



(** A statement all of whose expressions carry a type, in the statements
    below it as well. *)
#[local] Unset Elimination Schemes.
#[local] Set Elimination Schemes.

(** The diagnostics of an ordinal comparison node, given the types of its
    operands. *)
Definition ordinalLines (syms : gmap symRef sym.t)
    (typeToStr : type → string → string) (Node ln rn : ast) (L R : type)
    : list string :=
  (if negb (typeIsOrdinal syms L) || negb (typeIsOrdinal syms R)
   then [opLine typeToStr (o Node) "comparable type"
           (if negb (typeIsOrdinal syms L) then ln else rn)
           (if negb (typeIsOrdinal syms L) then L else R)]
   else [])
  ++ (if typeIsCompatible syms L R then []
      else [analyzerLine Node
              ("type mismatch between " +:+ typeToStr L "" +:+ " and "
                 +:+ typeToStr R "" +:+ " for " +:+ o Node)]).


(** ** A symbol table and trees to evaluate on *)

Module Sample.
Definition int : type := typeBasic 4.

(** [void], [bool], [char], [int]; [int f(int a, int b)];
    [struct S { int a; }]; [struct S s]; [int g()]; [int *p];
    [int h(void)]. *)
Definition syms : gmap symRef sym.t :=
  list_to_map [
    (1%positive, sym.mk "void" symType None []);
    (2%positive, sym.mk "bool" symType None []);
    (3%positive, sym.mk "char" symType None []);
    (4%positive, sym.mk "int" symType None []);
    (5%positive, sym.mk "f" symId (Some (typeFunction int 2))
                        [6%positive; 7%positive]);
    (6%positive, sym.mk "a" symParam (Some int) []);
    (7%positive, sym.mk "b" symParam (Some int) []);
    (8%positive, sym.mk "S" symStruct None [9%positive]);
    (9%positive, sym.mk "a" symId (Some int) []);
    (10%positive, sym.mk "s" symId (Some (typeBasic 8)) []);
    (11%positive, sym.mk "g" symId (Some (typeFunction int 0)) []);
    (12%positive, sym.mk "p" symId (Some (typePtr int)) []);
    (13%positive, sym.mk "h" symId (Some (typeFunction int 0)) [])
  ].

Definition Types (b : builtin) : symRef :=
  match b with
  | builtinVoid => 1 | builtinBool => 2 | builtinChar => 3 | builtinInt => 4
  end%positive.

(** A rendering of types, enough to read the messages. *)
Fixpoint typeToStr (DT : type) (suffix : string) : string :=
  match DT with
  | typeBasic s =>
      match syms !! s with
      | Some Sym =>
          (if bool_decide (sym.class Sym = symStruct) then "struct " else "")
            +:+ sym.ident Sym +:+ suffix
      | None => suffix
      end
  | typePtr b => typeToStr b ("*" +:+ suffix)
  | typeArray b n => typeToStr b (suffix +:+ "[" +:+ pretty n +:+ "]")
  | typeFunction ret _ => typeToStr ret (suffix +:+ "()")
  | typeInvalid => "<invalid>" +:+ suffix
  end.

(** A declaration analyzer that leaves declarations as they are. *)
Definition analyzerDecl (Node : ast) : run ast := mret Node.

Definition leaf (c : astClass) (lc : literalClass) (text : string)
    (s : option symRef) (at_ : Z) : ast :=
  mkAst c lc "" text s None (mkLoc 1 at_) [] 0 None None.

Definition intLit (text : string) (at_ : Z) : ast :=
  leaf astLiteral literalInt text None at_.

Definition ident (text : string) (s : symRef) (at_ : Z) : ast :=
  leaf astLiteral literalIdent text (Some s) at_.

Definition bop (op : string) (a b : ast) (at_ : Z) : ast :=
  mkAst astBOP literalUndefined op "" None None (mkLoc 1 at_) [] 0
        (Some a) (Some b).

Definition call (fn : ast) (s : symRef) (args : list ast) (at_ : Z) : ast :=
  mkAst astCall literalUndefined "" "" (Some s) None (mkLoc 1 at_) args
        (Z.of_nat (length args)) (Some fn) None.

Definition ret (e : option ast) (at_ : Z) : ast :=
  mkAst astReturn literalUndefined "" "" None None (mkLoc 1 at_) [] 0 None e.

Definition w0 : world := mkWorld (analyzerInit Types) "".

(** Inside a function that returns [int]. *)
Definition wInt : world := mkWorld (mkCtx Types 0 0 (Some int)) "".

(** [f(1)], [f(1, s)], [1, 2], [p < p], [s.a], [s.b], [return g;],
    [return;] *)
Definition f_1 : ast := call (ident "f" 5 27) 5 [intLit "1" 29] 27.
Definition f_1_s : ast :=
  call (ident "f" 5 27) 5 [intLit "1" 29; ident "s" 10 32] 27.
Definition one_comma_two : ast := bop "," (intLit "1" 1) (intLit "2" 4) 2.
Definition p_lt_p : ast := bop "<" (ident "p" 12 1) (ident "p" 12 5) 3.
Definition s_dot_a : ast :=
  bop "." (ident "s" 10 1) (leaf astLiteral literalIdent "a" None 3) 2.
Definition return_g : ast := ret (Some (ident "g" 11 8)) 1.
Definition return_nothing : ast := ret None 1.

(** [int h(void) { return g; }] as the only member of a module. *)
Definition h_impl : ast :=
  mkAst astFnImpl literalUndefined "" "" (Some 13%positive) None (mkLoc 1 1)
        [] 0
        (Some (call (ident "h" 13 5) 13 [] 5))
        (Some (mkAst astCode literalUndefined "" "" None None (mkLoc 1 13)
                     [return_g] 1 None None)).

Definition module_h : ast :=
  mkAst astModule literalUndefined "" "" None None (mkLoc 1 1)
        [h_impl] 1 None None.

(** A lexer for tokens separated by single spaces, enough to advance. *)
Fixpoint word (s : string) : string * string :=
  match s with
  | "" => ("", "")
  | String " " rest => ("", rest)
  | String c rest => let '(tok, rest) := word rest in (String c tok, rest)
  end.

Definition classify (tok : string) : Parser.tokenClass :=
  match tok with
  | "" => Parser.tokenEOF
  | String c _ =>
      let n := Z.of_N (Ascii.N_of_ascii c) in
      if (48 <=? n) && (n <=? 57) then Parser.tokenInt
      else if (97 <=? n) && (n <=? 122) then Parser.tokenIdent
      else Parser.tokenOther
  end.

Definition lexerNext (lx : Parser.lexerCtx) : Parser.lexerCtx :=
  let '(tok, rest) := word (Parser.unread lx) in
  Parser.mkLexer (classify tok) tok (Parser.stream_line lx)
                 (Parser.stream_lineChar lx
                  + Z.of_nat (String.length (Parser.buffer lx)) + 1)
                 rest.

(** The parser at [int x ) ;], looking at [)] in column 7. *)
Definition atParen : Parser.world :=
  Parser.mkWorld
    (Parser.mkParser (Parser.mkLexer Parser.tokenOther ")" 1 7 ";")
                     1%positive (mkLoc 1 7) 0)
    "" "".
End Sample.

(** ** Machine integers *)

(** The range of [int], 32 bits wide, and the value that arithmetic on
    [int] leaves when the exact result is outside it: the compiled code
    wraps around. *)
Definition INT_MIN : Z := -2147483648.
Definition INT_MAX : Z := 2147483647.

Definition wrapInt (z : Z) : Z :=
  Z.modulo (z - INT_MIN) 4294967296 + INT_MIN.

(** ** Storage layout of records (the emitter's declaration pass) *)

Module Emitter.
(** Modelled from the spec: the members [offset] and [size] of
    [struct sym] (section 3.3), which the emitter fills in; they are kept
    per symbol, beside the members the analyzer reads. *)
Record storage := mkStorage { offset : Z; size : Z }.

Section Layout.
Variable syms : gmap symRef sym.t.

(** [typeGetSize(ctx->arch, _)] of the absent [type.c] and
    [ctx->arch->wordsize], as they come. *)
Variable typeGetSize : type → Z.
Variable wordsize : Z.

(** [Symbol->offset = v] and [Symbol->size = v]; a symbol that is not in
    memory cannot be written. *)
Definition setOffset (s : symRef) (v : Z) (m : gmap symRef storage)
    : option (gmap symRef storage) :=
  match m !! s with
  | Some st => Some (<[s := mkStorage v (size st)]> m)
  | None => None
  end.

Definition setSize (s : symRef) (v : Z) (m : gmap symRef storage)
    : option (gmap symRef storage) :=
  match m !! s with
  | Some st => Some (<[s := mkStorage (offset st) v]> m)
  | None => None
  end.

(** The size of a field rounded up to the next word boundary, the exact
    value of what the loop of [emitterStruct] computes; [/] on [int]
    truncates. *)
Definition wordsFor (fieldSize : Z) : Z :=
  ((fieldSize - 1) `quot` wordsize) * wordsize + wordsize.

(** [a / b] on [int]: truncating, and without a result when [b] is zero
    or the quotient is outside [int]. *)
Definition intDiv (a b : Z) : option Z :=
  if bool_decide (b = 0) then None
  else if bool_decide (a = INT_MIN) && bool_decide (b = -1) then None
  else Some (a `quot` b).

(** The loop of [emitterStruct] over the children of the record [Rec].
    The sizes and offsets are [int]: every sum and product wraps. *)
Fixpoint emitterStructLoop (Rec : symRef) (Current : list symRef)
    (m : gmap symRef storage) : option (gmap symRef storage) :=
  match Current with
  | [] => Some m
  | c :: rest =>
      match m !! Rec with
      | Some st =>
          match setOffset c (size st) m with
          | Some m =>
              let alignment := wordsize in
              match syms !! c with
              | Some C =>
                  match sym.dt C, m !! Rec with
                  | Some cdt, Some st =>
                      match intDiv (wrapInt (typeGetSize cdt - 1)) alignment
                      with
                      | Some q =>
                          match setSize Rec
                                  (wrapInt (size st
                                            + wrapInt (wrapInt (q * alignment)
                                                       + alignment))) m with
                          | Some m => emitterStructLoop Rec rest m
                          | None => None
                          end
                      | None => None
                      end
                  | _, _ => None
                  end
              | None => None
              end
          | None => None
          end
      | None => None
      end
  end.

Definition emitterStruct (Node : ast) (m : gmap symRef storage)
    : option (gmap symRef storage) :=
  match symbol Node with
  | Some Rec =>
      match syms !! Rec with
      | Some Sym => emitterStructLoop Rec (sym.firstChild Sym) m
      | None => None
      end
  | None => None
  end.

(** The loop of [emitterUnion]. *)
Fixpoint emitterUnionLoop (Rec : symRef) (Current : list symRef)
    (m : gmap symRef storage) : option (gmap symRef storage) :=
  match Current with
  | [] => Some m
  | c :: rest =>
      match setOffset c 0 m with
      | Some m =>
          match syms !! c with
          | Some C =>
              match sym.dt C, m !! Rec with
              | Some cdt, Some st =>
                  match setSize Rec (Z.max (size st) (typeGetSize cdt)) m with
                  | Some m => emitterUnionLoop Rec rest m
                  | None => None
                  end
              | _, _ => None
              end
          | None => None
          end
      | None => None
      end
  end.

Definition emitterUnion (Node : ast) (m : gmap symRef storage)
    : option (gmap symRef storage) :=
  match symbol Node with
  | Some Rec =>
      match syms !! Rec with
      | Some Sym => emitterUnionLoop Rec (sym.firstChild Sym) m
      | None => None
      end
  | None => None
  end.

(** [emitterDeclBasic]; the node's tag is its class. *)
Definition emitterDeclBasic (Node : ast) (m : gmap symRef storage)
    : option (gmap symRef storage) :=
  match class Node with
  | astStruct => emitterStruct Node m
  | astUnion => emitterUnion Node m
  | astLiteral => Some m
  | _ => Some m
  end.

(** The sizes of the fields in declaration order, and the sum of a list. *)
Definition fieldSize (c : symRef) : Z :=
  match syms !! c ≫= sym.dt with
  | Some cdt => typeGetSize cdt
  | None => 0
  end.

Definition fieldSizes (fields : list symRef) : list Z :=
  map fieldSize fields.

Definition total (xs : list Z) : Z := foldr Z.add 0 xs.

(** Every field is a symbol in memory with a data type, and is not the
    record itself. *)
Definition fieldsReady (Rec : symRef) (fields : list symRef)
    (m : gmap symRef storage) : Prop :=
  NoDup fields ∧ (Rec ∉ fields) ∧ is_Some (m !! Rec)
  ∧ ∀ c, c ∈ fields →
      is_Some (m !! c) ∧ ∃ C cdt, syms !! c = Some C ∧ sym.dt C = Some cdt.

(** The sizes for which the sums of [emitterStruct] stay inside [int]: a
    positive word size, fields of non-negative size, and a record whose
    size, not negative to begin with, does not pass [INT_MAX] with the
    rounded sizes of the fields added. *)
Definition fitsInt (size0 : Z) (fields : list symRef) : Prop :=
  0 < wordsize
  ∧ Forall (λ s, 0 ≤ s) (fieldSizes fields)
  ∧ 0 ≤ size0
  ∧ size0 + total (wordsFor <$> fieldSizes fields) ≤ INT_MAX.
End Layout.
End Emitter.

(** ** The shape of a tree *)

(** A tree with what the value analyzer writes taken out: every [dt], and
    the [symbol] of the member-access nodes. *)
Fixpoint strip (Node : ast) : ast :=
  mkAst (class Node) (litClass Node) (o Node) (literal Node)
        (if bool_decide (class Node = astBOP) && isMemberBOP (o Node)
         then None else symbol Node)
        None (location Node) (map strip (firstChild Node)) (children Node)
        (option_map strip (l Node)) (option_map strip (r Node)).

(** A line as [analyzerError] writes it. *)
Definition isAnalyzerLine (d : string) : Prop :=
  ∃ Node msg, d = analyzerLine Node msg.

(** A computation that, whatever else it does, adds to the output exactly
    the lines it adds to the error count. *)
Definition Reporting {A} (m : run A) : Prop :=
  ∀ w a w', m w = Some (a, w') →
    ∃ ds, Forall isAnalyzerLine ds
          ∧ errors (ctx w') = errors (ctx w) + Z.of_nat (length ds)
          ∧ stdout w' = stdout w +:+ linesText ds
          ∧ types (ctx w') = types (ctx w)
          ∧ warnings (ctx w') = warnings (ctx w).

(** The diagnostics of a numeric or assignment operator node, given the
    types of its operands. *)
Definition bopLines (syms : gmap symRef sym.t)
    (typeToStr : type → string → string) (Node ln rn : ast) (L R : type)
    : list string :=
  (if isNumericBOP (o Node)
      && (negb (typeIsNumeric syms L) || negb (typeIsNumeric syms R))
   then [opLine typeToStr (o Node) "numeric type"
           (if negb (typeIsNumeric syms L) then ln else rn)
           (if negb (typeIsNumeric syms L) then L else R)]
   else [])
  ++ (if isAssignmentBOP (o Node)
         && (negb (typeIsAssignment syms L) || negb (typeIsAssignment syms R))
      then [opLine typeToStr (o Node) "assignable type"
              (if negb (typeIsAssignment syms L) then ln else rn)
              (if negb (typeIsAssignment syms L) then L else R)]
      else [])
  ++ (if typeIsCompatible syms L R then []
      else [analyzerLine Node
              ("type mismatch between " +:+ typeToStr L "" +:+ " and "
                 +:+ typeToStr R "" +:+ " for " +:+ o Node)]).

(** The line of [analyzerErrorExpected], and the diagnostics of the test
    of a branch or loop whose type is [condDT]. *)
Definition expectedLine (typeToStr : type → string → string) (Node : ast)
    (where_ Expected : string) (Found : type) : string :=
  analyzerLine Node (where_ +:+ " expected " +:+ Expected
                            +:+ ", found " +:+ typeToStr Found "").

Definition conditionLines (syms : gmap symRef sym.t)
    (typeToStr : type → string → string) (where_ : string) (cond : ast)
    (condDT : type) : list string :=
  if typeIsCondition syms condDT then []
  else [expectedLine typeToStr cond where_ "condition" condDT].

(** The world with [ctx->returnType] assigned. *)
Definition withReturnType (w : world) (rt : option type) : world :=
  mkWorld (mkCtx (types (ctx w)) (errors (ctx w)) (warnings (ctx w)) rt)
          (stdout w).

(** More trees and a layout to evaluate on. *)
Module MoreSamples.
Import Sample.

Definition uop (op : string) (a : ast) (at_ : Z) : ast :=
  mkAst astUOP literalUndefined op "" None None (mkLoc 1 at_) [] 0
        None (Some a).

(** [*&s], [&1], [++1], [*s], [s()], [s(1)], [{}], [{1, s}], [s && s],
    [p += s], [p[s]], [s ? 1 : p] *)
Definition deref_addr_s : ast := uop "*" (uop "&" (ident "s" 10 3) 2) 1.
Definition amp_1 : ast := uop "&" (intLit "1" 2) 1.
Definition incr_1 : ast := uop "++" (intLit "1" 3) 1.
Definition deref_s : ast := uop "*" (ident "s" 10 2) 1.
Definition sizeof_s : ast := uop "sizeof" (ident "s" 10 8) 1.
Definition s_called : ast := call (ident "s" 10 1) 10 [] 1.
Definition s_called_1 : ast := call (ident "s" 10 1) 10 [intLit "1" 3] 1.
Definition empty_array : ast :=
  mkAst astLiteral literalArray "" "" None None (mkLoc 1 1) [] 0 None None.
Definition array_1_s : ast :=
  mkAst astLiteral literalArray "" "" None None (mkLoc 1 1)
        [intLit "1" 2; ident "s" 10 5] 2 None None.
Definition s_and_s : ast := bop "&&" (ident "s" 10 1) (ident "s" 10 6) 3.
Definition p_plus_assign_s : ast :=
  bop "+=" (ident "p" 12 1) (ident "s" 10 6) 3.
Definition s_lt_1 : ast := bop "<" (ident "s" 10 1) (intLit "1" 5) 3.


Definition p_index_s : ast :=
  mkAst astIndex literalUndefined "" "" None None (mkLoc 1 2) [] 0
        (Some (ident "p" 12 1)) (Some (ident "s" 10 3)).
Definition s_then_1_else_p : ast :=
  mkAst astTOP literalUndefined "" "" None None (mkLoc 1 3)
        [ident "s" 10 1] 1 (Some (intLit "1" 5)) (Some (ident "p" 12 9)).

(** [struct T { char c; int i; S s; }] with word size 8: sizes 1, 4, 12. *)
Definition fieldsT : list symRef := [21; 22; 23]%positive.

Definition symsT : gmap symRef sym.t :=
  list_to_map [
    (20%positive, sym.mk "T" symStruct None fieldsT);
    (21%positive, sym.mk "c" symId (Some (typeBasic 3)) []);
    (22%positive, sym.mk "i" symId (Some (typeBasic 4)) []);
    (23%positive, sym.mk "s" symId (Some (typeBasic 8)) [])
  ].

Definition sizeOf (DT : type) : Z :=
  match DT with
  | typeBasic 3 => 1
  | typeBasic 4 => 4
  | typeBasic 8 => 12
  | _ => 8
  end.

Definition fresh : gmap symRef Emitter.storage :=
  list_to_map [
    (20%positive, Emitter.mkStorage 0 0);
    (21%positive, Emitter.mkStorage 0 0);
    (22%positive, Emitter.mkStorage 0 0);
    (23%positive, Emitter.mkStorage 0 0)
  ].

(** Sizes with a [char] as large as [int] can say. *)
Definition hugeSizeOf (DT : type) : Z :=
  match DT with
  | typeBasic 3 => INT_MAX
  | _ => sizeOf DT
  end.

(** The memory after [struct T] has been laid out from [fresh]. *)
Definition laidOut : gmap symRef Emitter.storage :=
  list_to_map [
    (20%positive, Emitter.mkStorage 0 32);
    (21%positive, Emitter.mkStorage 0 0);
    (22%positive, Emitter.mkStorage 8 0);
    (23%positive, Emitter.mkStorage 16 0)
  ].

Definition structT : ast :=
  mkAst astStruct literalUndefined "" "" (Some 20%positive) None (mkLoc 1 1)
        [] 0 None None.

(** The same members declared as [union T]. *)
Definition unionT : ast :=
  mkAst astUnion literalUndefined "" "" (Some 20%positive) None (mkLoc 1 1)
        [] 0 None None.

Definition stmt (c : astClass) (cs : list ast) (a b : option ast) (at_ : Z)
    : ast :=
  mkAst c literalUndefined "" "" None None (mkLoc 1 at_) cs
        (Z.of_nat (length cs)) a b.

Definition empty (at_ : Z) : ast := stmt astEmpty [] None None at_.

(** A loop with the expression [s] in [l] and [p] in [r], a loop with
    the block [{ return; }] in [l] and [s] in [r], [for (;;) return;],
    [while (s) return;], [if (s) return;], [if (s) return; else return;] *)
Definition do_s_while_p : ast :=
  stmt astLoop [] (Some (ident "s" 10 4)) (Some (ident "p" 12 14)) 1.
Definition do_block_while_s : ast :=
  stmt astLoop [] (Some (stmt astCode [return_nothing] None None 4))
       (Some (ident "s" 10 22)) 1.
Definition for_ever : ast :=
  stmt astIter [empty 6; empty 7; empty 8] (Some return_nothing) None 1.
Definition while_s : ast :=
  stmt astLoop [] (Some (ident "s" 10 8)) (Some return_nothing) 1.
Definition if_s : ast :=
  stmt astBranch [ident "s" 10 5] (Some return_nothing) None 1.
Definition if_s_else : ast :=
  stmt astBranch [ident "s" 10 5] (Some return_nothing) (Some return_nothing)
       1.

(** The parser at [x y], looking at [x] in column 1. *)
Definition atX : Parser.world :=
  Parser.mkWorld
    (Parser.mkParser (Parser.mkLexer Parser.tokenIdent "x" 1 1 "y")
                     1%positive (mkLoc 1 1) 0)
    "" "".
End MoreSamples.

(** ** Reasoning about runs *)

Section AstInduction.
Variable P : ast → Prop.
Hypothesis step : ∀ Node,
  Forall P (firstChild Node) →
  (∀ x, l Node = Some x → P x) →
  (∀ x, r Node = Some x → P x) →
  P Node.

Lemma opt_all (p : option ast) :
  match p with Some y => P y | None => True end → ∀ x, p = Some x → P x.
Proof. intros H x ->. exact H. Qed.

Fixpoint ast_ind (Node : ast) : P Node :=
  step Node
    ((fix all (cs : list ast) : Forall P cs :=
        match cs with
        | [] => @List.Forall_nil ast P
        | c :: cs => @List.Forall_cons ast P c cs (ast_ind c) (all cs)
        end) (firstChild Node))
    (opt_all (l Node)
       match l Node as p return match p with Some y => P y | None => True end
       with Some y => ast_ind y | None => I end)
    (opt_all (r Node)
       match r Node as p return match p with Some y => P y | None => True end
       with Some y => ast_ind y | None => I end).
End AstInduction.

Lemma app_assoc_s (a b c : string) : (a +:+ b) +:+ c = a +:+ (b +:+ c).
Proof.
  induction a as [|x a IH]; [done|].
  change (String x ((a +:+ b) +:+ c) = String x (a +:+ (b +:+ c))).
  by rewrite IH.
Qed.

Lemma app_nil_s (a : string) : a +:+ "" = a.
Proof.
  induction a as [|x a IH]; [done|].
  change (String x (a +:+ "") = String x a). by rewrite IH.
Qed.

Lemma linesText_app (xs ys : list string) :
  linesText (xs ++ ys) = linesText xs +:+ linesText ys.
Proof.
  induction xs as [|x xs IH]; [done|].
  cbn [linesText app]. by rewrite IH, app_assoc_s.
Qed.

Lemma bind_Some {A B} (m : run A) (f : A → run B) w res :
  (m ≫= f) w = Some res → ∃ a w1, m w = Some (a, w1) ∧ f a w1 = Some res.
Proof. unfold mbind, run_bind. destruct (m w) as [[a w1]|]; [eauto|done]. Qed.

Lemma bind_intro {A B} (m : run A) (f : A → run B) w a w1 res :
  m w = Some (a, w1) → f a w1 = res → (m ≫= f) w = res.
Proof. unfold mbind, run_bind. by intros -> <-. Qed.

Lemma world_eta (w : world) :
  mkWorld (mkCtx (types (ctx w)) (errors (ctx w)) (warnings (ctx w))
                 (returnType (ctx w))) (stdout w) = w.
Proof. by destruct w as [[]]. Qed.

Lemma emit_nil (w : world) : emit w [] = w.
Proof.
  unfold emit. cbn [length linesText]. rewrite app_nil_s.
  replace (errors (ctx w) + Z.of_nat 0) with (errors (ctx w)) by lia.
  apply world_eta.
Qed.

Lemma emit_emit (w : world) (xs ys : list string) :
  emit (emit w xs) ys = emit w (xs ++ ys).
Proof.
  unfold emit. cbn [ctx stdout types errors warnings returnType].
  rewrite linesText_app, app_assoc_s, length_app.
  do 2 f_equal. lia.
Qed.

Lemma emitRet_emitRet (w : world) xs ys rt1 rt2 :
  emitRet (emitRet w xs rt1) ys rt2 = emitRet w (xs ++ ys) rt2.
Proof.
  unfold emitRet. cbn [ctx stdout types errors warnings returnType].
  rewrite linesText_app, app_assoc_s, length_app.
  do 2 f_equal. lia.
Qed.

Lemma emitRet_emit (w : world) xs : emitRet w xs (returnType (ctx w)) = emit w xs.
Proof. reflexivity. Qed.

Lemma agree_refl w : agree w w.
Proof. by repeat split. Qed.

Lemma agree_emit w1 w2 ds : agree w1 w2 → agree (emit w1 ds) (emit w2 ds).
Proof. intros (? & ? & ?). by repeat split. Qed.

Lemma agree_emitRet w1 w2 ds rt :
  agree w1 w2 → agree (emitRet w1 ds rt) (emitRet w2 ds rt).
Proof. intros (? & ? & ?). by repeat split. Qed.

(** [analyzerError] writes one line, without a full stop, and counts it. *)
Lemma analyzerError_emit (Node : ast) (msg : string) (w : world) :
  analyzerError Node msg w = Some (tt, emit w [analyzerLine Node msg]).
Proof.
  unfold analyzerError, analyzerLine, emit, mbind, run_bind, printf, countError.
  cbn [ctx stdout types errors warnings returnType length linesText].
  rewrite app_nil_s, !app_assoc_s. reflexivity.
Qed.

(** Simplifying the members of a node that has been assigned to. *)
Ltac proj :=
  cbn [class litClass o literal symbol dt location firstChild children l r
       setDt setSymbol setL setR setFirstChild] in *.

(** Taking a defined run apart, one step of the source at a time. *)
Ltac run_inv H :=
  cbv beta iota zeta in H;
  cbn [class litClass o literal symbol dt location firstChild children l r
       setDt setSymbol setL setR setFirstChild] in H;
  lazymatch type of H with
  | undefined _ = Some _ => discriminate H
  | None = Some _ => discriminate H
  | mret _ _ = Some _ =>
      unfold mret, run_ret in H; injection H as H; simplify_eq
  | mbind _ _ _ = Some _ =>
      let a := fresh "a" in
      let w := fresh "w" in
      let E := fresh "E" in
      apply bind_Some in H as (a & w & E & H); run_inv E; run_inv H
  | (match ?x with _ => _ end) _ = Some _ =>
      first [ is_var x; destruct x
            | match goal with Hx : x = _ |- _ => rewrite Hx in H end
            | destruct x eqn:? ];
      run_inv H
  | _ => idtac
  end.

(** Computations that only report *)

Lemma Quiet_ret {A} (a : A) : Quiet (mret a).
Proof.
  intros w a' w' [= <- <-]. exists []. split; [by rewrite emit_nil|].
  intros w2 _. by rewrite emit_nil.
Qed.

Lemma Quiet_undefined {A} : Quiet (@undefined A).
Proof. intros w a w' [=]. Qed.

Lemma Quiet_bind {A B} (m : run A) (f : A → run B) :
  Quiet m → (∀ a, Quiet (f a)) → Quiet (m ≫= f).
Proof.
  intros Hm Hf w b w' H.
  apply bind_Some in H as (a & w1 & E & H).
  destruct (Hm _ _ _ E) as (ds1 & -> & Hm2).
  destruct (Hf a _ _ _ H) as (ds2 & -> & Hf2).
  exists (ds1 ++ ds2). split; [apply emit_emit|].
  intros w2 Hag. eapply bind_intro; [apply Hm2, Hag|].
  rewrite <- emit_emit. apply Hf2, agree_emit, Hag.
Qed.

Lemma Quiet_analyzerError Node msg : Quiet (analyzerError Node msg).
Proof.
  intros w a w' H. rewrite analyzerError_emit in H. injection H as <- <-.
  eexists. split; [reflexivity|]. intros w2 _. apply analyzerError_emit.
Qed.

Lemma Quiet_when b (m : run unit) : Quiet m → Quiet (when_ b m).
Proof. destruct b; [done|]. intros _. apply Quiet_ret. Qed.

Lemma Quiet_getTypes : Quiet getTypes.
Proof.
  intros w a w' [= <- <-]. exists []. split; [by rewrite emit_nil|].
  intros w2 (Hty & _). unfold getTypes. by rewrite emit_nil, Hty.
Qed.

Lemma Quiet_getReturnType : Quiet getReturnType.
Proof.
  intros w a w' [= <- <-]. exists []. split; [by rewrite emit_nil|].
  intros w2 (_ & _ & Hrt). unfold getReturnType. by rewrite emit_nil, Hrt.
Qed.

Lemma Quiet_returnType {A} (m : run A) w a w' :
  Quiet m → m w = Some (a, w') → returnType (ctx w') = returnType (ctx w).
Proof. intros Hm H. by destruct (Hm _ _ _ H) as (ds & -> & _). Qed.

(** Breaking a goal [Quiet m] down along the shape of [m]. *)
Ltac quiet_step :=
  lazymatch goal with
  | |- Quiet (mret _) => apply Quiet_ret
  | |- Quiet undefined => apply Quiet_undefined
  | |- Quiet (when_ _ _) => apply Quiet_when
  | |- Quiet (analyzerError _ _) => apply Quiet_analyzerError
  | |- Quiet getTypes => apply Quiet_getTypes
  | |- Quiet getReturnType => apply Quiet_getReturnType
  | |- Quiet (mbind _ _) =>
      apply Quiet_bind; [| let a := fresh "a" in intros a; try destruct a]
  | |- Quiet (match ?x with _ => _ end) => destruct x eqn:?
  | |- Quiet (let _ := _ in _) => cbv zeta
  end.

Ltac quiet :=
  unfold analyzerErrorOp, analyzerErrorMismatch, analyzerErrorDegree,
    analyzerErrorParamMismatch, analyzerErrorMember, analyzerErrorExpectedType,
    analyzerErrorExpected;
  repeat (cbv beta zeta; first [ quiet_step | solve [eauto] ]).

Ltac unfold_errors :=
  unfold analyzerErrorOp, analyzerErrorMismatch, analyzerErrorDegree,
    analyzerErrorParamMismatch, analyzerErrorMember, analyzerErrorExpectedType,
    analyzerErrorExpected, analyzerError in *.

(** Replaying, on the node a run has left, the steps found by [run_inv];
    [atom] closes the steps that are calls. *)
Ltac settle_with atom :=
  proj; cbv beta iota zeta;
  lazymatch goal with
  | |- mret _ _ = _ => reflexivity
  | |- mbind _ _ _ = _ =>
      eapply bind_intro; [ settle_with atom | settle_with atom ]
  | |- (match _ with _ => _ end) _ = _ =>
      progress
        (repeat match goal with
                | H : ?y = _ |- context [?y] =>
                    tryif is_var y then fail else rewrite H
                end);
      settle_with atom
  | |- Some _ = Some _ => reflexivity
  | |- _ =>
      first
        [ eassumption
        | match goal with
          | IH : ∀ x, _ = Some x → Settled _ x |- _ =>
              eapply IH; [reflexivity | eassumption]
          | F : Forall _ (_ :: _) |- _ =>
              let F' := fresh in
              pose proof (Forall_inv F) as F'; cbv beta in F';
              eapply F'; eassumption
          end
        | atom ]
  end.

(** ** The value analyzer *)

Section ValueTheory.
Variable syms : gmap symRef sym.t.
Variable typeToStr : type → string → string.

Local Abbreviation value := (analyzerValue syms typeToStr).

Lemma when_true (m : run unit) w : when_ true m w = m w.
Proof. reflexivity. Qed.

Lemma when_false (m : run unit) w : when_ false m w = Some (tt, w).
Proof. reflexivity. Qed.

Lemma analyzerErrorOp_emit op desc Operand DT w :
  analyzerErrorOp typeToStr op desc Operand DT w =
    Some (tt, emit w [opLine typeToStr op desc Operand DT]).
Proof. apply analyzerError_emit. Qed.


Lemma analyzerErrorDegree_emit Node thing expected found where_ w :
  analyzerErrorDegree Node thing expected found where_ w =
    Some (tt, emit w [degreeLine Node thing expected found where_]).
Proof. apply analyzerError_emit. Qed.

Lemma analyzerErrorExpectedType_emit Node where_ Expected Found w :
  analyzerErrorExpectedType typeToStr Node where_ Expected Found w =
    Some (tt, emit w [expectedTypeLine typeToStr Node where_ Expected Found]).
Proof. apply analyzerError_emit. Qed.

(** How [analyzerValue] dispatches a comma node. *)
Lemma analyzerValue_comma Node :
  class Node = astBOP → o Node = "," →
  value Node = analyzerCommaBOP syms typeToStr value Node.
Proof.
  intros Hc Ho. destruct Node. proj. subst. reflexivity.
Qed.

(** C8. A comma node takes the type of its right-hand side.  An
    [Invalid] right-hand side passes with no diagnostic and an [Invalid]
    result; a right-hand side that is not void passes and the node gets a
    copy of its type; a void one draws one "requires non-void"
    diagnostic and the node is typed [Invalid]. *)
Theorem analyzerCommaBOP_rhs Node rn R rn' w w1 :
  class Node = astBOP → o Node = "," →
  r Node = Some rn →
  value rn w = Some (R, rn', w1) →
  (typeIsInvalid R = true →
     value Node w = Some (typeInvalid, setDt (setR Node rn') typeInvalid, w1))
  ∧ (typeIsVoid syms R = false →
     value Node w =
       Some (typeDeepDuplicate R,
             setDt (setR Node rn') (typeDeepDuplicate R), w1))
  ∧ (typeIsInvalid R = false → typeIsVoid syms R = true →
     value Node w =
       Some (typeInvalid, setDt (setR Node rn') typeInvalid,
             emit w1 [opLine typeToStr "," "non-void" rn' R])).
Proof.
  intros Hc Ho Hr Hv.
  rewrite (analyzerValue_comma Node Hc Ho).
  unfold analyzerCommaBOP. rewrite Hr.
  repeat split.
  - intros HI. eapply bind_intro; [exact Hv|]. cbv beta iota zeta.
    rewrite HI, orb_true_r. destruct R; try discriminate. reflexivity.
  - intros HV. eapply bind_intro; [exact Hv|]. cbv beta iota zeta.
    rewrite HV. reflexivity.
  - intros HI HV. eapply bind_intro; [exact Hv|]. cbv beta iota zeta.
    rewrite HI, HV. cbn [negb orb]. proj. rewrite Ho.
    eapply bind_intro; [apply analyzerErrorOp_emit|]. reflexivity.
Qed.

Lemma isOrdinalBOP_cases op :
  isOrdinalBOP op = true → op = ">" ∨ op = "<" ∨ op = ">=" ∨ op = "<=".
Proof.
  unfold isOrdinalBOP, streq. rewrite !orb_true_iff, !String.eqb_eq. tauto.
Qed.

Lemma isMemberBOP_cases op : isMemberBOP op = true → op = "." ∨ op = "->".
Proof.
  unfold isMemberBOP, streq. rewrite !orb_true_iff, !String.eqb_eq. tauto.
Qed.

(** How [analyzerValue] dispatches the other nodes the claims speak of. *)
Lemma analyzerValue_ordinal Node :
  class Node = astBOP → isOrdinalBOP (o Node) = true →
  value Node = analyzerComparisonBOP syms typeToStr value Node.
Proof.
  intros Hc Ho. destruct Node. proj. subst.
  destruct (isOrdinalBOP_cases _ Ho) as [->|[->|[->| ->]]]; reflexivity.
Qed.


Lemma analyzerValue_call Node :
  class Node = astCall → value Node = analyzerCall syms typeToStr value Node.
Proof. intros Hc. destruct Node. proj. subst. reflexivity. Qed.

(** C2.  At a call node whose callee is callable, the type given to the
    node is the return type derived from the called symbol's type,
    whatever the argument count and whatever the argument types: when the
    count differs from the parameter count the run ends with that type and
    one degree diagnostic, and every defined run of the node ends with
    that type. *)
Theorem analyzerCall_result_type Node ln L ln' w w1 s Sym sdt params :
  class Node = astCall →
  l Node = Some ln → value ln w = Some (L, ln', w1) →
  typeIsCallable L = true →
  symbol Node = Some s → syms !! s = Some Sym → sym.dt Sym = Some sdt →
  (if typeIsPtr L then ty.base L ≫= ty.params else ty.params L) = Some params →
  (params ≠ children Node →
     value Node w =
       Some (typeDeepDuplicate (typeDeriveReturn sdt),
             setDt (setL Node ln') (typeDeepDuplicate (typeDeriveReturn sdt)),
             emit w1 [degreeLine
                        (setDt (setL Node ln')
                               (typeDeepDuplicate (typeDeriveReturn sdt)))
                        "parameters" params (children Node) (sym.ident Sym)]))
  ∧ (∀ T Node' w', value Node w = Some (T, Node', w') →
       T = typeDeepDuplicate (typeDeriveReturn sdt)
       ∧ dt Node' = Some (typeDeepDuplicate (typeDeriveReturn sdt))).
Proof.
  intros Hc Hl HL Hcall Hs HSym Hdt Hparams.
  rewrite (analyzerValue_call Node Hc). unfold analyzerCall. rewrite Hl.
  split.
  - intros Hne. eapply bind_intro; [exact HL|]. cbv beta iota zeta. proj.
    rewrite Hcall, Hs, HSym, Hdt, Hparams. cbn [negb].
    rewrite bool_decide_eq_false_2 by exact Hne. cbn [negb].
    eapply bind_intro; [apply analyzerErrorDegree_emit|]. reflexivity.
  - intros T Node' w' H.
    apply bind_Some in H as ([L0 ln0] & w0 & E & H).
    rewrite HL in E. injection E as <- <- <-.
    cbv beta iota zeta in H. proj.
    rewrite Hcall, Hs, HSym, Hdt, Hparams in H. cbn [negb] in H.
    destruct (negb (bool_decide (params = children Node))).
    + run_inv H. proj. done.
    + run_inv H. proj. done.
Qed.

(** *** The value analyzer only reports *)

Lemma Quiet_analyzerCallParams (valueOf : valueFn) Node cs :
  Forall (λ c, Quiet (valueOf c)) cs →
  ∀ ps n, Quiet (analyzerCallParams syms typeToStr valueOf Node cs ps n).
Proof.
  induction 1 as [|c cs Hc Hcs IH]; intros ps n; cbn [analyzerCallParams].
  - destruct ps; apply Quiet_ret.
  - destruct ps as [|cp ps]; [apply Quiet_ret|]. quiet.
Qed.

Lemma analyzerValue_unfold Node :
  value Node =
    match class Node with
    | astBOP =>
        if isNumericBOP (o Node) || isAssignmentBOP (o Node) then
          analyzerBOP syms typeToStr value Node
        else if isOrdinalBOP (o Node) || isEqualityBOP (o Node) then
          analyzerComparisonBOP syms typeToStr value Node
        else if isMemberBOP (o Node) then
          analyzerMemberBOP syms typeToStr value Node
        else if isCommaBOP (o Node) then
          analyzerCommaBOP syms typeToStr value Node
        else
          mret (typeInvalid, setDt Node typeInvalid)
    | astUOP => analyzerUOP syms typeToStr value Node
    | astTOP => analyzerTernary syms typeToStr value Node
    | astIndex => analyzerIndex syms typeToStr value Node
    | astCall => analyzerCall syms typeToStr value Node
    | astLiteral =>
        if bool_decide (litClass Node = literalArray) then
          analyzerArrayLiteral value Node
        else
          analyzerLiteral syms Node
    | astInvalid => mret (typeInvalid, setDt Node typeInvalid)
    | _ => mret (typeInvalid, setDt Node typeInvalid)
    end.
Proof. destruct Node as [[] ? ? ? ? ? ? ? ? ? ?]; reflexivity. Qed.

Theorem Quiet_analyzerValue Node : Quiet (value Node).
Proof.
  induction Node as [Node IHc IHl IHr] using ast_ind.
  rewrite analyzerValue_unfold.
  destruct (class Node).
  all: unfold analyzerBOP, analyzerComparisonBOP, analyzerMemberBOP,
    analyzerCommaBOP, analyzerUOP, analyzerTernary, analyzerIndex,
    analyzerCall, analyzerLiteral, analyzerArrayLiteral.
  all: try (apply Quiet_ret).
  all: quiet.
  all: try (apply Quiet_analyzerCallParams; proj; assumption).
  all: match goal with
       | F : Forall _ (_ :: _) |- _ => inversion F; assumption
       end.
Qed.

(** *** Analyzing an analyzed node again *)

Lemma Settled_analyzerCallParams N1 N2 cs :
  symbol N1 = symbol N2 → location N1 = location N2 →
  Forall (Settled value) cs →
  ∀ ps n w cs' w',
    analyzerCallParams syms typeToStr value N1 cs ps n w = Some (cs', w') →
    analyzerCallParams syms typeToStr value N2 cs' ps n w = Some (cs', w').
Proof.
  intros Hsym Hloc. induction 1 as [|c cs Hc Hcs IH]; intros ps n w cs' w' H.
  - cbn [analyzerCallParams] in *. destruct ps; run_inv H; reflexivity.
  - cbn [analyzerCallParams] in H. destruct ps as [|cp ps].
    + run_inv H. reflexivity.
    + unfold_errors. rewrite Hsym, Hloc in H. run_inv H.
      all: cbn [analyzerCallParams]; unfold_errors.
      all: eapply bind_intro; [eapply Hc; eassumption|].
      all: settle_with ltac:(eapply IH; eassumption).
Qed.

Theorem Settled_analyzerValue Node : Settled value Node.
Proof.
  induction Node as [Node IHc IHl IHr] using ast_ind.
  intros w T Node' w' H.
  rewrite analyzerValue_unfold in H.
  destruct (class Node) eqn:Hclass.
  all: unfold analyzerBOP, analyzerComparisonBOP, analyzerMemberBOP,
    analyzerCommaBOP, analyzerUOP, analyzerTernary, analyzerIndex,
    analyzerCall, analyzerLiteral, analyzerArrayLiteral in H.
  all: unfold_errors.
  all: run_inv H.
  all: rewrite analyzerValue_unfold; proj; rewrite Hclass.
  all: unfold analyzerBOP, analyzerComparisonBOP, analyzerMemberBOP,
    analyzerCommaBOP, analyzerUOP, analyzerTernary, analyzerIndex,
    analyzerCall, analyzerLiteral, analyzerArrayLiteral.
  all: unfold_errors.
  all: settle_with
         ltac:(eapply Settled_analyzerCallParams; [| | | eassumption];
               [reflexivity | reflexivity | eassumption]).
Qed.

(** *** The type of a node after analysis *)



End ValueTheory.

(** *** Comparisons and member accesses, whatever the operands *)


Section OperandTheory.
Variable syms : gmap symRef sym.t.
Variable typeToStr : type → string → string.

Local Abbreviation value := (analyzerValue syms typeToStr).

(** C3, as amended.  An ordinal comparison node, its operands analyzed to
    [L] and [R], whatever they are: unless both are ordinal one "requires
    comparable type" diagnostic is drawn, at the first operand that is
    not; when [L] and [R] are compatible the node's type is
    [typeDeriveFromTwo] of them, and when they are not a type-mismatch
    diagnostic follows and the node is typed [Invalid].  The derived type
    is not always numeric: it is the pointer when the left operand is a
    pointer, or the right one is and the left is not; for two numeric
    basic types it is the one of wider rank. *)
Theorem analyzerComparisonBOP_ordinal Node ln rn L R ln' rn' w w1 w2 :
  class Node = astBOP → isOrdinalBOP (o Node) = true →
  l Node = Some ln → value ln w = Some (L, ln', w1) →
  r Node = Some rn → value rn w1 = Some (R, rn', w2) →
  let DT := if typeIsCompatible syms L R then typeDeriveFromTwo syms L R
            else typeInvalid in
  value Node w =
    Some (DT, setDt (setR (setL Node ln') rn') DT,
          emit w2 (ordinalLines syms typeToStr Node ln' rn' L R))
  ∧ (typeIsOrdinal syms L && typeIsOrdinal syms R = false →
     head (ordinalLines syms typeToStr Node ln' rn' L R)
       = Some (opLine typeToStr (o Node) "comparable type"
                 (if typeIsOrdinal syms L then rn' else ln')
                 (if typeIsOrdinal syms L then R else L)))
  ∧ (typeIsOrdinal syms L && typeIsOrdinal syms R = true →
     ordinalLines syms typeToStr Node ln' rn' L R
       = if typeIsCompatible syms L R then []
         else [analyzerLine Node
                 ("type mismatch between " +:+ typeToStr L "" +:+ " and "
                    +:+ typeToStr R "" +:+ " for " +:+ o Node)])
  ∧ (typeIsCompatible syms L R = true →
     match L, R with
     | typePtr _, _ => DT = L
     | typeBasic a, typeBasic b =>
         numericSym syms a && numericSym syms b = true →
         DT = (if numericRank syms a <? numericRank syms b then R else L)
         ∧ typeIsNumeric syms DT = true
     | _, typePtr _ => DT = R
     | _, _ => True
     end).
Proof.
  intros Hc Ho Hl HL Hr HR DT. subst DT.
  split; [|split; [|split]].
  - rewrite (analyzerValue_ordinal syms typeToStr Node Hc Ho).
    unfold analyzerComparisonBOP. rewrite Hl.
    eapply bind_intro; [exact HL|]. cbv beta iota zeta. rewrite Hr.
    eapply bind_intro; [exact HR|]. cbv beta iota zeta. proj.
    rewrite Ho. unfold ordinalLines.
    eapply bind_intro.
    { instantiate (1 := emit w2
        (if negb (typeIsOrdinal syms L) || negb (typeIsOrdinal syms R)
         then [opLine typeToStr (o Node) "comparable type"
                 (if negb (typeIsOrdinal syms L) then ln' else rn')
                 (if negb (typeIsOrdinal syms L) then L else R)]
         else [])).
      instantiate (1 := tt).
      destruct (negb (typeIsOrdinal syms L) || negb (typeIsOrdinal syms R));
        [apply analyzerErrorOp_emit|]. by rewrite emit_nil. }
    destruct (typeIsCompatible syms L R).
    + rewrite app_nil_r. reflexivity.
    + eapply bind_intro;
        [unfold analyzerErrorMismatch; apply analyzerError_emit|].
      rewrite emit_emit. reflexivity.
  - unfold ordinalLines. intros Hord.
    destruct (typeIsOrdinal syms L), (typeIsOrdinal syms R);
      cbn [negb orb andb] in *; try discriminate; reflexivity.
  - unfold ordinalLines. intros Hord.
    apply andb_true_iff in Hord as [-> ->]. reflexivity.
  - intros ->. unfold typeDeriveFromTwo, typeDeepDuplicate.
    destruct L as [a| | | |], R as [b| | | |]; try exact I; try reflexivity.
    intros Hnum. rewrite Hnum. split; [reflexivity|].
    apply andb_true_iff in Hnum as [Ha Hb].
    destruct (numericRank syms a <? numericRank syms b); cbn; assumption.
Qed.

End OperandTheory.

(** Computations that report and may set the return type *)

Lemma emitRet_nil (w : world) :
  emitRet w [] (returnType (ctx w)) = w.
Proof. rewrite emitRet_emit. apply emit_nil. Qed.

Lemma Quiet_Uniform {A} (m : run A) : Quiet m → Uniform m.
Proof.
  intros Hm w a w' H. destruct (Hm _ _ _ H) as (ds & -> & Hm2).
  exists ds, (returnType (ctx w)). split; [reflexivity|].
  intros w2 Hag. rewrite (Hm2 w2 Hag).
  destruct Hag as (_ & _ & ->). reflexivity.
Qed.

Lemma Uniform_ret {A} (a : A) : Uniform (mret a).
Proof. apply Quiet_Uniform, Quiet_ret. Qed.

Lemma Uniform_undefined {A} : Uniform (@undefined A).
Proof. intros w a w' [=]. Qed.

Lemma Uniform_bind {A B} (m : run A) (f : A → run B) :
  Uniform m → (∀ a, Uniform (f a)) → Uniform (m ≫= f).
Proof.
  intros Hm Hf w b w' H.
  apply bind_Some in H as (a & w1 & E & H).
  destruct (Hm _ _ _ E) as (ds1 & rt1 & -> & Hm2).
  destruct (Hf a _ _ _ H) as (ds2 & rt2 & -> & Hf2).
  exists (ds1 ++ ds2), rt2. split; [apply emitRet_emitRet|].
  intros w2 Hag. eapply bind_intro; [apply Hm2, Hag|].
  rewrite <- (emitRet_emitRet w2 ds1 ds2 rt1 rt2).
  apply Hf2, agree_emitRet, Hag.
Qed.

Lemma Uniform_setReturnType t : Uniform (setReturnType t).
Proof.
  intros w a w' [= <- <-]. exists [], t. split.
  - unfold emitRet. cbn [length linesText]. rewrite app_nil_s.
    do 2 f_equal. lia.
  - intros w2 (Hty & Hw & _). unfold setReturnType, emitRet.
    cbn [length linesText]. rewrite app_nil_s. do 4 f_equal. lia.
Qed.

Lemma Uniform_when b (m : run unit) : Uniform m → Uniform (when_ b m).
Proof. destruct b; [done|]. intros _. apply Uniform_ret. Qed.

Ltac uniform_step :=
  lazymatch goal with
  | |- Uniform (mret _) => apply Uniform_ret
  | |- Uniform undefined => apply Uniform_undefined
  | |- Uniform (when_ _ _) => apply Uniform_when
  | |- Uniform (analyzerError _ _) => apply Quiet_Uniform, Quiet_analyzerError
  | |- Uniform getReturnType => apply Quiet_Uniform, Quiet_getReturnType
  | |- Uniform (setReturnType _) => apply Uniform_setReturnType
  | |- Uniform (analyzerValue _ _ _) =>
      apply Quiet_Uniform, Quiet_analyzerValue
  | |- Uniform (mbind _ _) =>
      apply Uniform_bind; [| let a := fresh "a" in intros a; try destruct a]
  | |- Uniform (match ?x with _ => _ end) => destruct x eqn:?
  | |- Uniform (let _ := _ in _) => cbv zeta
  end.

Ltac uniform :=
  unfold analyzerErrorOp, analyzerErrorMismatch, analyzerErrorDegree,
    analyzerErrorParamMismatch, analyzerErrorMember, analyzerErrorExpectedType,
    analyzerErrorExpected;
  repeat (cbv beta zeta; first [ uniform_step | solve [eauto] ]).

(** ** The statement analyzer *)

Section StatementTheory.
Variable syms : gmap symRef sym.t.
Variable typeToStr : type → string → string.
Variable analyzerDecl : ast → run ast.
Variable analyzerDeclStruct : ast → run ast.

Local Abbreviation value := (analyzerValue syms typeToStr).
Local Abbreviation node :=
  (analyzerNode syms typeToStr analyzerDecl analyzerDeclStruct).

Lemma analyzerNode_unfold Node :
  node Node =
    match class Node with
    | astEmpty => mret Node
    | astInvalid => mret Node
    | astFnImpl => analyzerFnImpl syms analyzerDecl node Node
    | astDeclStruct => analyzerDeclStruct Node
    | astDecl => analyzerDecl Node
    | astCode => analyzerCode node Node
    | astBranch => analyzerBranch syms typeToStr node Node
    | astLoop => analyzerLoop syms typeToStr node Node
    | astIter => analyzerIter syms typeToStr node Node
    | astReturn => analyzerReturn syms typeToStr Node
    | astBreak => mret Node
    | c => if astIsValueClass c then '(_, Node) ← value Node; mret Node
           else mret Node
    end.
Proof. destruct Node as [[] ? ? ? ? ? ? ? ? ? ?]; reflexivity. Qed.

Lemma analyzerReturn_absent Node w ret :
  class Node = astReturn → r Node = None →
  returnType (ctx w) = Some ret →
  node Node w = Some (Node, w).
Proof.
  intros Hc Hr Hret. rewrite analyzerNode_unfold, Hc.
  unfold analyzerReturn. rewrite Hr.
  eapply bind_intro; [reflexivity|]. cbv beta iota zeta.
  eapply bind_intro; [reflexivity|]. cbv beta iota zeta.
  rewrite Hret, Hr. reflexivity.
Qed.

(** C10.  A return without an expression, inside a function, draws no
    diagnostic whatever the function returns: the absent expression is
    typed [Invalid], which is compatible with every return type, and the
    run leaves the node and the world as they were. *)
Theorem analyzerReturn_no_expression Node w ret :
  class Node = astReturn → r Node = None →
  returnType (ctx w) = Some ret →
  typeIsCompatible syms typeInvalid ret = true
  ∧ node Node w = Some (Node, w).
Proof.
  intros Hc Hr Hret. split; [reflexivity|].
  by eapply analyzerReturn_absent.
Qed.

(** C7.  A return statement inside a function that returns [ret]: the
    type of the returned expression, or [Invalid] when there is none, is
    compared with [ret] by [typeIsCompatible]; one "return expected"
    diagnostic is drawn, at the expression, exactly when they are not
    compatible. *)
Theorem analyzerReturn_compares Node w ret :
  class Node = astReturn → returnType (ctx w) = Some ret →
  (∀ rn R rn' w1,
     r Node = Some rn → value rn w = Some (R, rn', w1) →
     node Node w =
       Some (setR Node rn',
             if typeIsCompatible syms R ret then w1
             else emit w1 [expectedTypeLine typeToStr rn' "return" ret R]))
  ∧ (r Node = None →
     typeIsCompatible syms typeInvalid ret = true
     ∧ node Node w = Some (Node, w)).
Proof.
  intros Hc Hret. split.
  - intros rn R rn' w1 Hr HR. rewrite analyzerNode_unfold, Hc.
    unfold analyzerReturn. rewrite Hr.
    eapply bind_intro; [eapply bind_intro; [exact HR|reflexivity]|].
    cbv beta iota zeta.
    eapply bind_intro; [reflexivity|]. cbv beta iota zeta.
    rewrite (Quiet_returnType _ _ _ _ (Quiet_analyzerValue _ _ rn) HR), Hret.
    destruct (typeIsCompatible syms R ret); cbn [negb]; [reflexivity|].
    proj. eapply bind_intro; [apply analyzerErrorExpectedType_emit|].
    reflexivity.
  - intros Hr. split; [reflexivity|].
    by eapply analyzerReturn_absent.
Qed.

(** What is asked of the two declaration analyzers: they report and may
    set the return type but read neither the error count nor the output,
    they leave the class of the node alone, and analyzing their result
    again reproduces it. *)
Hypothesis analyzerDecl_uniform : ∀ Node, Uniform (analyzerDecl Node).
Hypothesis analyzerDecl_class : ∀ Node w Node' w',
  analyzerDecl Node w = Some (Node', w') → class Node' = class Node.
Hypothesis analyzerDecl_settled : ∀ Node, SettledNode analyzerDecl Node.
Hypothesis analyzerDeclStruct_uniform :
  ∀ Node, Uniform (analyzerDeclStruct Node).
Hypothesis analyzerDeclStruct_class : ∀ Node w Node' w',
  analyzerDeclStruct Node w = Some (Node', w') → class Node' = class Node.
Hypothesis analyzerDeclStruct_settled :
  ∀ Node, SettledNode analyzerDeclStruct Node.

Lemma Uniform_analyzerNodes (nodeOf : nodeFn) cs :
  Forall (λ c, Uniform (nodeOf c)) cs → Uniform (analyzerNodes nodeOf cs).
Proof.
  induction 1 as [|c cs Hc Hcs IH]; cbn [analyzerNodes]; uniform.
Qed.

Lemma Uniform_analyzerNode Node : Uniform (node Node).
Proof.
  induction Node as [Node IHc IHl IHr] using ast_ind.
  rewrite analyzerNode_unfold.
  destruct (class Node).
  all: unfold analyzerFnImpl, analyzerCode, analyzerBranch, analyzerLoop,
    analyzerIter, analyzerReturn, astIsValueClass.
  all: try (apply Uniform_ret).
  all: uniform.
  all: try (apply Uniform_analyzerNodes; assumption).
  all: try match goal with
       | F : Forall _ (_ :: _) |- _ => inversion F; assumption
       end.
Qed.


Lemma analyzerValue_class Node w T Node' w' :
  value Node w = Some (T, Node', w') → class Node' = class Node.
Proof.
  intros H. rewrite analyzerValue_unfold in H.
  destruct (class Node) eqn:Hclass.
  all: unfold analyzerBOP, analyzerComparisonBOP, analyzerMemberBOP,
    analyzerCommaBOP, analyzerUOP, analyzerTernary, analyzerIndex,
    analyzerCall, analyzerLiteral, analyzerArrayLiteral in H.
  all: run_inv H; proj; congruence.
Qed.

Lemma analyzerNode_class Node w Node' w' :
  node Node w = Some (Node', w') → class Node' = class Node.
Proof.
  intros H. rewrite analyzerNode_unfold in H.
  destruct (class Node) eqn:Hclass.
  all: try (eapply analyzerDecl_class in H; congruence).
  all: try (eapply analyzerDeclStruct_class in H; congruence).
  all: unfold analyzerFnImpl, analyzerCode, analyzerBranch, analyzerLoop,
    analyzerIter, analyzerReturn, astIsValueClass in H.
  all: run_inv H; proj; try congruence.
  all: match goal with
       | E : value _ _ = Some _ |- _ =>
           apply analyzerValue_class in E; congruence
       end.
Qed.

Lemma Settled_analyzerNodes (nodeOf : nodeFn) cs :
  Forall (SettledNode nodeOf) cs →
  ∀ w cs' w', analyzerNodes nodeOf cs w = Some (cs', w') →
              analyzerNodes nodeOf cs' w = Some (cs', w').
Proof.
  induction 1 as [|c cs Hc Hcs IH]; intros w cs' w' H;
    cbn [analyzerNodes] in H; run_inv H; [reflexivity|].
  cbn [analyzerNodes].
  eapply bind_intro; [eapply Hc; eassumption|]. cbv beta.
  eapply bind_intro; [eapply IH; eassumption|]. reflexivity.
Qed.

(** The classes of the nodes that the runs found by [run_inv] have left. *)
Ltac classes :=
  repeat match goal with
         | E : analyzerValue _ _ ?n _ = Some (_, ?n', _) |- _ =>
             lazymatch goal with
             | _ : class n' = class n |- _ => fail
             | _ => pose proof (analyzerValue_class _ _ _ _ _ E)
             end
         | E : analyzerNode _ _ _ _ ?n _ = Some (?n', _) |- _ =>
             lazymatch goal with
             | _ : class n' = class n |- _ => fail
             | _ => pose proof (analyzerNode_class _ _ _ _ E)
             end
         end.

Lemma Settled_analyzerNode Node : SettledNode node Node.
Proof.
  induction Node as [Node IHc IHl IHr] using ast_ind.
  intros w Node' w' H.
  pose proof (analyzerNode_class _ _ _ _ H) as Hpres.
  rewrite analyzerNode_unfold in H. rewrite analyzerNode_unfold, Hpres.
  destruct (class Node) eqn:Hclass.
  all: try (eapply analyzerDecl_settled; exact H).
  all: try (eapply analyzerDeclStruct_settled; exact H).
  all: unfold analyzerFnImpl, analyzerCode, analyzerBranch, analyzerLoop,
    analyzerIter, analyzerReturn, astIsValueClass in H.
  all: unfold_errors.
  all: run_inv H.
  all: classes.
  all: unfold analyzerFnImpl, analyzerCode, analyzerBranch, analyzerLoop,
    analyzerIter, analyzerReturn, astIsValueClass.
  all: unfold_errors.
  all: try solve [settle_with
         ltac:(first
           [ eapply Settled_analyzerValue; eassumption
           | eapply analyzerDecl_settled; eassumption
           | eapply Settled_analyzerNodes; eassumption
           | match goal with
             | IH : ∀ x, _ = Some x → SettledNode _ x |- _ =>
                 eapply IH; [reflexivity | eassumption]
             end ])].
Qed.

Lemma Uniform_analyzerModule Node : Uniform (analyzerModule node Node).
Proof.
  unfold analyzerModule. uniform. apply Uniform_analyzerNodes.
  apply Forall_forall. intros c _. apply Uniform_analyzerNode.
Qed.

Lemma Settled_analyzerModule Node : SettledNode (analyzerModule node) Node.
Proof.
  intros w Node' w' H. unfold analyzerModule in *. run_inv H. proj.
  eapply bind_intro; [|reflexivity].
  eapply Settled_analyzerNodes; [|eassumption].
  apply Forall_forall. intros c _. apply Settled_analyzerNode.
Qed.

(** C5.  Running [analyzer] on the tree that a run of [analyzer] has left
    gives back that same tree, the same error count, and prints the same
    text once more: the types on the nodes are those of a single run and
    the two runs together report twice the errors of one. *)
Theorem analyzer_twice Tree Types out res Tree' out' :
  analyzer syms typeToStr analyzerDecl analyzerDeclStruct Tree Types out
    = Some (res, Tree', out') →
  ∃ text,
    out' = out +:+ text
    ∧ analyzer syms typeToStr analyzerDecl analyzerDeclStruct Tree' Types out'
      = Some (res, Tree', out' +:+ text).
Proof.
  unfold analyzer. intros H.
  destruct (analyzerModule node Tree (mkWorld (analyzerInit Types) out))
    as [[T1 w1]|] eqn:E; [|discriminate].
  injection H as <- <- <-.
  apply Settled_analyzerModule in E.
  destruct (Uniform_analyzerModule _ _ _ _ E) as (ds & rt & -> & Hany).
  exists (linesText ds). split; [reflexivity|].
  rewrite (Hany (mkWorld (analyzerInit Types)
                         (stdout (emitRet (mkWorld (analyzerInit Types) out)
                                          ds rt)))).
  - reflexivity.
  - repeat split.
Qed.
End StatementTheory.

(** ** The types that a walk leaves on the tree *)

Section WalkTheory.
Variable syms : gmap symRef sym.t.
Variable typeToStr : type → string → string.
Variable analyzerDecl : ast → run ast.
Variable analyzerDeclStruct : ast → run ast.

Local Abbreviation value := (analyzerValue syms typeToStr).
Local Abbreviation node :=
  (analyzerNode syms typeToStr analyzerDecl analyzerDeclStruct).

(** What is asked of the two declaration analyzers here: that they leave
    the class of the node alone. *)
Hypothesis analyzerDecl_keeps_class : ∀ Node w Node' w',
  analyzerDecl Node w = Some (Node', w') → class Node' = class Node.
Hypothesis analyzerDeclStruct_keeps_class : ∀ Node w Node' w',
  analyzerDeclStruct Node w = Some (Node', w') → class Node' = class Node.



End WalkTheory.

(** ** Token matching *)

Section TokenTheory.
Variable lexerNext : Parser.lexerCtx → Parser.lexerCtx.

(** [error] writes one line that ends in a full stop, counts it, and reads
    one character. *)
Lemma error_line msg w :
  Parser.error msg w =
    Parser.mkWorld
      (Parser.mkParser (Parser.lexer (Parser.ctx w))
                       (Parser.scope (Parser.ctx w))
                       (Parser.location (Parser.ctx w))
                       (Parser.errors (Parser.ctx w) + 1))
      (Parser.stdout w
         +:+ Parser.errorLine (Parser.location (Parser.ctx w)) msg)
      (match Parser.stdin w with String _ rest => rest | EmptyString => "" end).
Proof.
  unfold Parser.error, Parser.getchar, Parser.countError, Parser.printf,
    Parser.errorLine.
  cbn [Parser.ctx Parser.stdout Parser.stdin Parser.lexer Parser.scope
       Parser.location Parser.errors].
  rewrite !app_assoc_s. reflexivity.
Qed.

(** C9.  A match that fails, by class or by text, writes and counts one
    "expected" diagnostic, advances the lexer by exactly one token and
    returns to its caller with the scope untouched. *)
Theorem tokenMatch_failed w :
  (∀ Match, Parser.token (Parser.lexer (Parser.ctx w)) ≠ Match →
     Parser.tokenMatchToken lexerNext Match w =
       Parser.afterFailedMatch lexerNext (Parser.tokenClassGetStr Match) w)
  ∧ (∀ Match, Parser.tokenIs Match w = false →
     Parser.tokenMatchStr lexerNext Match w =
       Parser.afterFailedMatch lexerNext ("'" +:+ Match +:+ "'") w).
Proof.
  split; intros Match Hne.
  - unfold Parser.tokenMatchToken.
    rewrite bool_decide_eq_false_2 by exact Hne.
    unfold Parser.errorExpected. cbv zeta. rewrite error_line. reflexivity.
  - unfold Parser.tokenMatchStr. rewrite Hne.
    unfold Parser.errorExpected. cbv zeta. rewrite error_line. reflexivity.
Qed.
End TokenTheory.

(** ** The sample program *)

Module SampleRuns.
Import Sample.

Local Abbreviation value := (analyzerValue syms typeToStr).
Local Abbreviation node := (analyzerNode syms typeToStr analyzerDecl analyzerDecl).


Lemma analyzerCall_result_type_witness :
  class f_1 = astCall
  ∧ l f_1 = Some (ident "f" 5 27)
  ∧ value (ident "f" 5 27) w0
    = Some (typeFunction int 2, setDt (ident "f" 5 27) (typeFunction int 2), w0)
  ∧ typeIsCallable (typeFunction int 2) = true
  ∧ 2 ≠ children f_1
  ∧ value f_1 w0
    = Some (int,
            setDt (setL f_1 (setDt (ident "f" 5 27) (typeFunction int 2))) int,
            emit w0 [degreeLine f_1 "parameters" 2 1 "f"])
  ∧ ∃ Node' w',
      value f_1_s w0 = Some (int, Node', w')
      ∧ stdout w'
        = "error(1:27): type mismatch at parameter 1 of f: "
            +:+ "expected int, found struct S" +:+ nl
      ∧ dt Node' = Some int.
Proof.
  assert (H1 : value (ident "f" 5 27) w0
    = Some (typeFunction int 2, setDt (ident "f" 5 27) (typeFunction int 2), w0))
    by (vm_compute; reflexivity).
  assert (H2 : 2 ≠ children f_1) by (vm_compute; discriminate).
  do 5 (split; [first [assumption | reflexivity]|]).
  split.
  - exact (proj1 (analyzerCall_result_type syms typeToStr f_1 _ _ _ w0 w0
                    5%positive _ _ 2 eq_refl eq_refl H1 eq_refl eq_refl
                    eq_refl eq_refl eq_refl) H2).
  - destruct (value f_1_s w0) as [[[T Node'] w']|] eqn:E;
      [|vm_compute in E; discriminate E].
    destruct (proj2 (analyzerCall_result_type syms typeToStr f_1_s _ _ _ w0 w0
                       5%positive _ _ 2 eq_refl eq_refl H1 eq_refl eq_refl
                       eq_refl eq_refl eq_refl) T Node' w' E) as [-> Hdt].
    vm_compute in E. injection E as <- <-.
    eexists _, _. split; [reflexivity|]. split; [reflexivity|].
    exact Hdt.
Defined.

(** C3, the claim as stated fails: comparing two [int*] with [<] is
    accepted, both types being ordinal and compatible, and the node is
    given the type [int*], which is not numeric. *)
Lemma pointer_comparison_not_numeric :
  typeIsOrdinal syms (typePtr int) = true
  ∧ typeIsCompatible syms (typePtr int) (typePtr int) = true
  ∧ (∃ Node', value p_lt_p w0 = Some (typePtr int, Node', w0)
              ∧ dt Node' = Some (typePtr int))
  ∧ typeIsNumeric syms (typePtr int) = false.
Proof.
  repeat split; try (vm_compute; reflexivity).
  eexists. split; vm_compute; reflexivity.
Qed.

Lemma analyzerComparisonBOP_ordinal_witness :
  class p_lt_p = astBOP ∧ isOrdinalBOP (o p_lt_p) = true
  ∧ value (ident "p" 12 1) w0
    = Some (typePtr int, setDt (ident "p" 12 1) (typePtr int), w0)
  ∧ value (ident "p" 12 5) w0
    = Some (typePtr int, setDt (ident "p" 12 5) (typePtr int), w0)
  ∧ typeIsCompatible syms (typePtr int) (typePtr int) = true
  ∧ value p_lt_p w0
    = Some (typePtr int,
            setDt (setR (setL p_lt_p (setDt (ident "p" 12 1) (typePtr int)))
                        (setDt (ident "p" 12 5) (typePtr int)))
                  (typePtr int),
            emit w0 [])
  ∧ typeDeriveFromTwo syms (typePtr int) (typePtr int) = typePtr int
  ∧ typeIsOrdinal syms (typeBasic 8) && typeIsOrdinal syms int = false
  ∧ value (ident "s" 10 1) w0
    = Some (typeBasic 8, setDt (ident "s" 10 1) (typeBasic 8), w0)
  ∧ value (intLit "1" 5) w0 = Some (int, setDt (intLit "1" 5) int, w0)
  ∧ value MoreSamples.s_lt_1 w0
    = Some (typeInvalid,
            setDt (setR (setL MoreSamples.s_lt_1
                           (setDt (ident "s" 10 1) (typeBasic 8)))
                        (setDt (intLit "1" 5) int))
                  typeInvalid,
            emit w0
              ["error(1:1): < requires comparable type, found struct S"
                 +:+ nl;
               "error(1:3): type mismatch between struct S and int for <"
                 +:+ nl])
  ∧ head (ordinalLines syms typeToStr MoreSamples.s_lt_1
            (setDt (ident "s" 10 1) (typeBasic 8)) (setDt (intLit "1" 5) int)
            (typeBasic 8) int)
    = Some ("error(1:1): < requires comparable type, found struct S" +:+ nl).
Proof.
  assert (H1 : value (ident "p" 12 1) w0
    = Some (typePtr int, setDt (ident "p" 12 1) (typePtr int), w0))
    by (vm_compute; reflexivity).
  assert (H2 : value (ident "p" 12 5) w0
    = Some (typePtr int, setDt (ident "p" 12 5) (typePtr int), w0))
    by (vm_compute; reflexivity).
  assert (H3 : typeIsCompatible syms (typePtr int) (typePtr int) = true)
    by (vm_compute; reflexivity).
  assert (H4 : typeIsOrdinal syms (typeBasic 8) && typeIsOrdinal syms int
               = false) by (vm_compute; reflexivity).
  assert (H5 : value (ident "s" 10 1) w0
    = Some (typeBasic 8, setDt (ident "s" 10 1) (typeBasic 8), w0))
    by (vm_compute; reflexivity).
  assert (H6 : value (intLit "1" 5) w0 = Some (int, setDt (intLit "1" 5) int, w0))
    by (vm_compute; reflexivity).
  pose proof (analyzerComparisonBOP_ordinal syms typeToStr p_lt_p
                _ _ _ _ _ _ w0 w0 w0 eq_refl eq_refl eq_refl H1 eq_refl H2)
    as (Hp & _ & _ & Hpd).
  pose proof (analyzerComparisonBOP_ordinal syms typeToStr MoreSamples.s_lt_1
                _ _ _ _ _ _ w0 w0 w0 eq_refl eq_refl eq_refl H5 eq_refl H6)
    as (Hs & Hsh & _ & _).
  do 5 (split; [first [assumption | reflexivity]|]).
  split; [exact Hp|]. split; [exact (Hpd H3)|].
  split; [exact H4|]. split; [exact H5|]. split; [exact H6|].
  split; [exact Hs|exact (Hsh H4)].
Defined.

(** C4, where the code departs from the claim: the line the analyzer
    writes for [f(1)] is counted once but ends without a full stop, while
    the parser's line for the same kind of event ends with one. *)
Theorem analyzer_line_lacks_full_stop :
  (∃ Node' w', value f_1 w0 = Some (int, Node', w')
               ∧ errors (ctx w') = 1
               ∧ stdout w'
                 = "error(1:27): 2 parameters expected, 1 given to f" +:+ nl)
  ∧ Parser.errors (Parser.ctx (Parser.tokenMatchStr lexerNext ";" atParen)) = 1
  ∧ Parser.stdout (Parser.tokenMatchStr lexerNext ";" atParen)
    = "error(1:7): expected ';', found ')'." +:+ nl.
Proof.
  split; [do 2 eexists|]; repeat split; vm_compute; reflexivity.
Qed.

Lemma sample_decl_uniform Node : Uniform (analyzerDecl Node).
Proof. apply Uniform_ret. Qed.

Lemma sample_decl_class Node w Node' w' :
  analyzerDecl Node w = Some (Node', w') → class Node' = class Node.
Proof. by intros [= <- <-]. Qed.

Lemma sample_decl_settled Node : SettledNode analyzerDecl Node.
Proof. by intros w Node' w' [= <- <-]. Qed.

Lemma analyzer_twice_witness :
  ∃ Tree' text,
    analyzer syms typeToStr analyzerDecl analyzerDecl module_h Types ""
      = Some (mkResult 1 0, Tree', text)
    ∧ text = "error(1:8): return expected int, found int()" +:+ nl
    ∧ analyzer syms typeToStr analyzerDecl analyzerDecl Tree' Types text
      = Some (mkResult 1 0, Tree', text +:+ text).
Proof.
  destruct (analyzer syms typeToStr analyzerDecl analyzerDecl module_h Types "")
    as [[[res Tree'] out']|] eqn:E; [|vm_compute in E; discriminate E].
  destruct (analyzer_twice syms typeToStr analyzerDecl analyzerDecl
              sample_decl_uniform sample_decl_class sample_decl_settled
              sample_decl_uniform sample_decl_class sample_decl_settled
              module_h Types "" res Tree' out' E) as (text & Hout & Hagain).
  vm_compute in E. injection E as <- <- <-.
  eexists _, _. split; [reflexivity|]. split; [reflexivity|].
  change ("" +:+ text) with text in Hout. subst text.
  exact Hagain.
Defined.



Lemma analyzerReturn_compares_witness :
  class return_g = astReturn ∧ returnType (ctx wInt) = Some int
  ∧ value (ident "g" 11 8) wInt
    = Some (typeFunction int 0, setDt (ident "g" 11 8) (typeFunction int 0),
            wInt)
  ∧ typeIsCompatible syms (typeFunction int 0) int = false
  ∧ node return_g wInt
    = Some (setR return_g (setDt (ident "g" 11 8) (typeFunction int 0)),
            emit wInt ["error(1:8): return expected int, found int()" +:+ nl]).
Proof.
  assert (H1 : value (ident "g" 11 8) wInt
    = Some (typeFunction int 0, setDt (ident "g" 11 8) (typeFunction int 0),
            wInt))
    by (vm_compute; reflexivity).
  do 4 (split; [first [assumption | reflexivity]|]).
  exact (proj1 (analyzerReturn_compares syms typeToStr analyzerDecl
                  analyzerDecl return_g wInt int eq_refl eq_refl)
               _ _ _ _ eq_refl H1).
Defined.

Lemma analyzerCommaBOP_rhs_witness :
  class one_comma_two = astBOP ∧ o one_comma_two = ","
  ∧ r one_comma_two = Some (intLit "2" 4)
  ∧ value (intLit "2" 4) w0 = Some (int, setDt (intLit "2" 4) int, w0)
  ∧ typeIsVoid syms int = false
  ∧ value one_comma_two w0
    = Some (int, setDt (setR one_comma_two (setDt (intLit "2" 4) int)) int, w0).
Proof.
  assert (H1 : value (intLit "2" 4) w0 = Some (int, setDt (intLit "2" 4) int, w0))
    by (vm_compute; reflexivity).
  assert (H2 : typeIsVoid syms int = false) by (vm_compute; reflexivity).
  do 5 (split; [first [assumption | reflexivity]|]).
  exact (proj1 (proj2 (analyzerCommaBOP_rhs syms typeToStr one_comma_two
                         _ _ _ w0 w0 eq_refl eq_refl eq_refl H1)) H2).
Defined.

Lemma tokenMatch_failed_witness :
  Parser.token (Parser.lexer (Parser.ctx atParen)) ≠ Parser.tokenIdent
  ∧ Parser.tokenIs ";" atParen = false
  ∧ Parser.tokenMatchToken lexerNext Parser.tokenIdent atParen
    = Parser.afterFailedMatch lexerNext "identifier" atParen
  ∧ Parser.tokenMatchStr lexerNext ";" atParen
    = Parser.afterFailedMatch lexerNext "';'" atParen
  ∧ Parser.buffer (Parser.lexer (Parser.ctx
                     (Parser.afterFailedMatch lexerNext "';'" atParen))) = ";".
Proof.
  assert (H1 : Parser.token (Parser.lexer (Parser.ctx atParen))
               ≠ Parser.tokenIdent) by (vm_compute; discriminate).
  assert (H2 : Parser.tokenIs ";" atParen = false) by (vm_compute; reflexivity).
  do 2 (split; [assumption|]).
  split; [exact (proj1 (tokenMatch_failed lexerNext atParen) _ H1)|].
  split; [exact (proj2 (tokenMatch_failed lexerNext atParen) _ H2)|].
  vm_compute; reflexivity.
Defined.

Lemma analyzerReturn_no_expression_witness :
  class return_nothing = astReturn ∧ r return_nothing = None
  ∧ returnType (ctx wInt) = Some int
  ∧ node return_nothing wInt = Some (return_nothing, wInt).
Proof.
  do 3 (split; [reflexivity|]).
  exact (proj2 (analyzerReturn_no_expression syms typeToStr analyzerDecl
                  analyzerDecl return_nothing wInt int
                  eq_refl eq_refl eq_refl)).
Defined.
End SampleRuns.

(** ** More on token matching *)

Section MatchTheory.
Variable lexerNext : Parser.lexerCtx → Parser.lexerCtx.
Variable atoi : string → Z.

Lemma tokenMatchCall_matches c w :
  Parser.matches c w = true →
  Parser.tokenMatchCall lexerNext c w = Parser.afterMatch lexerNext w.
Proof.
  destruct c as [Match|Match]; cbn [Parser.matches Parser.tokenMatchCall].
  - intros H. unfold Parser.tokenMatchToken. rewrite H. reflexivity.
  - intros H. unfold Parser.tokenMatchStr. rewrite H. reflexivity.
Qed.

Lemma tokenMatchCall_fails c w :
  Parser.matches c w = false →
  Parser.tokenMatchCall lexerNext c w
    = Parser.afterFailedMatch lexerNext (Parser.expectedText c) w.
Proof.
  destruct c as [Match|Match];
    cbn [Parser.matches Parser.tokenMatchCall Parser.expectedText]; intros H.
  - unfold Parser.tokenMatchToken. rewrite H.
    unfold Parser.errorExpected. cbv zeta. rewrite error_line. reflexivity.
  - unfold Parser.tokenMatchStr. rewrite H.
    unfold Parser.errorExpected. cbv zeta. rewrite error_line. reflexivity.
Qed.



(** X2.  A failed match leaves the recorded location where it was although
    the lexer has moved on.  Two failures in a row are therefore reported
    at one and the same line and column, the second naming the token that
    follows the first. *)
Theorem failed_matches_share_location c1 c2 w :
  Parser.matches c1 w = false →
  Parser.matches c2 (Parser.tokenMatchCall lexerNext c1 w) = false →
  Parser.location (Parser.ctx (Parser.tokenMatchCall lexerNext c1 w))
    = Parser.location (Parser.ctx w)
  ∧ Parser.stdout (Parser.tokenMatchCalls lexerNext [c1; c2] w)
    = Parser.stdout w
      +:+ Parser.errorLine (Parser.location (Parser.ctx w))
            ("expected " +:+ Parser.expectedText c1 +:+ ", found '"
               +:+ Parser.buffer (Parser.lexer (Parser.ctx w)) +:+ "'")
      +:+ Parser.errorLine (Parser.location (Parser.ctx w))
            ("expected " +:+ Parser.expectedText c2 +:+ ", found '"
               +:+ Parser.buffer (lexerNext (Parser.lexer (Parser.ctx w)))
               +:+ "'").
Proof.
  intros H1 H2. cbn [Parser.tokenMatchCalls].
  rewrite (tokenMatchCall_fails c2 _ H2).
  rewrite (tokenMatchCall_fails c1 w H1).
  split; [reflexivity|].
  unfold Parser.afterFailedMatch.
  cbn [Parser.ctx Parser.stdout Parser.location Parser.lexer].
  apply app_assoc_s.
Qed.

(** X3.  [tokenTryMatchStr] is [tokenMatchStr] without the complaint.  It
    answers whether the current token has the text asked for.  When it
    has, the two leave the same world; when it has not, [tokenTryMatchStr]
    leaves the world exactly as it was, the token still to be read, where
    [tokenMatchStr] reports and consumes the token.  In no case does
    [tokenTryMatchStr] report anything. *)
Theorem tokenTryMatchStr_quiet Match w :
  (Parser.tokenTryMatchStr lexerNext Match w).1 = Parser.tokenIs Match w
  ∧ (Parser.tokenIs Match w = true →
       (Parser.tokenTryMatchStr lexerNext Match w).2
         = Parser.tokenMatchStr lexerNext Match w)
  ∧ (Parser.tokenIs Match w = false →
       (Parser.tokenTryMatchStr lexerNext Match w).2 = w
       ∧ Parser.tokenMatchStr lexerNext Match w
         = Parser.afterFailedMatch lexerNext ("'" +:+ Match +:+ "'") w)
  ∧ Parser.errors (Parser.ctx (Parser.tokenTryMatchStr lexerNext Match w).2)
    = Parser.errors (Parser.ctx w)
  ∧ Parser.stdout (Parser.tokenTryMatchStr lexerNext Match w).2
    = Parser.stdout w.
Proof.
  pose proof (tokenMatchCall_fails (Parser.byStr Match) w) as Hfail.
  cbn [Parser.matches Parser.tokenMatchCall Parser.expectedText] in Hfail.
  unfold Parser.tokenTryMatchStr, Parser.tokenMatchStr in *.
  destruct (Parser.tokenIs Match w).
  - repeat split; done.
  - split; [reflexivity|]. split; [done|]. split; [|by split].
    intros _. split; [reflexivity|]. by apply Hfail.
Qed.

(** X4.  [tokenMatchIdent] and [tokenMatchInt] hand back the text, or the
    value, of the token they were called on even when it is not of the
    class asked for: the mismatch is reported, the token is consumed, and
    the caller still receives the offending token as its result. *)
Theorem tokenMatchIdent_returns_current w :
  (Parser.token (Parser.lexer (Parser.ctx w)) ≠ Parser.tokenIdent →
     Parser.tokenMatchIdent lexerNext w
       = (Parser.buffer (Parser.lexer (Parser.ctx w)),
          Parser.afterFailedMatch lexerNext "identifier" w))
  ∧ (Parser.token (Parser.lexer (Parser.ctx w)) = Parser.tokenIdent →
     Parser.tokenMatchIdent lexerNext w
       = (Parser.buffer (Parser.lexer (Parser.ctx w)),
          Parser.afterMatch lexerNext w))
  ∧ (Parser.token (Parser.lexer (Parser.ctx w)) ≠ Parser.tokenInt →
     Parser.tokenMatchInt lexerNext atoi w
       = (atoi (Parser.buffer (Parser.lexer (Parser.ctx w))),
          Parser.afterFailedMatch lexerNext "int" w))
  ∧ (Parser.token (Parser.lexer (Parser.ctx w)) = Parser.tokenInt →
     Parser.tokenMatchInt lexerNext atoi w
       = (atoi (Parser.buffer (Parser.lexer (Parser.ctx w))),
          Parser.afterMatch lexerNext w)).
Proof.
  unfold Parser.tokenMatchIdent, Parser.tokenMatchInt. cbv zeta.
  repeat split; intros H.
  - f_equal. apply (tokenMatchCall_fails (Parser.byClass Parser.tokenIdent)).
    by apply bool_decide_eq_false.
  - f_equal.
    apply (tokenMatchCall_matches (Parser.byClass Parser.tokenIdent)).
    by apply bool_decide_eq_true.
  - f_equal. apply (tokenMatchCall_fails (Parser.byClass Parser.tokenInt)).
    by apply bool_decide_eq_false.
  - f_equal. apply (tokenMatchCall_matches (Parser.byClass Parser.tokenInt)).
    by apply bool_decide_eq_true.
Qed.
End MatchTheory.


(** ** More on the value analyzer *)

Lemma isEqualityBOP_cases op : isEqualityBOP op = true → op = "==" ∨ op = "!=".
Proof.
  unfold isEqualityBOP, streq. rewrite !orb_true_iff, !String.eqb_eq. tauto.
Qed.

Lemma isCommaBOP_cases op : isCommaBOP op = true → op = ",".
Proof. unfold isCommaBOP, streq. by rewrite String.eqb_eq. Qed.

Lemma isAssignmentBOP_cases op :
  isAssignmentBOP op = true →
  op = "=" ∨ op = "+=" ∨ op = "-=" ∨ op = "*=" ∨ op = "/=" ∨ op = "%="
  ∨ op = "&=" ∨ op = "|=" ∨ op = "^=" ∨ op = "<<=" ∨ op = ">>=".
Proof.
  unfold isAssignmentBOP, streq. rewrite !orb_true_iff, !String.eqb_eq. tauto.
Qed.

(** X6.  The operator classes that [analyzerValue] dispatches on do not
    overlap, so the order of its tests does not matter: a comparison, a
    member access or a comma is never also numeric or an assignment, and
    no two of the three coincide.  Every assignment operator other than
    plain [=] is also a numeric operator, and plain [=] is not. *)
Theorem operator_classes op :
  (isOrdinalBOP op || isEqualityBOP op = true →
     isNumericBOP op || isAssignmentBOP op = false
     ∧ isMemberBOP op = false ∧ isCommaBOP op = false)
  ∧ (isMemberBOP op = true →
     isNumericBOP op || isAssignmentBOP op = false
     ∧ isOrdinalBOP op || isEqualityBOP op = false ∧ isCommaBOP op = false)
  ∧ (isCommaBOP op = true →
     isNumericBOP op || isAssignmentBOP op = false
     ∧ isOrdinalBOP op || isEqualityBOP op = false ∧ isMemberBOP op = false)
  ∧ (isAssignmentBOP op = true → op = "=" ∨ isNumericBOP op = true)
  ∧ isNumericBOP "=" = false.
Proof.
  split; [|split; [|split; [|split]]].
  - intros H. apply orb_true_iff in H as [H|H];
      [ apply isOrdinalBOP_cases in H as [->|[->|[->| ->]]]
      | apply isEqualityBOP_cases in H as [->| ->] ]; done.
  - intros H. apply isMemberBOP_cases in H as [->| ->]; done.
  - intros H. apply isCommaBOP_cases in H as ->. done.
  - intros H. apply isAssignmentBOP_cases in H.
    destruct H as [->|H]; [by left|right].
    repeat (destruct H as [->|H]; [reflexivity|]). subst. reflexivity.
  - reflexivity.
Qed.

Section MoreValueTheory.
Variable syms : gmap symRef sym.t.
Variable typeToStr : type → string → string.

Local Abbreviation value := (analyzerValue syms typeToStr).

(** X7.  A binary node whose operator is in none of the classes is typed
    [Invalid] without an error being reported or counted and without its
    operands being visited.  The logical operators are such operators. *)
Theorem analyzerValue_unclassed Node w :
  class Node = astBOP →
  (isNumericBOP (o Node) || isAssignmentBOP (o Node) = false
   ∧ isOrdinalBOP (o Node) || isEqualityBOP (o Node) = false
   ∧ isMemberBOP (o Node) = false ∧ isCommaBOP (o Node) = false)
  ∨ o Node = "&&" ∨ o Node = "||" →
  value Node w = Some (typeInvalid, setDt Node typeInvalid, w).
Proof.
  intros Hc H. rewrite analyzerValue_unfold, Hc.
  destruct H as [(H1 & H2 & H3 & H4)|[H|H]].
  - rewrite H1, H2, H3, H4. reflexivity.
  - rewrite H. reflexivity.
  - rewrite H. reflexivity.
Qed.

Lemma when_analyzerErrorOp b op desc Operand DT w :
  when_ b (analyzerErrorOp typeToStr op desc Operand DT) w
    = Some (tt, emit w (if b then [opLine typeToStr op desc Operand DT]
                        else [])).
Proof.
  destruct b; [apply analyzerErrorOp_emit|]. by rewrite emit_nil.
Qed.

(** X8.  A numeric or assignment operator node, its operands analyzed to
    [L] and [R]: it draws at most three diagnostics, one when the operator
    is numeric and an operand is not, one when it is an assignment and an
    operand is not assignable, one when the two types are not compatible.
    When they are compatible, an assignment takes the type of its
    right-hand side and any other operator the type derived from both;
    otherwise the node is typed [Invalid]. *)
Theorem analyzerBOP_result Node ln rn L R ln' rn' w w1 w2 :
  class Node = astBOP →
  isNumericBOP (o Node) || isAssignmentBOP (o Node) = true →
  l Node = Some ln → value ln w = Some (L, ln', w1) →
  r Node = Some rn → value rn w1 = Some (R, rn', w2) →
  let DT := if typeIsCompatible syms L R then
              if isAssignmentBOP (o Node) then typeDeriveFrom R
              else typeDeriveFromTwo syms L R
            else typeInvalid in
  value Node w =
    Some (DT, setDt (setR (setL Node ln') rn') DT,
          emit w2 (bopLines syms typeToStr Node ln' rn' L R))
  ∧ (length (bopLines syms typeToStr Node ln' rn' L R) ≤ 3)%nat.
Proof.
  intros Hc Ho Hl HL Hr HR DT. subst DT. split.
  - rewrite analyzerValue_unfold, Hc, Ho. unfold analyzerBOP. rewrite Hl.
    eapply bind_intro; [exact HL|]. cbv beta iota zeta. rewrite Hr.
    eapply bind_intro; [exact HR|]. cbv beta iota zeta. proj.
    eapply bind_intro; [apply when_analyzerErrorOp|]. cbv beta.
    eapply bind_intro; [apply when_analyzerErrorOp|]. cbv beta.
    rewrite emit_emit. unfold bopLines.
    destruct (typeIsCompatible syms L R).
    + rewrite app_nil_r. reflexivity.
    + eapply bind_intro;
        [unfold analyzerErrorMismatch; apply analyzerError_emit|].
      rewrite emit_emit, <- app_assoc. reflexivity.
  - unfold bopLines.
    destruct (isNumericBOP (o Node) && _), (isAssignmentBOP (o Node) && _),
      (typeIsCompatible syms L R); cbn; lia.
Qed.

(** X9.  A unary operator node, its operand analyzed to [R].  The
    operand of [&], [++] and [--] is never checked to be an lvalue: [&]
    gives a pointer to [R] without a diagnostic whatever the operand is,
    and [++] and [--] accept any numeric operand.  The numeric operators
    draw one diagnostic on an operand that is not numeric, [*] one on an
    operand that is not a pointer, and both then type the node [Invalid];
    an operator outside the table types it [Invalid] with no error
    reported or counted. *)
Theorem analyzerUOP_result Node rn R rn' w w1 :
  class Node = astUOP → r Node = Some rn →
  value rn w = Some (R, rn', w1) →
  let typed DT := Some (DT, setDt (setR Node rn') DT, w1) in
  let refused desc :=
    Some (typeInvalid, setDt (setR Node rn') typeInvalid,
          emit w1 [opLine typeToStr (o Node) desc rn' R]) in
  let numericOp := bool_decide (o Node ∈ ["+"; "-"; "++"; "--"; "!"; "~"]) in
  (o Node = "&" → value Node w = typed (typeDerivePtr R))
  ∧ (numericOp = true →
       value Node w = if typeIsNumeric syms R then typed (typeDeriveFrom R)
                      else refused "numeric type")
  ∧ (o Node = "*" →
       value Node w = if typeIsPtr R then typed (typeDeriveBase R)
                      else refused "pointer")
  ∧ (numericOp = false → o Node ≠ "*" → o Node ≠ "&" →
       value Node w = typed typeInvalid).
Proof.
  intros Hc Hr HR typed refused numericOp. subst typed refused numericOp.
  assert (Hrun : ∀ res,
    (let Node := setR Node rn' in
     if    streq (o Node) "+" || streq (o Node) "-"
        || streq (o Node) "++" || streq (o Node) "--"
        || streq (o Node) "!"
        || streq (o Node) "~" then
       if negb (typeIsNumeric syms R) then
         analyzerErrorOp typeToStr (o Node) "numeric type" rn' R;;
         mret (typeInvalid, setDt Node typeInvalid)
       else if streq (o Node) "++" || streq (o Node) "--" then
         let DT := typeDeriveFrom R in mret (DT, setDt Node DT)
       else
         let DT := typeDeriveFrom R in mret (DT, setDt Node DT)
     else if streq (o Node) "*" then
       if typeIsPtr R then
         let DT := typeDeriveBase R in mret (DT, setDt Node DT)
       else
         analyzerErrorOp typeToStr (o Node) "pointer" rn' R;;
         mret (typeInvalid, setDt Node typeInvalid)
     else if streq (o Node) "&" then
       let DT := typeDerivePtr R in mret (DT, setDt Node DT)
     else
       mret (typeInvalid, setDt Node typeInvalid)) w1 = res →
    value Node w = res).
  { intros res Hres. rewrite analyzerValue_unfold, Hc. unfold analyzerUOP.
    rewrite Hr. eapply bind_intro; [exact HR|]. exact Hres. }
  assert (Hnum :
    streq (o Node) "+" || streq (o Node) "-" || streq (o Node) "++"
      || streq (o Node) "--" || streq (o Node) "!" || streq (o Node) "~"
    = bool_decide (o Node ∈ ["+"; "-"; "++"; "--"; "!"; "~"])).
  { unfold streq. apply eq_true_iff_eq.
    rewrite !orb_true_iff, !String.eqb_eq, bool_decide_eq_true.
    rewrite !elem_of_cons, elem_of_nil. tauto. }
  split; [|split; [|split]].
  - intros Ho. apply Hrun. cbv zeta. proj. rewrite Ho. reflexivity.
  - intros Hn. apply Hrun. cbv zeta. proj. rewrite Hnum, Hn.
    destruct (typeIsNumeric syms R); cbn [negb].
    + by destruct (streq (o Node) "++" || streq (o Node) "--").
    + eapply bind_intro; [apply analyzerErrorOp_emit|]. reflexivity.
  - intros Ho. apply Hrun. cbv zeta. proj. rewrite Ho.
    change (streq "*" "+" || streq "*" "-" || streq "*" "++"
            || streq "*" "--" || streq "*" "!" || streq "*" "~") with false.
    change (streq "*" "*") with true. cbv iota.
    destruct (typeIsPtr R); [reflexivity|].
    eapply bind_intro; [apply analyzerErrorOp_emit|]. reflexivity.
  - intros Hn Hstar Hamp. apply Hrun. cbv zeta. proj. rewrite Hnum, Hn.
    unfold streq.
    rewrite (proj2 (String.eqb_neq _ _) Hstar).
    rewrite (proj2 (String.eqb_neq _ _) Hamp). reflexivity.
Qed.

(** X10.  An index node, its operands analyzed to [L] and [R]: an index
    that is not numeric draws a diagnostic but does not spoil the type,
    which is the base of [L] whenever [L] is an array or a pointer; only a
    left operand that is neither draws the second diagnostic and makes
    the node [Invalid]. *)
Theorem analyzerIndex_result Node ln rn L R ln' rn' w w1 w2 :
  class Node = astIndex →
  l Node = Some ln → value ln w = Some (L, ln', w1) →
  r Node = Some rn → value rn w1 = Some (R, rn', w2) →
  let DT := if typeIsArray L || typeIsPtr L then typeDeriveBase L
            else typeInvalid in
  value Node w =
    Some (DT, setDt (setR (setL Node ln') rn') DT,
          emit w2
            ((if negb (typeIsNumeric syms R)
              then [opLine typeToStr "[]" "numeric index" rn' R] else [])
             ++ (if typeIsArray L || typeIsPtr L then []
                 else [opLine typeToStr "[]" "array or pointer" ln' L]))).
Proof.
  intros Hc Hl HL Hr HR DT. subst DT.
  rewrite analyzerValue_unfold, Hc. unfold analyzerIndex. rewrite Hl.
  eapply bind_intro; [exact HL|]. cbv beta iota zeta. rewrite Hr.
  eapply bind_intro; [exact HR|]. cbv beta iota zeta. proj.
  eapply bind_intro; [apply when_analyzerErrorOp|]. cbv beta.
  destruct (typeIsArray L || typeIsPtr L).
  - rewrite app_nil_r. reflexivity.
  - eapply bind_intro; [apply analyzerErrorOp_emit|].
    rewrite emit_emit. reflexivity.
Qed.

(** X11.  A ternary node: the test is its first child, analyzed before the
    two arms.  A test that is not a condition draws a diagnostic at the
    test but leaves the type alone; the type is the unification of the
    arms when they are compatible, and [Invalid] with a mismatch
    diagnostic when they are not. *)
Theorem analyzerTernary_result Node cn rest ln rn Cond L R cn' ln' rn'
    w w0 w1 w2 :
  class Node = astTOP →
  firstChild Node = cn :: rest → value cn w = Some (Cond, cn', w0) →
  l Node = Some ln → value ln w0 = Some (L, ln', w1) →
  r Node = Some rn → value rn w1 = Some (R, rn', w2) →
  let DT := if typeIsCompatible syms L R then typeDeriveUnified syms L R
            else typeInvalid in
  let Node' := setR (setL (setFirstChild Node (cn' :: rest)) ln') rn' in
  value Node w =
    Some (DT, setDt Node' DT,
          emit w2
            ((if negb (typeIsCondition syms Cond)
              then [opLine typeToStr "ternary ?:" "condition value" cn' Cond]
              else [])
             ++ (if typeIsCompatible syms L R then []
                 else [analyzerLine Node
                         ("type mismatch between " +:+ typeToStr L ""
                            +:+ " and " +:+ typeToStr R "" +:+ " for "
                            +:+ "ternary ?:")]))).
Proof.
  intros Hc Hf HC Hl HL Hr HR DT Node'. subst DT Node'.
  rewrite analyzerValue_unfold, Hc. unfold analyzerTernary. rewrite Hf.
  eapply bind_intro; [exact HC|]. cbv beta iota zeta. rewrite Hl.
  eapply bind_intro; [exact HL|]. cbv beta iota zeta. rewrite Hr.
  eapply bind_intro; [exact HR|]. cbv beta iota zeta. proj.
  eapply bind_intro; [apply when_analyzerErrorOp|]. cbv beta.
  destruct (typeIsCompatible syms L R).
  - rewrite app_nil_r. reflexivity.
  - eapply bind_intro;
      [unfold analyzerErrorMismatch; apply analyzerError_emit|].
    rewrite emit_emit. reflexivity.
Qed.

(** X12.  An array literal is typed from its first element alone: the
    type is an array of the first element's type with the node's child
    count as length, and the other elements are left as they were, not
    analyzed.  An array literal without elements has no defined run: the
    analyzer follows the null first child. *)
Theorem analyzerArrayLiteral_first_only Node w :
  class Node = astLiteral → litClass Node = literalArray →
  (firstChild Node = [] → value Node w = None)
  ∧ (∀ cn rest T cn' w1,
       firstChild Node = cn :: rest → value cn w = Some (T, cn', w1) →
       value Node w =
         Some (typeArray T (children Node),
               setDt (setFirstChild Node (cn' :: rest))
                     (typeArray T (children Node)),
               w1)).
Proof.
  intros Hc Hlc. rewrite analyzerValue_unfold, Hc, Hlc.
  rewrite bool_decide_eq_true_2 by reflexivity.
  unfold analyzerArrayLiteral. split.
  - intros ->. reflexivity.
  - intros cn rest T cn' w1 -> HT.
    eapply bind_intro; [exact HT|]. reflexivity.
Qed.

(** X13.  A call whose callee is not callable draws one "requires
    function" diagnostic, placed at the first argument and showing the
    type of the node's symbol; the node is typed [Invalid] and the
    arguments are not analyzed.  When there is no argument to place the
    diagnostic at, the run is not defined. *)
Theorem analyzerCall_not_callable Node ln L ln' w w1 s Sym sdt :
  class Node = astCall →
  l Node = Some ln → value ln w = Some (L, ln', w1) →
  typeIsCallable L = false →
  symbol Node = Some s → syms !! s = Some Sym → sym.dt Sym = Some sdt →
  (firstChild Node = [] → value Node w = None)
  ∧ (∀ first rest, firstChild Node = first :: rest →
       value Node w =
         Some (typeInvalid, setDt (setL Node ln') typeInvalid,
               emit w1 [opLine typeToStr "()" "function" first sdt])
       ∧ firstChild (setDt (setL Node ln') typeInvalid) = first :: rest).
Proof.
  intros Hc Hl HL Hcall Hs HSym Hdt.
  rewrite analyzerValue_unfold, Hc. unfold analyzerCall. rewrite Hl.
  split.
  - intros Hf. eapply bind_intro; [exact HL|]. cbv beta iota zeta. proj.
    rewrite Hcall, Hs, HSym, Hdt, Hf. reflexivity.
  - intros first rest Hf. split; [|exact Hf].
    eapply bind_intro; [exact HL|]. cbv beta iota zeta. proj.
    rewrite Hcall, Hs, HSym, Hdt, Hf. cbn [negb head].
    eapply bind_intro; [apply analyzerErrorOp_emit|]. reflexivity.
Qed.
End MoreValueTheory.

Section ShapeTheory.
Variable syms : gmap symRef sym.t.
Variable typeToStr : type → string → string.

Local Abbreviation value := (analyzerValue syms typeToStr).

Lemma strip_unfold Node :
  strip Node =
    mkAst (class Node) (litClass Node) (o Node) (literal Node)
          (if bool_decide (class Node = astBOP) && isMemberBOP (o Node)
           then None else symbol Node)
          None (location Node) (map strip (firstChild Node)) (children Node)
          (option_map strip (l Node)) (option_map strip (r Node)).
Proof. destruct Node; reflexivity. Qed.

Lemma analyzerCallParams_strip (valueOf : valueFn) Node cs :
  Forall (λ c, ∀ w T c' w', valueOf c w = Some (T, c', w') →
                            strip c' = strip c) cs →
  ∀ ps n w cs' w',
    analyzerCallParams syms typeToStr valueOf Node cs ps n w = Some (cs', w') →
    map strip cs' = map strip cs.
Proof.
  induction 1 as [|c cs Hc Hcs IH]; intros ps n w cs' w' H.
  - cbn [analyzerCallParams] in H. destruct ps; run_inv H; reflexivity.
  - cbn [analyzerCallParams] in H. destruct ps as [|cp ps].
    + run_inv H. reflexivity.
    + run_inv H. cbn [map]. f_equal; eauto.
Qed.

(** X14.  The value analyzer writes nothing into a tree but the types of
    nodes and the symbol of member-access nodes: with those taken out, the
    tree it leaves is the tree it was given, node for node, with every
    class, operator, literal, location, child count and sibling chain as
    before. *)
Theorem analyzerValue_keeps_shape Node w T Node' w' :
  value Node w = Some (T, Node', w') → strip Node' = strip Node.
Proof.
  revert w T Node' w'.
  induction Node as [Node IHc IHl IHr] using ast_ind.
  intros w T Node' w' H.
  rewrite analyzerValue_unfold in H.
  rewrite (strip_unfold Node).
  destruct (class Node) eqn:Hclass.
  all: unfold analyzerBOP, analyzerComparisonBOP, analyzerMemberBOP,
    analyzerCommaBOP, analyzerUOP, analyzerTernary, analyzerIndex,
    analyzerCall, analyzerLiteral, analyzerArrayLiteral in H.
  all: run_inv H.
  all: rewrite strip_unfold; proj; rewrite ?Hclass.
  all: repeat match goal with
              | Hb : ?y = _ |- context [?y] =>
                  tryif is_var y then fail else rewrite Hb
              end.
  all: cbn [map option_map].
  all: repeat match goal with
              | IH : ∀ x, Some ?n = Some x → _, E : value ?n _ = Some (_, ?n', _)
                |- context [strip ?n'] => rewrite (IH n eq_refl _ _ _ _ E)
              | F : Forall _ (?n :: _), E : value ?n _ = Some (_, ?n', _)
                |- context [strip ?n'] => rewrite (Forall_inv F _ _ _ _ E)
              | E : analyzerCallParams _ _ _ _ _ _ _ _ = Some (?cs', _)
                |- context [map strip ?cs'] =>
                  rewrite (analyzerCallParams_strip _ _ _ IHc _ _ _ _ _ E)
              end.
  all: rewrite ?bool_decide_eq_true_2 by reflexivity; cbn [andb].
  all: try reflexivity.
Qed.

End ShapeTheory.

(** Computations that count what they print *)

Lemma Reporting_ret {A} (a : A) : Reporting (mret a).
Proof.
  intros w a' w' [= <- <-]. exists []. repeat split; [constructor|cbn; lia|].
  cbn [linesText]. by rewrite app_nil_s.
Qed.

Lemma Reporting_undefined {A} : Reporting (@undefined A).
Proof. intros w a w' [=]. Qed.

Lemma Reporting_bind {A B} (m : run A) (f : A → run B) :
  Reporting m → (∀ a, Reporting (f a)) → Reporting (m ≫= f).
Proof.
  intros Hm Hf w b w' H.
  apply bind_Some in H as (a & w1 & E & H).
  destruct (Hm _ _ _ E) as (ds1 & F1 & He1 & Ho1 & Ht1 & Hw1).
  destruct (Hf a _ _ _ H) as (ds2 & F2 & He2 & Ho2 & Ht2 & Hw2).
  exists (ds1 ++ ds2). repeat split.
  - by apply Forall_app.
  - rewrite He2, He1, length_app. lia.
  - by rewrite Ho2, Ho1, linesText_app, app_assoc_s.
  - congruence.
  - congruence.
Qed.

Lemma Reporting_analyzerError Node msg : Reporting (analyzerError Node msg).
Proof.
  intros w a w' H. rewrite analyzerError_emit in H. injection H as <- <-.
  exists [analyzerLine Node msg]. repeat split.
  repeat constructor. by exists Node, msg.
Qed.

Lemma Reporting_when b (m : run unit) : Reporting m → Reporting (when_ b m).
Proof. destruct b; [done|]. intros _. apply Reporting_ret. Qed.

Lemma Reporting_getTypes : Reporting getTypes.
Proof.
  intros w a w' [= <- <-]. exists []. repeat split; [constructor|cbn; lia|].
  cbn [linesText]. by rewrite app_nil_s.
Qed.

Lemma Reporting_getReturnType : Reporting getReturnType.
Proof.
  intros w a w' [= <- <-]. exists []. repeat split; [constructor|cbn; lia|].
  cbn [linesText]. by rewrite app_nil_s.
Qed.

Lemma Reporting_setReturnType t : Reporting (setReturnType t).
Proof.
  intros w a w' [= <- <-]. exists []. repeat split; [constructor|cbn; lia|].
  cbn [linesText stdout]. by rewrite app_nil_s.
Qed.

Ltac reporting_step :=
  lazymatch goal with
  | |- Reporting (mret _) => apply Reporting_ret
  | |- Reporting undefined => apply Reporting_undefined
  | |- Reporting (when_ _ _) => apply Reporting_when
  | |- Reporting (analyzerError _ _) => apply Reporting_analyzerError
  | |- Reporting getTypes => apply Reporting_getTypes
  | |- Reporting getReturnType => apply Reporting_getReturnType
  | |- Reporting (setReturnType _) => apply Reporting_setReturnType
  | |- Reporting (mbind _ _) =>
      apply Reporting_bind; [| let a := fresh "a" in intros a; try destruct a]
  | |- Reporting (match ?x with _ => _ end) => destruct x eqn:?
  | |- Reporting (let _ := _ in _) => cbv zeta
  end.

Ltac reporting :=
  unfold analyzerErrorOp, analyzerErrorMismatch, analyzerErrorDegree,
    analyzerErrorParamMismatch, analyzerErrorMember, analyzerErrorExpectedType,
    analyzerErrorExpected;
  repeat (cbv beta zeta; first [ reporting_step | solve [eauto] ]).

Section CountTheory.
Variable syms : gmap symRef sym.t.
Variable typeToStr : type → string → string.

Local Abbreviation value := (analyzerValue syms typeToStr).

Lemma Reporting_analyzerCallParams (valueOf : valueFn) Node cs :
  Forall (λ c, Reporting (valueOf c)) cs →
  ∀ ps n, Reporting (analyzerCallParams syms typeToStr valueOf Node cs ps n).
Proof.
  induction 1 as [|c cs Hc Hcs IH]; intros ps n; cbn [analyzerCallParams].
  - destruct ps; apply Reporting_ret.
  - destruct ps as [|cp ps]; [apply Reporting_ret|]. reporting.
Qed.

Lemma Reporting_analyzerValue Node : Reporting (value Node).
Proof.
  induction Node as [Node IHc IHl IHr] using ast_ind.
  rewrite analyzerValue_unfold.
  destruct (class Node).
  all: unfold analyzerBOP, analyzerComparisonBOP, analyzerMemberBOP,
    analyzerCommaBOP, analyzerUOP, analyzerTernary, analyzerIndex,
    analyzerCall, analyzerLiteral, analyzerArrayLiteral.
  all: try (apply Reporting_ret).
  all: reporting.
  all: try (apply Reporting_analyzerCallParams; proj; assumption).
  all: match goal with
       | F : Forall _ (_ :: _) |- _ => inversion F; assumption
       end.
Qed.

(** X16.  Whatever expression the value analyzer is run on, as long as
    the error count, an [int], starts inside the range of [int] and the
    lines of the run do not take it past [INT_MAX]: the error count grows
    by exactly the number of diagnostic lines the run prints, each of them
    a line of [analyzerError]; the count does not go down and stays inside
    the range, and the types table, the warning count and the return type
    of the context are left alone. *)
Theorem analyzerValue_counts_lines Node w T Node' w' :
  value Node w = Some (T, Node', w') →
  INT_MIN ≤ errors (ctx w) → errors (ctx w') ≤ INT_MAX →
  ∃ ds,
    Forall isAnalyzerLine ds
    ∧ errors (ctx w') = errors (ctx w) + Z.of_nat (length ds)
    ∧ stdout w' = stdout w +:+ linesText ds
    ∧ errors (ctx w) ≤ errors (ctx w')
    ∧ INT_MIN ≤ errors (ctx w') ≤ INT_MAX
    ∧ errors (ctx w) + Z.of_nat (length ds) ≤ INT_MAX
    ∧ types (ctx w') = types (ctx w)
    ∧ warnings (ctx w') = warnings (ctx w)
    ∧ returnType (ctx w') = returnType (ctx w).
Proof.
  intros H Hmin Hmax.
  destruct (Reporting_analyzerValue Node _ _ _ H)
    as (ds & F & He & Ho & Ht & Hw).
  exists ds. repeat split; try assumption; try lia.
  exact (Quiet_returnType _ _ _ _ (Quiet_analyzerValue _ _ Node) H).
Qed.
End CountTheory.

(** ** More on the statement analyzer *)

Section MoreStatementTheory.
Variable syms : gmap symRef sym.t.
Variable typeToStr : type → string → string.
Variable analyzerDecl : ast → run ast.
Variable analyzerDeclStruct : ast → run ast.

Local Abbreviation value := (analyzerValue syms typeToStr).
Local Abbreviation node :=
  (analyzerNode syms typeToStr analyzerDecl analyzerDeclStruct).

Lemma condition_check where_ cond condDT w :
  when_ (negb (typeIsCondition syms condDT))
        (analyzerErrorExpected typeToStr cond where_ "condition" condDT) w
    = Some (tt, emit w (conditionLines syms typeToStr where_ cond condDT)).
Proof.
  unfold conditionLines, when_.
  destruct (typeIsCondition syms condDT); cbn [negb].
  - by rewrite emit_nil.
  - apply analyzerError_emit.
Qed.

(** X17.  A loop node is taken for a do-while exactly when its [l] slot
    holds a compound statement: the test is then [r] and the body [l];
    otherwise the test is [l] and the body [r].  The test is analyzed
    first, a test that is not a condition draws one diagnostic, worded "do
    loop" for either kind of loop, and the body is analyzed all the same. *)
Theorem analyzerLoop_test Node ln rn w :
  class Node = astLoop → l Node = Some ln → r Node = Some rn →
  (class ln = astCode →
     ∀ condDT cond' w1 code' w2,
       value rn w = Some (condDT, cond', w1) →
       node ln (emit w1 (conditionLines syms typeToStr "do loop" cond' condDT))
         = Some (code', w2) →
       node Node w = Some (setR (setL Node code') cond', w2))
  ∧ (class ln ≠ astCode →
     ∀ condDT cond' w1 code' w2,
       value ln w = Some (condDT, cond', w1) →
       node rn (emit w1 (conditionLines syms typeToStr "do loop" cond' condDT))
         = Some (code', w2) →
       node Node w = Some (setR (setL Node cond') code', w2)).
Proof.
  intros Hc Hl Hr. rewrite (analyzerNode_unfold _ _ _ _ Node), Hc.
  unfold analyzerLoop. rewrite Hl, Hr. split.
  - intros Hcode condDT cond' w1 code' w2 Hv Hn.
    rewrite bool_decide_eq_true_2 by exact Hcode.
    eapply bind_intro; [exact Hv|]. cbv beta iota zeta.
    eapply bind_intro; [apply condition_check|]. cbv beta.
    eapply bind_intro; [exact Hn|]. reflexivity.
  - intros Hcode condDT cond' w1 code' w2 Hv Hn.
    rewrite bool_decide_eq_false_2 by exact Hcode.
    eapply bind_intro; [exact Hv|]. cbv beta iota zeta.
    eapply bind_intro; [apply condition_check|]. cbv beta.
    eapply bind_intro; [exact Hn|]. reflexivity.
Qed.

(** X18.  A branch node: the test is the first child, analyzed first; a
    test that is not a condition draws one "if" diagnostic and the arms
    are analyzed all the same, the else arm only when there is one.  A
    branch without a first child has no defined run. *)
Theorem analyzerBranch_arms Node w :
  class Node = astBranch →
  (firstChild Node = [] → node Node w = None)
  ∧ (∀ cond rest condDT cond' w1 ln ln' w2,
       firstChild Node = cond :: rest →
       value cond w = Some (condDT, cond', w1) →
       l Node = Some ln →
       node ln (emit w1 (conditionLines syms typeToStr "if" cond' condDT))
         = Some (ln', w2) →
       (r Node = None →
          node Node w
            = Some (setL (setFirstChild Node (cond' :: rest)) ln', w2))
       ∧ (∀ rn rn' w3,
            r Node = Some rn → node rn w2 = Some (rn', w3) →
            node Node w
              = Some (setR (setL (setFirstChild Node (cond' :: rest)) ln') rn',
                      w3))).
Proof.
  intros Hc. rewrite (analyzerNode_unfold _ _ _ _ Node), Hc.
  unfold analyzerBranch. split.
  - intros ->. reflexivity.
  - intros cond rest condDT cond' w1 ln ln' w2 -> Hv Hl Hn. split.
    + intros Hr.
      eapply bind_intro; [exact Hv|]. cbv beta iota zeta. proj.
      eapply bind_intro; [apply condition_check|]. cbv beta. rewrite Hl.
      eapply bind_intro; [exact Hn|]. cbv beta. rewrite Hr. reflexivity.
    + intros rn rn' w3 Hr Hrn.
      eapply bind_intro; [exact Hv|]. cbv beta iota zeta. proj.
      eapply bind_intro; [apply condition_check|]. cbv beta. rewrite Hl.
      eapply bind_intro; [exact Hn|]. cbv beta. rewrite Hr.
      eapply bind_intro; [exact Hrn|]. reflexivity.
Qed.

(** X19.  A for node needs its three header children.  Header slots that
    are empty are skipped, neither typed nor checked, so a header of three
    empty slots adds nothing to the run of the body; with fewer than three
    children the run is not defined. *)
Theorem analyzerIter_header Node w :
  class Node = astIter →
  (length (firstChild Node) < 3 → node Node w = None)%nat
  ∧ (∀ init cond iter rest ln ln' w1,
       firstChild Node = init :: cond :: iter :: rest →
       class init = astEmpty → class cond = astEmpty →
       class iter = astEmpty →
       l Node = Some ln → node ln w = Some (ln', w1) →
       node Node w = Some (setL Node ln', w1)
       ∧ firstChild (setL Node ln') = init :: cond :: iter :: rest).
Proof.
  intros Hc. rewrite (analyzerNode_unfold _ _ _ _ Node), Hc.
  unfold analyzerIter. split.
  - intros Hlen. destruct (firstChild Node) as [|a [|b [|c rest]]];
      cbn [length] in Hlen; try reflexivity. lia.
  - intros init cond iter rest ln ln' w1 Hf Hi Hco Hit Hl Hn.
    rewrite Hf. split; [|exact Hf].
    rewrite Hi, Hco, Hit.
    rewrite (bool_decide_eq_false_2 (astEmpty = astDecl)) by discriminate.
    rewrite (bool_decide_eq_true_2 (astEmpty = astEmpty)) by reflexivity.
    cbn [negb].
    do 3 (eapply bind_intro; [reflexivity|]; cbv beta iota zeta). proj.
    rewrite Hl. eapply bind_intro; [exact Hn|].
    destruct Node. proj. subst. reflexivity.
Qed.

(** X20.  A function implementation: its declarator is analyzed first,
    then its body with the context's return type set to the return type of
    the function's symbol; afterwards the return type of the context is
    null, whatever it was before the function. *)
Theorem analyzerFnImpl_returnType Node d d' w w1 s Sym sdt ret body body' w2 :
  class Node = astFnImpl →
  l Node = Some d → analyzerDecl d w = Some (d', w1) →
  symbol Node = Some s → syms !! s = Some Sym → sym.dt Sym = Some sdt →
  ty.returnType sdt = Some ret →
  r Node = Some body →
  node body (withReturnType w1 (Some ret)) = Some (body', w2) →
  node Node w = Some (setR (setL Node d') body', withReturnType w2 None)
  ∧ returnType (ctx (withReturnType w2 None)) = None
  ∧ errors (ctx (withReturnType w2 None)) = errors (ctx w2)
  ∧ stdout (withReturnType w2 None) = stdout w2.
Proof.
  intros Hc Hl Hd Hs HSym Hdt Hret Hr Hn.
  split; [|by repeat split].
  rewrite (analyzerNode_unfold _ _ _ _ Node), Hc.
  unfold analyzerFnImpl. rewrite Hl.
  eapply bind_intro; [exact Hd|]. cbv beta iota zeta. proj.
  rewrite Hs, HSym, Hdt, Hret.
  eapply bind_intro; [reflexivity|]. cbv beta. rewrite Hr.
  eapply bind_intro; [exact Hn|]. cbv beta.
  eapply bind_intro; [reflexivity|]. reflexivity.
Qed.

(** What is asked of the two declaration analyzers here: that they count
    the lines they print. *)
Hypothesis analyzerDecl_reporting : ∀ Node, Reporting (analyzerDecl Node).
Hypothesis analyzerDeclStruct_reporting :
  ∀ Node, Reporting (analyzerDeclStruct Node).

Lemma Reporting_analyzerNodes (nodeOf : nodeFn) cs :
  Forall (λ c, Reporting (nodeOf c)) cs → Reporting (analyzerNodes nodeOf cs).
Proof.
  induction 1 as [|c cs Hc Hcs IH]; cbn [analyzerNodes]; reporting.
Qed.

Lemma Reporting_analyzerNode Node : Reporting (node Node).
Proof.
  induction Node as [Node IHc IHl IHr] using ast_ind.
  rewrite analyzerNode_unfold.
  destruct (class Node).
  all: unfold analyzerFnImpl, analyzerCode, analyzerBranch, analyzerLoop,
    analyzerIter, analyzerReturn, astIsValueClass.
  all: try (apply Reporting_ret).
  all: reporting.
  all: try (apply Reporting_analyzerValue).
  all: try (apply Reporting_analyzerNodes; assumption).
  all: try match goal with
       | F : Forall _ (_ :: _) |- _ => inversion F; assumption
       end.
Qed.

(** X21.  The error count that [analyzer] returns is the number of
    diagnostic lines the run has printed, each of them a line of
    [analyzerError], and the warning count it returns is zero. *)
Theorem analyzer_counts_lines Tree Types out res Tree' out' :
  analyzer syms typeToStr analyzerDecl analyzerDeclStruct Tree Types out
    = Some (res, Tree', out') →
  ∃ ds,
    Forall isAnalyzerLine ds
    ∧ res_errors res = Z.of_nat (length ds)
    ∧ out' = out +:+ linesText ds
    ∧ res_warnings res = 0.
Proof.
  unfold analyzer. intros H.
  destruct (analyzerModule node Tree (mkWorld (analyzerInit Types) out))
    as [[T1 w1]|] eqn:E; [|discriminate].
  injection H as <- <- <-.
  assert (HR : Reporting (analyzerModule node Tree)).
  { unfold analyzerModule. reporting. apply Reporting_analyzerNodes.
    apply Forall_forall. intros c _. apply Reporting_analyzerNode. }
  destruct (HR _ _ _ E) as (ds & F & He & Ho & Ht & Hw).
  exists ds. cbn [res_errors res_warnings].
  repeat split; assumption.
Qed.
End MoreStatementTheory.

(** ** Storage layout *)

Section LayoutTheory.
Variable syms : gmap symRef sym.t.
Variable typeGetSize : type → Z.
Variable wordsize : Z.

Local Abbreviation wordsFor := (Emitter.wordsFor wordsize).
Local Abbreviation fieldSize := (Emitter.fieldSize syms typeGetSize).
Local Abbreviation fieldSizes := (Emitter.fieldSizes syms typeGetSize).
Local Abbreviation structLoop :=
  (Emitter.emitterStructLoop syms typeGetSize wordsize).
Local Abbreviation unionLoop := (Emitter.emitterUnionLoop syms typeGetSize).
Local Abbreviation ready := (Emitter.fieldsReady syms).

Lemma wordsFor_covers s : 0 < wordsize → 0 ≤ s → s ≤ wordsFor s.
Proof.
  intros Ha Hs. unfold Emitter.wordsFor.
  destruct (decide (s = 0)) as [->|Hne].
  - change (0 - 1) with (- (1)). rewrite Z.quot_opp_l by lia.
    rewrite Z.quot_div_nonneg by lia.
    pose proof (Z.mul_div_le 1 wordsize Ha). nia.
  - rewrite Z.quot_div_nonneg by lia.
    pose proof (Z.div_mod (s - 1) wordsize) as Hd.
    pose proof (Z.mod_pos_bound (s - 1) wordsize Ha). nia.
Qed.

Lemma wordsFor_aligned s : (wordsize | wordsFor s).
Proof.
  exists ((s - 1) `quot` wordsize + 1). unfold Emitter.wordsFor. lia.
Qed.

Lemma total_app xs ys :
  Emitter.total (xs ++ ys) = Emitter.total xs + Emitter.total ys.
Proof.
  unfold Emitter.total. induction xs as [|x xs IH]; cbn [foldr app]; lia.
Qed.

Lemma total_wordsFor_nonneg xs :
  0 < wordsize → Forall (λ s, 0 ≤ s) xs →
  0 ≤ Emitter.total (wordsFor <$> xs).
Proof.
  intros Ha. induction 1 as [|x xs Hx Hxs IH]; cbn; [lia|].
  pose proof (wordsFor_covers x Ha Hx). unfold Emitter.total in IH. lia.
Qed.

Lemma total_wordsFor_aligned xs :
  (wordsize | Emitter.total (wordsFor <$> xs)).
Proof.
  induction xs as [|x xs IH]; cbn; [apply Z.divide_0_r|].
  apply Z.divide_add_r; [apply wordsFor_aligned|exact IH].
Qed.

Lemma ready_after Rec fields m m' :
  ready Rec fields m →
  (∀ k, is_Some (m !! k) → is_Some (m' !! k)) →
  ready Rec fields m'.
Proof.
  intros (Hnd & Hnot & HRec & Hall) Hkeep. repeat split; auto.
  - apply Hkeep. by destruct (Hall c).
  - by destruct (Hall c).
Qed.

Lemma fieldSizes_take i fields :
  fieldSizes (take i fields) = take i (fieldSizes fields).
Proof. unfold Emitter.fieldSizes. symmetry. apply firstn_map. Qed.

Lemma total_take_le xs :
  Forall (λ s, 0 ≤ s) xs →
  ∀ i j, (i ≤ j)%nat →
    Emitter.total (take i xs) ≤ Emitter.total (take j xs).
Proof.
  unfold Emitter.total.
  induction 1 as [|x xs Hx Hxs IH]; intros i j Hij.
  - by rewrite !take_nil.
  - destruct i as [|i], j as [|j]; cbn [take foldr]; try lia.
    + specialize (IH 0%nat j ltac:(lia)). rewrite take_0 in IH. cbn in IH. lia.
    + specialize (IH i j ltac:(lia)). lia.
Qed.

Lemma total_take_step xs i x :
  xs !! i = Some x →
  Emitter.total (take (S i) xs) = Emitter.total (take i xs) + x.
Proof.
  intros Hi. rewrite (take_S_r _ _ _ Hi), total_app.
  unfold Emitter.total. cbn. lia.
Qed.

Lemma total_take_all xs i :
  Forall (λ s, 0 ≤ s) xs → Emitter.total (take i xs) ≤ Emitter.total xs.
Proof.
  intros H. rewrite <- (firstn_all xs) at 2.
  destruct (decide (i ≤ length xs)%nat).
  - by apply total_take_le.
  - rewrite take_ge by lia. rewrite firstn_all. lia.
Qed.

Lemma emitterStruct_loop Node Rec Sym m :
  symbol Node = Some Rec → syms !! Rec = Some Sym →
  Emitter.emitterStruct syms typeGetSize wordsize Node m
    = structLoop Rec (sym.firstChild Sym) m.
Proof. intros Hs HSym. unfold Emitter.emitterStruct. by rewrite Hs, HSym. Qed.

Lemma foldl_max_ge_init xs : ∀ a, a ≤ foldl Z.max a xs.
Proof.
  induction xs as [|x xs IH]; intros a; cbn [foldl]; [lia|].
  specialize (IH (Z.max a x)). lia.
Qed.

Lemma foldl_max_ge_elem xs x : x ∈ xs → ∀ a, x ≤ foldl Z.max a xs.
Proof.
  induction 1 as [x xs|x y xs _ IH]; intros a; cbn [foldl].
  - pose proof (foldl_max_ge_init xs (Z.max a x)). lia.
  - apply IH.
Qed.

Lemma foldl_max_attained xs :
  ∀ a, foldl Z.max a xs = a ∨ foldl Z.max a xs ∈ xs.
Proof.
  induction xs as [|x xs IH]; intros a; cbn [foldl]; [by left|].
  destruct (IH (Z.max a x)) as [->|Hin].
  - destruct (Z.max_spec a x) as [[_ ->]|[_ ->]]; [right; by left|by left].
  - right. by right.
Qed.

Lemma foldl_max_absorb xs a :
  (∀ x, x ∈ xs → x ≤ a) → foldl Z.max a xs = a.
Proof.
  induction xs as [|x xs IH]; intros Hle; cbn [foldl]; [reflexivity|].
  rewrite Z.max_l by (apply Hle; by left).
  apply IH. intros y Hy. apply Hle. by right.
Qed.

(** What the loop of [emitterUnion] leaves. *)
Lemma emitterUnionLoop_spec Rec fields :
  ∀ m st0, ready Rec fields m → m !! Rec = Some st0 →
  ∃ m',
    unionLoop Rec fields m = Some m'
    ∧ m' !! Rec
      = Some (Emitter.mkStorage (Emitter.offset st0)
                (foldl Z.max (Emitter.size st0) (fieldSizes fields)))
    ∧ (∀ c, c ∈ fields →
         ∃ stc, m !! c = Some stc
           ∧ m' !! c = Some (Emitter.mkStorage 0 (Emitter.size stc)))
    ∧ (∀ k, k ≠ Rec → k ∉ fields → m' !! k = m !! k).
Proof.
  induction fields as [|c rest IH]; intros m st0 Hready HRec.
  - exists m. cbn. repeat split.
    + rewrite HRec. by destruct st0.
    + intros c Hc. by apply elem_of_nil in Hc.
  - destruct Hready as (Hnd & Hnot & _ & Hall).
    apply NoDup_cons in Hnd as [Hc_rest Hnd].
    apply not_elem_of_cons in Hnot as [HRc Hnot].
    destruct (Hall c) as ([stc Hstc] & C & cdt & HC & Hcdt);
      [by left|].
    set (m1 := <[c := Emitter.mkStorage 0 (Emitter.size stc)]> m).
    set (m2 := <[Rec := Emitter.mkStorage (Emitter.offset st0)
                          (Z.max (Emitter.size st0) (typeGetSize cdt))]> m1).
    assert (Hm1Rec : m1 !! Rec = Some st0)
      by (subst m1; rewrite lookup_insert_ne by congruence; exact HRec).
    assert (Hready2 : ready Rec rest m2).
    { repeat split; try assumption.
      - subst m2. rewrite lookup_insert_eq. eauto.
      - subst m2 m1. destruct (Hall c0) as ([st' Hst'] & _); [by right|].
        rewrite lookup_insert_ne by (intros ->; contradiction).
        rewrite lookup_insert_ne by (intros ->; contradiction). eauto.
      - destruct (Hall c0) as (_ & Hsym); [by right|]. exact Hsym. }
    destruct (IH m2 _ Hready2 (lookup_insert_eq _ _ _))
      as (m' & Hrun & HRec' & Hfields & Hother).
    assert (Hsize : fieldSize c = typeGetSize cdt).
    { unfold Emitter.fieldSize. rewrite HC. cbn [mbind option_bind].
      by rewrite Hcdt. }
    exists m'. split; [|split; [|split]].
    + cbn [Emitter.emitterUnionLoop].
      unfold Emitter.setOffset. rewrite Hstc. fold m1.
      rewrite HC, Hcdt, Hm1Rec.
      unfold Emitter.setSize. rewrite Hm1Rec.
      fold m2. exact Hrun.
    + rewrite HRec'. cbn [Emitter.offset Emitter.size].
      unfold Emitter.fieldSizes. cbn [map foldl]. by rewrite Hsize.
    + intros c' Hc'. apply elem_of_cons in Hc' as [->|Hin].
      * exists stc. split; [exact Hstc|].
        rewrite (Hother c) by (congruence || assumption).
        subst m2 m1. rewrite lookup_insert_ne by congruence.
        by rewrite lookup_insert_eq.
      * destruct (Hfields c' Hin) as (stc' & Hm2 & Hm').
        assert (c' ≠ c) by (intros ->; contradiction).
        assert (c' ≠ Rec) by (intros ->; contradiction).
        subst m2 m1.
        rewrite lookup_insert_ne in Hm2 by congruence.
        rewrite lookup_insert_ne in Hm2 by congruence.
        exists stc'. by split.
    + intros k HkRec Hk. apply not_elem_of_cons in Hk as [Hkc Hk].
      rewrite (Hother k HkRec Hk). subst m2 m1.
      rewrite lookup_insert_ne by congruence.
      rewrite lookup_insert_ne by congruence. reflexivity.
Qed.

(** X25.  [emitterUnion] places every member of a union at offset 0 and
    raises the union's size to the largest member size, never lowering the
    size it had: afterwards the size is at least that of every member and
    is either the size it had or the size of one of the members.  Unlike
    the pass over a struct, a second run changes nothing. *)
Theorem emitterUnion_layout Node Rec Sym m st0 :
  symbol Node = Some Rec → syms !! Rec = Some Sym →
  ready Rec (sym.firstChild Sym) m → m !! Rec = Some st0 →
  ∃ m' stRec,
    Emitter.emitterUnion syms typeGetSize Node m = Some m'
    ∧ m' !! Rec = Some stRec
    ∧ Emitter.offset stRec = Emitter.offset st0
    ∧ Emitter.size st0 ≤ Emitter.size stRec
    ∧ (∀ c, c ∈ sym.firstChild Sym →
         fieldSize c ≤ Emitter.size stRec
         ∧ ∃ stc, m !! c = Some stc
             ∧ m' !! c = Some (Emitter.mkStorage 0 (Emitter.size stc)))
    ∧ (Emitter.size stRec = Emitter.size st0
       ∨ ∃ c, c ∈ sym.firstChild Sym ∧ Emitter.size stRec = fieldSize c)
    ∧ (∀ k, k ≠ Rec → k ∉ sym.firstChild Sym → m' !! k = m !! k)
    ∧ Emitter.emitterUnion syms typeGetSize Node m' = Some m'.
Proof.
  intros Hs HSym Hready HRec.
  unfold Emitter.emitterUnion. rewrite Hs, HSym.
  set (fields := sym.firstChild Sym) in *.
  destruct (emitterUnionLoop_spec Rec fields m st0 Hready HRec)
    as (m' & Hrun & HR & Hf & Ho).
  exists m', (Emitter.mkStorage (Emitter.offset st0)
                (foldl Z.max (Emitter.size st0) (fieldSizes fields))).
  split; [exact Hrun|]. split; [exact HR|]. split; [reflexivity|].
  cbn [Emitter.size]. split; [apply foldl_max_ge_init|].
  split; [|split; [|split; [exact Ho|]]].
  - intros c Hc. split; [|exact (Hf c Hc)].
    apply foldl_max_ge_elem. unfold Emitter.fieldSizes.
    apply list_elem_of_fmap. by exists c.
  - destruct (foldl_max_attained (fieldSizes fields) (Emitter.size st0))
      as [->|Hin]; [by left|right].
    unfold Emitter.fieldSizes in Hin.
    apply list_elem_of_fmap in Hin as (c & Heq & Hc). by exists c.
  - assert (Hready' : ready Rec fields m').
    { eapply ready_after; [exact Hready|]. intros k [st Hk].
      destruct (decide (k = Rec)) as [->|HkR]; [by rewrite HR|].
      destruct (decide (k ∈ fields)) as [Hin|Hout].
      - destruct (Hf k Hin) as (stc & _ & ->). eauto.
      - rewrite (Ho k HkR Hout), Hk. eauto. }
    destruct (emitterUnionLoop_spec Rec fields m' _ Hready' HR)
      as (m'' & Hrun' & HR' & Hf' & Ho').
    rewrite Hrun'. f_equal. apply map_eq. intros k.
    destruct (decide (k = Rec)) as [->|HkR].
    + rewrite HR', HR. cbn [Emitter.offset Emitter.size]. do 2 f_equal.
      apply foldl_max_absorb. intros x Hx. by apply foldl_max_ge_elem.
    + destruct (decide (k ∈ fields)) as [Hin|Hout].
      * destruct (Hf' k Hin) as (stc' & Hm' & ->).
        destruct (Hf k Hin) as (stc & _ & Hm'k).
        rewrite Hm'k in Hm' |- *. by injection Hm' as <-.
      * by apply Ho'.
Qed.
End LayoutTheory.

(** ** Storage layout of a struct, sums inside [int] *)

Lemma wrapInt_id z : INT_MIN ≤ z ≤ INT_MAX → wrapInt z = z.
Proof.
  unfold wrapInt, INT_MIN, INT_MAX. intros Hz.
  rewrite Z.mod_small by lia. lia.
Qed.

Section StructLayoutTheory.
Variable syms : gmap symRef sym.t.
Variable typeGetSize : type → Z.
Variable wordsize : Z.

Local Abbreviation wordsFor := (Emitter.wordsFor wordsize).
Local Abbreviation fieldSize := (Emitter.fieldSize syms typeGetSize).
Local Abbreviation fieldSizes := (Emitter.fieldSizes syms typeGetSize).
Local Abbreviation structLoop :=
  (Emitter.emitterStructLoop syms typeGetSize wordsize).
Local Abbreviation ready := (Emitter.fieldsReady syms).
Local Abbreviation fitsInt := (Emitter.fitsInt syms typeGetSize wordsize).


Lemma fitsInt_step size0 c rest :
  fitsInt size0 (c :: rest) →
  0 ≤ fieldSize c
  ∧ fieldSize c ≤ wordsFor (fieldSize c)
  ∧ size0 + wordsFor (fieldSize c) ≤ INT_MAX
  ∧ fitsInt (size0 + wordsFor (fieldSize c)) rest.
Proof.
  intros (Ha & Hsizes & H0 & Hmax). unfold Emitter.fitsInt.
  unfold Emitter.fieldSizes in *.
  change (map fieldSize (c :: rest))
    with (fieldSize c :: map fieldSize rest) in *.
  rewrite fmap_cons in Hmax.
  apply Forall_cons in Hsizes as [Hc Hrest]. cbv beta in Hc.
  pose proof (wordsFor_covers wordsize _ Ha Hc) as Hcover.
  pose proof (total_wordsFor_nonneg wordsize _ Ha Hrest) as Hnn.
  change (size0 + (wordsFor (fieldSize c)
                   + Emitter.total (wordsFor <$> map fieldSize rest))
          ≤ INT_MAX) in Hmax.
  split; [exact Hc|]. split; [exact Hcover|]. split; [lia|].
  split; [exact Ha|]. split; [exact Hrest|]. split; lia.
Qed.

(** One step of the loop computes the rounded size exactly. *)
Lemma round_in_int size0 g :
  0 < wordsize → 0 ≤ g → 0 ≤ size0 → size0 + wordsFor g ≤ INT_MAX →
  g ≤ wordsFor g →
  ∃ q, Emitter.intDiv (wrapInt (g - 1)) wordsize = Some q
       ∧ wrapInt (size0 + wrapInt (wrapInt (q * wordsize) + wordsize))
         = size0 + wordsFor g.
Proof.
  intros Ha Hg H0 Hmax Hcover. unfold Emitter.wordsFor in *.
  assert (Hq : -1 ≤ (g - 1) `quot` wordsize * wordsize ≤ g).
  { destruct (decide (g = 0)) as [->|Hne].
    - pose proof (Z.mul_quot_ge (0 - 1) wordsize ltac:(lia) ltac:(lia)). lia.
    - pose proof (Z.mul_quot_le (g - 1) wordsize ltac:(lia) ltac:(lia)).
      lia. }
  unfold INT_MAX in Hmax.
  exists ((g - 1) `quot` wordsize). split.
  - rewrite wrapInt_id by (unfold INT_MIN, INT_MAX; lia).
    unfold Emitter.intDiv.
    rewrite bool_decide_eq_false_2 by lia.
    rewrite (bool_decide_eq_false_2 (g - 1 = INT_MIN))
      by (unfold INT_MIN; lia).
    reflexivity.
  - rewrite (wrapInt_id ((g - 1) `quot` wordsize * wordsize))
      by (unfold INT_MIN, INT_MAX; lia).
    rewrite (wrapInt_id ((g - 1) `quot` wordsize * wordsize + wordsize))
      by (unfold INT_MIN, INT_MAX; lia).
    apply wrapInt_id. unfold INT_MIN, INT_MAX. lia.
Qed.

(** What the loop of [emitterStruct] leaves, field by field. *)
Lemma emitterStructLoop_spec Rec fields :
  ∀ m st0, ready Rec fields m → m !! Rec = Some st0 →
  fitsInt (Emitter.size st0) fields →
  ∃ m',
    structLoop Rec fields m = Some m'
    ∧ m' !! Rec
      = Some (Emitter.mkStorage (Emitter.offset st0)
                (Emitter.size st0
                 + Emitter.total (wordsFor <$> fieldSizes fields)))
    ∧ (∀ i c, fields !! i = Some c →
         ∃ stc, m !! c = Some stc
           ∧ m' !! c
             = Some (Emitter.mkStorage
                       (Emitter.size st0
                        + Emitter.total
                            (wordsFor <$> fieldSizes (take i fields)))
                       (Emitter.size stc)))
    ∧ (∀ k, k ≠ Rec → k ∉ fields → m' !! k = m !! k).
Proof.
  induction fields as [|c rest IH]; intros m st0 Hready HRec Hfits.
  - exists m. cbn. repeat split.
    + rewrite HRec. destruct st0. cbn. do 2 f_equal. lia.
    + intros i c Hi. by rewrite lookup_nil in Hi.
  - destruct Hready as (Hnd & Hnot & _ & Hall).
    apply NoDup_cons in Hnd as [Hc_rest Hnd].
    apply not_elem_of_cons in Hnot as [HRc Hnot].
    destruct (Hall c) as ([stc Hstc] & C & cdt & HC & Hcdt);
      [by left|].
    assert (Hsize : fieldSize c = typeGetSize cdt).
    { unfold Emitter.fieldSize. rewrite HC. cbn [mbind option_bind].
      by rewrite Hcdt. }
    pose proof Hfits as (Ha & _ & H0 & _).
    destruct (fitsInt_step _ _ _ Hfits) as (Hg & Hcover & Hmax & Hfits').
    rewrite Hsize in Hg, Hcover, Hmax, Hfits'.
    destruct (round_in_int (Emitter.size st0) (typeGetSize cdt)
                Ha Hg H0 Hmax Hcover) as (q & Hq & Hround).
    set (m1 := <[c := Emitter.mkStorage (Emitter.size st0)
                                        (Emitter.size stc)]> m).
    set (m2 := <[Rec := Emitter.mkStorage (Emitter.offset st0)
                          (Emitter.size st0 + wordsFor (typeGetSize cdt))]> m1).
    assert (Hm1Rec : m1 !! Rec = Some st0)
      by (subst m1; rewrite lookup_insert_ne by congruence; exact HRec).
    assert (Hready2 : ready Rec rest m2).
    { repeat split; try assumption.
      - subst m2. rewrite lookup_insert_eq. eauto.
      - subst m2 m1. destruct (Hall c0) as ([st' Hst'] & _); [by right|].
        rewrite lookup_insert_ne by (intros ->; contradiction).
        rewrite lookup_insert_ne by (intros ->; contradiction). eauto.
      - destruct (Hall c0) as (_ & Hsym); [by right|]. exact Hsym. }
    destruct (IH m2 _ Hready2 (lookup_insert_eq _ _ _) Hfits')
      as (m' & Hrun & HRec' & Hfields & Hother).
    exists m'. split; [|split; [|split]].
    + cbn [Emitter.emitterStructLoop]. rewrite HRec.
      unfold Emitter.setOffset. rewrite Hstc. fold m1.
      rewrite HC, Hcdt, Hm1Rec. cbv zeta. rewrite Hq, Hround.
      unfold Emitter.setSize. rewrite Hm1Rec.
      fold m2. exact Hrun.
    + rewrite HRec'. cbn [Emitter.offset Emitter.size].
      unfold Emitter.fieldSizes. cbn [map fmap list_fmap].
      rewrite Hsize. cbn [Emitter.total foldr]. do 2 f_equal.
      unfold Emitter.total, Emitter.fieldSizes. lia.
    + intros i c' Hi. destruct i as [|i].
      * cbn in Hi. injection Hi as <-. exists stc. split; [exact Hstc|].
        rewrite (Hother c) by (congruence || assumption).
        subst m2 m1. rewrite lookup_insert_ne by congruence.
        rewrite lookup_insert_eq. cbn. do 2 f_equal. lia.
      * cbn in Hi. destruct (Hfields i c' Hi) as (stc' & Hm2 & Hm').
        assert (Hin : c' ∈ rest) by (eapply list_elem_of_lookup_2; exact Hi).
        assert (c' ≠ c) by (intros ->; contradiction).
        assert (c' ≠ Rec) by (intros ->; contradiction).
        subst m2 m1.
        rewrite lookup_insert_ne in Hm2 by congruence.
        rewrite lookup_insert_ne in Hm2 by congruence.
        exists stc'. split; [exact Hm2|]. rewrite Hm'.
        cbn [Emitter.size take]. unfold Emitter.fieldSizes.
        cbn [map fmap list_fmap].
        rewrite Hsize. cbn [Emitter.total foldr]. do 2 f_equal.
        unfold Emitter.total, Emitter.fieldSizes. lia.
    + intros k HkRec Hk. apply not_elem_of_cons in Hk as [Hkc Hk].
      rewrite (Hother k HkRec Hk). subst m2 m1.
      rewrite lookup_insert_ne by congruence.
      rewrite lookup_insert_ne by congruence. reflexivity.
Qed.

(** X22.  [emitterStruct] lays the fields of a record out in declaration
    order: the first field is placed at the size the record had before the
    pass, each further field after the one before it by that field's size
    rounded up to whole words, and the record's size grows by the sum of
    the rounded sizes.  The size members of the fields and all other
    symbols are left alone.  This holds, and the pass has a defined
    result, whenever every field is a distinct symbol with a data type and
    the sums stay inside [int]: a positive word size, no negative sizes,
    and a final record size of at most [INT_MAX]. *)
Theorem emitterStruct_layout Node Rec Sym m st0 :
  symbol Node = Some Rec → syms !! Rec = Some Sym →
  ready Rec (sym.firstChild Sym) m → m !! Rec = Some st0 →
  fitsInt (Emitter.size st0) (sym.firstChild Sym) →
  ∃ m',
    Emitter.emitterStruct syms typeGetSize wordsize Node m = Some m'
    ∧ m' !! Rec
      = Some (Emitter.mkStorage (Emitter.offset st0)
                (Emitter.size st0
                 + Emitter.total
                     (wordsFor <$> fieldSizes (sym.firstChild Sym))))
    ∧ (∀ i c, sym.firstChild Sym !! i = Some c →
         ∃ stc, m !! c = Some stc
           ∧ m' !! c
             = Some (Emitter.mkStorage
                       (Emitter.size st0
                        + Emitter.total
                            (wordsFor
                               <$> fieldSizes (take i (sym.firstChild Sym))))
                       (Emitter.size stc)))
    ∧ (∀ k, k ≠ Rec → k ∉ sym.firstChild Sym → m' !! k = m !! k).
Proof.
  intros Hs HSym Hready HRec Hfits.
  rewrite (emitterStruct_loop syms typeGetSize wordsize Node Rec Sym m Hs HSym).
  exact (emitterStructLoop_spec Rec _ m st0 Hready HRec Hfits).
Qed.

(** X23.  While the sums stay inside [int] (a positive word size, no
    negative sizes, a final record size of at most [INT_MAX]), the fields
    that [emitterStruct] has placed do not overlap and lie inside the
    record: a field begins at a non-negative offset, ends no later than
    where any later field begins, and no later than the record's size,
    which is at most [INT_MAX].  When the record's size was a multiple of
    the word size before the pass, so are every offset and the record's
    size after it. *)
Theorem emitterStruct_fields_apart Node Rec Sym m st0 m' :
  symbol Node = Some Rec → syms !! Rec = Some Sym →
  ready Rec (sym.firstChild Sym) m → m !! Rec = Some st0 →
  fitsInt (Emitter.size st0) (sym.firstChild Sym) →
  Emitter.emitterStruct syms typeGetSize wordsize Node m = Some m' →
  ∀ i ci sti, sym.firstChild Sym !! i = Some ci → m' !! ci = Some sti →
    0 ≤ Emitter.offset sti
    ∧ (∀ j cj stj, (i < j)%nat →
       sym.firstChild Sym !! j = Some cj → m' !! cj = Some stj →
       Emitter.offset sti + fieldSize ci ≤ Emitter.offset stj)
    ∧ (∀ stRec, m' !! Rec = Some stRec →
         Emitter.offset sti + fieldSize ci ≤ Emitter.size stRec
         ∧ Emitter.size stRec ≤ INT_MAX
         ∧ ((wordsize | Emitter.size st0) →
            (wordsize | Emitter.offset sti)
            ∧ (wordsize | Emitter.size stRec))).
Proof.
  intros Hs HSym Hready HRec Hfits Hrun i ci sti Hi Hsti.
  pose proof Hfits as (Ha & Hsizes & H0 & Hmax).
  destruct (emitterStructLoop_spec Rec _ m st0 Hready HRec Hfits)
    as (m'' & Hrun' & HR & Hf & _).
  rewrite (emitterStruct_loop syms typeGetSize wordsize Node Rec Sym m Hs HSym),
    Hrun' in Hrun.
  injection Hrun as ->.
  set (fields := sym.firstChild Sym) in *.
  assert (Hwsizes : Forall (λ s, 0 ≤ s) (wordsFor <$> fieldSizes fields)).
  { apply Forall_fmap. eapply Forall_impl; [exact Hsizes|].
    intros s Hs0. change (0 ≤ wordsFor s). cbv beta in Hs0.
    pose proof (wordsFor_covers wordsize s Ha Hs0). lia. }
  assert (Hoff : ∀ k c st, fields !! k = Some c → m' !! c = Some st →
            Emitter.offset st
              = Emitter.size st0
                + Emitter.total (take k (wordsFor <$> fieldSizes fields))).
  { intros k c st Hk Hst. destruct (Hf k c Hk) as (stc & _ & Hm').
    rewrite Hst in Hm'. injection Hm' as ->. cbn.
    by rewrite fieldSizes_take, fmap_take. }
  assert (Hsz : (wordsFor <$> fieldSizes fields) !! i
                = Some (wordsFor (fieldSize ci))).
  { unfold Emitter.fieldSizes. rewrite list_lookup_fmap.
    change (map fieldSize fields) with (fieldSize <$> fields).
    by rewrite list_lookup_fmap, Hi. }
  assert (Hci : 0 ≤ fieldSize ci).
  { eapply (Forall_lookup_1 _ _ i); [exact Hsizes|].
    unfold Emitter.fieldSizes.
    change (map fieldSize fields) with (fieldSize <$> fields).
    by rewrite list_lookup_fmap, Hi. }
  pose proof (wordsFor_covers wordsize _ Ha Hci) as Hcover.
  pose proof (total_take_step _ _ _ Hsz) as Hstep.
  pose proof (total_take_le _ Hwsizes 0%nat i ltac:(lia)) as Hfrom0.
  rewrite take_0 in Hfrom0. change (Emitter.total []) with 0 in Hfrom0.
  rewrite (Hoff i ci sti Hi Hsti). split; [lia|]. split.
  - intros j cj stj Hij Hj Hstj. rewrite (Hoff j cj stj Hj Hstj).
    pose proof (total_take_le _ Hwsizes (S i) j ltac:(lia)). lia.
  - intros stRec HstRec. rewrite HR in HstRec. injection HstRec as <-.
    cbn [Emitter.size]. split; [|split].
    + pose proof (total_take_all _ (S i) Hwsizes). lia.
    + exact Hmax.
    + intros Hal. split.
      * apply Z.divide_add_r; [exact Hal|].
        rewrite <- fmap_take. apply total_wordsFor_aligned.
      * apply Z.divide_add_r; [exact Hal|]. apply total_wordsFor_aligned.
Qed.

(** X24.  [emitterStruct] adds to the size the record already has and
    never resets it: run a second time on the same record it places every
    field further on by the sum of the rounded field sizes, and the
    record's size then counts every field twice.  This is so while the
    sums stay inside [int], the doubled size included. *)
Theorem emitterStruct_twice Node Rec Sym m st0 :
  symbol Node = Some Rec → syms !! Rec = Some Sym →
  ready Rec (sym.firstChild Sym) m → m !! Rec = Some st0 →
  fitsInt (Emitter.size st0) (sym.firstChild Sym) →
  Emitter.size st0
    + 2 * Emitter.total (wordsFor <$> fieldSizes (sym.firstChild Sym))
    ≤ INT_MAX →
  ∃ m1 m2,
    Emitter.emitterStruct syms typeGetSize wordsize Node m = Some m1
    ∧ Emitter.emitterStruct syms typeGetSize wordsize Node m1 = Some m2
    ∧ (Emitter.size <$> m2 !! Rec)
      = Some (Emitter.size st0
              + 2 * Emitter.total
                      (wordsFor <$> fieldSizes (sym.firstChild Sym)))
    ∧ ∀ i c, sym.firstChild Sym !! i = Some c →
        ∃ st1 st2, m1 !! c = Some st1 ∧ m2 !! c = Some st2
          ∧ Emitter.offset st2
            = Emitter.offset st1
              + Emitter.total (wordsFor <$> fieldSizes (sym.firstChild Sym)).
Proof.
  intros Hs HSym Hready HRec Hfits Htwice.
  pose proof Hfits as (Ha & Hsizes & H0 & Hmax).
  destruct (emitterStructLoop_spec Rec _ m st0 Hready HRec Hfits)
    as (m1 & Hrun1 & HR1 & Hf1 & Ho1).
  rewrite <- (emitterStruct_loop syms typeGetSize wordsize Node Rec Sym m
                Hs HSym) in Hrun1.
  assert (Hready1 : ready Rec (sym.firstChild Sym) m1).
  { eapply ready_after; [exact Hready|]. intros k [st Hk].
    destruct (decide (k = Rec)) as [->|HkR]; [by rewrite HR1|].
    destruct (decide (k ∈ sym.firstChild Sym)) as [Hin|Hout].
    - apply list_elem_of_lookup_1 in Hin as [i Hi].
      destruct (Hf1 i k Hi) as (stc & _ & ->). eauto.
    - rewrite (Ho1 k HkR Hout), Hk. eauto. }
  pose proof (total_wordsFor_nonneg wordsize _ Ha Hsizes) as Hnn.
  assert (Hfits1 : fitsInt (Emitter.size st0
                     + Emitter.total
                         (wordsFor <$> fieldSizes (sym.firstChild Sym)))
                     (sym.firstChild Sym)).
  { split; [exact Ha|]. split; [exact Hsizes|]. split; lia. }
  destruct (emitterStructLoop_spec Rec _ m1 _ Hready1 HR1 Hfits1)
    as (m2 & Hrun2 & HR2 & Hf2 & _).
  rewrite <- (emitterStruct_loop syms typeGetSize wordsize Node Rec Sym m1
                Hs HSym) in Hrun2.
  exists m1, m2. split; [exact Hrun1|]. split; [exact Hrun2|]. split.
  - rewrite HR2. cbn. f_equal. lia.
  - intros i c Hi.
    destruct (Hf1 i c Hi) as (stc & _ & Hm1).
    destruct (Hf2 i c Hi) as (stc1 & Hm1' & Hm2).
    eexists _, _. split; [exact Hm1|]. split; [exact Hm2|]. cbn. lia.
Qed.
End StructLayoutTheory.

(** ** The further properties on the sample program *)

Module MoreRuns.
Import Sample MoreSamples.

Local Abbreviation value := (analyzerValue syms typeToStr).
Local Abbreviation node :=
  (analyzerNode syms typeToStr analyzerDecl analyzerDecl).

Lemma failed_matches_share_location_witness :
  Parser.matches (Parser.byClass Parser.tokenIdent) atParen = false
  ∧ Parser.matches (Parser.byStr "{")
      (Parser.tokenMatchCall lexerNext (Parser.byClass Parser.tokenIdent)
         atParen) = false
  ∧ Parser.stdout
      (Parser.tokenMatchCalls lexerNext
         [Parser.byClass Parser.tokenIdent; Parser.byStr "{"] atParen)
    = "error(1:7): expected identifier, found ')'." +:+ nl
        +:+ "error(1:7): expected '{', found ';'." +:+ nl.
Proof.
  assert (H1 : Parser.matches (Parser.byClass Parser.tokenIdent) atParen
               = false) by (vm_compute; reflexivity).
  assert (H2 : Parser.matches (Parser.byStr "{")
                 (Parser.tokenMatchCall lexerNext
                    (Parser.byClass Parser.tokenIdent) atParen) = false)
    by (vm_compute; reflexivity).
  do 2 (split; [assumption|]).
  rewrite (proj2 (failed_matches_share_location lexerNext _ _ atParen H1 H2)).
  vm_compute. reflexivity.
Defined.

Lemma tokenTryMatchStr_quiet_witness :
  Parser.tokenIs ";" atParen = false
  ∧ Parser.tokenIs ")" atParen = true
  ∧ (Parser.tokenTryMatchStr lexerNext ";" atParen).2 = atParen
  ∧ Parser.tokenMatchStr lexerNext ";" atParen
    = Parser.afterFailedMatch lexerNext "';'" atParen
  ∧ (Parser.tokenTryMatchStr lexerNext ")" atParen).2
    = Parser.tokenMatchStr lexerNext ")" atParen.
Proof.
  assert (H1 : Parser.tokenIs ";" atParen = false) by (vm_compute; reflexivity).
  assert (H2 : Parser.tokenIs ")" atParen = true) by (vm_compute; reflexivity).
  do 2 (split; [assumption|]).
  split; [exact (proj1 (proj1 (proj2 (proj2
            (tokenTryMatchStr_quiet lexerNext ";" atParen))) H1))|].
  split; [exact (proj2 (proj1 (proj2 (proj2
            (tokenTryMatchStr_quiet lexerNext ";" atParen))) H1))|].
  exact (proj1 (proj2 (tokenTryMatchStr_quiet lexerNext ")" atParen)) H2).
Defined.

Lemma tokenMatchIdent_returns_current_witness :
  Parser.token (Parser.lexer (Parser.ctx atParen)) ≠ Parser.tokenIdent
  ∧ Parser.token (Parser.lexer (Parser.ctx atX)) = Parser.tokenIdent
  ∧ Parser.token (Parser.lexer (Parser.ctx atX)) ≠ Parser.tokenInt
  ∧ Parser.tokenMatchIdent lexerNext atParen
    = (")", Parser.afterFailedMatch lexerNext "identifier" atParen)
  ∧ Parser.tokenMatchIdent lexerNext atX
    = ("x", Parser.afterMatch lexerNext atX)
  ∧ Parser.tokenMatchInt lexerNext (λ _, 0) atX
    = (0, Parser.afterFailedMatch lexerNext "int" atX).
Proof.
  assert (H1 : Parser.token (Parser.lexer (Parser.ctx atParen))
               ≠ Parser.tokenIdent) by (vm_compute; discriminate).
  assert (H2 : Parser.token (Parser.lexer (Parser.ctx atX))
               = Parser.tokenIdent) by (vm_compute; reflexivity).
  assert (H3 : Parser.token (Parser.lexer (Parser.ctx atX))
               ≠ Parser.tokenInt) by (vm_compute; discriminate).
  do 3 (split; [assumption|]).
  split; [exact (proj1 (tokenMatchIdent_returns_current lexerNext (λ _, 0)
                          atParen) H1)|].
  split; [exact (proj1 (proj2 (tokenMatchIdent_returns_current lexerNext
                                 (λ _, 0) atX)) H2)|].
  exact (proj1 (proj2 (proj2 (tokenMatchIdent_returns_current lexerNext
                                (λ _, 0) atX))) H3).
Defined.

Lemma operator_classes_witness :
  isOrdinalBOP "<" || isEqualityBOP "<" = true
  ∧ isMemberBOP "->" = true
  ∧ isCommaBOP "," = true
  ∧ isAssignmentBOP "+=" = true
  ∧ (isNumericBOP "<" || isAssignmentBOP "<" = false
     ∧ isMemberBOP "<" = false ∧ isCommaBOP "<" = false)
  ∧ (isNumericBOP "->" || isAssignmentBOP "->" = false
     ∧ isOrdinalBOP "->" || isEqualityBOP "->" = false
     ∧ isCommaBOP "->" = false)
  ∧ (isNumericBOP "," || isAssignmentBOP "," = false
     ∧ isOrdinalBOP "," || isEqualityBOP "," = false
     ∧ isMemberBOP "," = false)
  ∧ ("+=" = "=" ∨ isNumericBOP "+=" = true).
Proof.
  do 4 (split; [reflexivity|]).
  split; [exact (proj1 (operator_classes "<") eq_refl)|].
  split; [exact (proj1 (proj2 (operator_classes "->")) eq_refl)|].
  split; [exact (proj1 (proj2 (proj2 (operator_classes ","))) eq_refl)|].
  exact (proj1 (proj2 (proj2 (proj2 (operator_classes "+=")))) eq_refl).
Defined.

Lemma analyzerValue_unclassed_witness :
  class s_and_s = astBOP ∧ o s_and_s = "&&"
  ∧ value s_and_s w0 = Some (typeInvalid, setDt s_and_s typeInvalid, w0).
Proof.
  do 2 (split; [reflexivity|]).
  exact (analyzerValue_unclassed syms typeToStr s_and_s w0 eq_refl
           (or_intror (or_introl eq_refl))).
Defined.

Lemma analyzerBOP_result_witness :
  class p_plus_assign_s = astBOP
  ∧ isNumericBOP (o p_plus_assign_s) || isAssignmentBOP (o p_plus_assign_s)
    = true
  ∧ l p_plus_assign_s = Some (ident "p" 12 1)
  ∧ value (ident "p" 12 1) w0
    = Some (typePtr int, setDt (ident "p" 12 1) (typePtr int), w0)
  ∧ r p_plus_assign_s = Some (ident "s" 10 6)
  ∧ value (ident "s" 10 6) w0
    = Some (typeBasic 8, setDt (ident "s" 10 6) (typeBasic 8), w0)
  ∧ value p_plus_assign_s w0
    = Some (typeInvalid,
            setDt (setR (setL p_plus_assign_s
                           (setDt (ident "p" 12 1) (typePtr int)))
                        (setDt (ident "s" 10 6) (typeBasic 8)))
                  typeInvalid,
            emit w0
              ["error(1:1): += requires numeric type, found int*" +:+ nl;
               "error(1:3): type mismatch between int* and struct S for +="
                 +:+ nl]).
Proof.
  assert (H1 : value (ident "p" 12 1) w0
    = Some (typePtr int, setDt (ident "p" 12 1) (typePtr int), w0))
    by (vm_compute; reflexivity).
  assert (H2 : value (ident "s" 10 6) w0
    = Some (typeBasic 8, setDt (ident "s" 10 6) (typeBasic 8), w0))
    by (vm_compute; reflexivity).
  do 6 (split; [first [assumption | reflexivity]|]).
  exact (proj1 (analyzerBOP_result syms typeToStr p_plus_assign_s _ _ _ _ _ _
                  w0 w0 w0 eq_refl eq_refl eq_refl H1 eq_refl H2)).
Defined.

Lemma analyzerUOP_result_witness :
  class amp_1 = astUOP ∧ r amp_1 = Some (intLit "1" 2)
  ∧ value (intLit "1" 2) w0 = Some (int, setDt (intLit "1" 2) int, w0)
  ∧ o amp_1 = "&" ∧ o incr_1 = "++" ∧ o deref_s = "*"
  ∧ o sizeof_s = "sizeof"
  ∧ value amp_1 w0
    = Some (typePtr int, setDt (setR amp_1 (setDt (intLit "1" 2) int))
                               (typePtr int), w0)
  ∧ value incr_1 w0
    = Some (int, setDt (setR incr_1 (setDt (intLit "1" 3) int)) int, w0)
  ∧ value deref_s w0
    = Some (typeInvalid,
            setDt (setR deref_s (setDt (ident "s" 10 2) (typeBasic 8)))
                  typeInvalid,
            emit w0 ["error(1:2): * requires pointer, found struct S" +:+ nl])
  ∧ value sizeof_s w0
    = Some (typeInvalid,
            setDt (setR sizeof_s (setDt (ident "s" 10 8) (typeBasic 8)))
                  typeInvalid, w0).
Proof.
  assert (H1 : value (intLit "1" 2) w0 = Some (int, setDt (intLit "1" 2) int, w0))
    by (vm_compute; reflexivity).
  assert (H2 : value (intLit "1" 3) w0 = Some (int, setDt (intLit "1" 3) int, w0))
    by (vm_compute; reflexivity).
  assert (H3 : value (ident "s" 10 2) w0
    = Some (typeBasic 8, setDt (ident "s" 10 2) (typeBasic 8), w0))
    by (vm_compute; reflexivity).
  assert (H4 : value (ident "s" 10 8) w0
    = Some (typeBasic 8, setDt (ident "s" 10 8) (typeBasic 8), w0))
    by (vm_compute; reflexivity).
  do 7 (split; [first [assumption | reflexivity]|]).
  split; [exact (proj1 (analyzerUOP_result syms typeToStr amp_1 _ _ _ w0 w0
                          eq_refl eq_refl H1) eq_refl)|].
  split; [exact (proj1 (proj2 (analyzerUOP_result syms typeToStr incr_1
                                 _ _ _ w0 w0 eq_refl eq_refl H2)) eq_refl)|].
  split; [exact (proj1 (proj2 (proj2 (analyzerUOP_result syms typeToStr
                                        deref_s _ _ _ w0 w0 eq_refl eq_refl
                                        H3))) eq_refl)|].
  refine (proj2 (proj2 (proj2 (analyzerUOP_result syms typeToStr
                                 sizeof_s _ _ _ w0 w0 eq_refl eq_refl H4)))
            eq_refl _ _); discriminate.
Defined.

Lemma analyzerIndex_result_witness :
  class p_index_s = astIndex
  ∧ l p_index_s = Some (ident "p" 12 1)
  ∧ value (ident "p" 12 1) w0
    = Some (typePtr int, setDt (ident "p" 12 1) (typePtr int), w0)
  ∧ r p_index_s = Some (ident "s" 10 3)
  ∧ value (ident "s" 10 3) w0
    = Some (typeBasic 8, setDt (ident "s" 10 3) (typeBasic 8), w0)
  ∧ value p_index_s w0
    = Some (int,
            setDt (setR (setL p_index_s (setDt (ident "p" 12 1) (typePtr int)))
                        (setDt (ident "s" 10 3) (typeBasic 8)))
                  int,
            emit w0
              ["error(1:3): [] requires numeric index, found struct S"
                 +:+ nl]).
Proof.
  assert (H1 : value (ident "p" 12 1) w0
    = Some (typePtr int, setDt (ident "p" 12 1) (typePtr int), w0))
    by (vm_compute; reflexivity).
  assert (H2 : value (ident "s" 10 3) w0
    = Some (typeBasic 8, setDt (ident "s" 10 3) (typeBasic 8), w0))
    by (vm_compute; reflexivity).
  do 5 (split; [first [assumption | reflexivity]|]).
  exact (analyzerIndex_result syms typeToStr p_index_s _ _ _ _ _ _
           w0 w0 w0 eq_refl eq_refl H1 eq_refl H2).
Defined.

Lemma analyzerTernary_result_witness :
  class s_then_1_else_p = astTOP
  ∧ firstChild s_then_1_else_p = [ident "s" 10 1]
  ∧ value (ident "s" 10 1) w0
    = Some (typeBasic 8, setDt (ident "s" 10 1) (typeBasic 8), w0)
  ∧ l s_then_1_else_p = Some (intLit "1" 5)
  ∧ value (intLit "1" 5) w0 = Some (int, setDt (intLit "1" 5) int, w0)
  ∧ r s_then_1_else_p = Some (ident "p" 12 9)
  ∧ value (ident "p" 12 9) w0
    = Some (typePtr int, setDt (ident "p" 12 9) (typePtr int), w0)
  ∧ value s_then_1_else_p w0
    = Some (typeInvalid,
            setDt (setR (setL (setFirstChild s_then_1_else_p
                                 [setDt (ident "s" 10 1) (typeBasic 8)])
                              (setDt (intLit "1" 5) int))
                        (setDt (ident "p" 12 9) (typePtr int)))
                  typeInvalid,
            emit w0
              ["error(1:1): ternary ?: requires condition value, "
                 +:+ "found struct S" +:+ nl;
               "error(1:3): type mismatch between int and int* "
                 +:+ "for ternary ?:" +:+ nl]).
Proof.
  assert (H1 : value (ident "s" 10 1) w0
    = Some (typeBasic 8, setDt (ident "s" 10 1) (typeBasic 8), w0))
    by (vm_compute; reflexivity).
  assert (H2 : value (intLit "1" 5) w0 = Some (int, setDt (intLit "1" 5) int, w0))
    by (vm_compute; reflexivity).
  assert (H3 : value (ident "p" 12 9) w0
    = Some (typePtr int, setDt (ident "p" 12 9) (typePtr int), w0))
    by (vm_compute; reflexivity).
  do 7 (split; [first [assumption | reflexivity]|]).
  exact (analyzerTernary_result syms typeToStr s_then_1_else_p _ _ _ _ _ _ _
           _ _ _ w0 w0 w0 w0 eq_refl eq_refl H1 eq_refl H2 eq_refl H3).
Defined.

Lemma analyzerArrayLiteral_first_only_witness :
  class array_1_s = astLiteral ∧ litClass array_1_s = literalArray
  ∧ firstChild empty_array = []
  ∧ firstChild array_1_s = [intLit "1" 2; ident "s" 10 5]
  ∧ value (intLit "1" 2) w0 = Some (int, setDt (intLit "1" 2) int, w0)
  ∧ value empty_array w0 = None
  ∧ value array_1_s w0
    = Some (typeArray int 2,
            setDt (setFirstChild array_1_s
                     [setDt (intLit "1" 2) int; ident "s" 10 5])
                  (typeArray int 2),
            w0)
  ∧ dt (ident "s" 10 5) = None.
Proof.
  assert (H1 : value (intLit "1" 2) w0 = Some (int, setDt (intLit "1" 2) int, w0))
    by (vm_compute; reflexivity).
  do 5 (split; [first [assumption | reflexivity]|]).
  split; [exact (proj1 (analyzerArrayLiteral_first_only syms typeToStr
                          empty_array w0 eq_refl eq_refl) eq_refl)|].
  split; [|reflexivity].
  exact (proj2 (analyzerArrayLiteral_first_only syms typeToStr
                  array_1_s w0 eq_refl eq_refl) _ _ _ _ _ eq_refl H1).
Defined.

Lemma analyzerCall_not_callable_witness :
  class s_called_1 = astCall
  ∧ l s_called_1 = Some (ident "s" 10 1)
  ∧ value (ident "s" 10 1) w0
    = Some (typeBasic 8, setDt (ident "s" 10 1) (typeBasic 8), w0)
  ∧ typeIsCallable (typeBasic 8) = false
  ∧ symbol s_called_1 = Some 10%positive
  ∧ firstChild s_called = []
  ∧ firstChild s_called_1 = [intLit "1" 3]
  ∧ value s_called w0 = None
  ∧ value s_called_1 w0
    = Some (typeInvalid,
            setDt (setL s_called_1 (setDt (ident "s" 10 1) (typeBasic 8)))
                  typeInvalid,
            emit w0
              ["error(1:3): () requires function, found struct S" +:+ nl])
  ∧ firstChild (setDt (setL s_called_1 (setDt (ident "s" 10 1) (typeBasic 8)))
                      typeInvalid) = [intLit "1" 3]
  ∧ dt (intLit "1" 3) = None.
Proof.
  assert (H1 : value (ident "s" 10 1) w0
    = Some (typeBasic 8, setDt (ident "s" 10 1) (typeBasic 8), w0))
    by (vm_compute; reflexivity).
  do 7 (split; [first [assumption | reflexivity]|]).
  split; [exact (proj1 (analyzerCall_not_callable syms typeToStr s_called
                          _ _ _ w0 w0 10%positive _ _ eq_refl eq_refl H1
                          eq_refl eq_refl eq_refl eq_refl) eq_refl)|].
  pose proof (proj2 (analyzerCall_not_callable syms typeToStr s_called_1
                       _ _ _ w0 w0 10%positive _ _ eq_refl eq_refl H1
                       eq_refl eq_refl eq_refl eq_refl) _ _ eq_refl) as [E F].
  split; [exact E|]. split; [exact F|reflexivity].
Defined.

Lemma analyzerValue_keeps_shape_witness :
  ∃ Node',
    value s_dot_a w0 = Some (int, Node', w0)
    ∧ strip Node' = strip s_dot_a
    ∧ symbol s_dot_a = None ∧ symbol Node' = Some 9%positive.
Proof.
  destruct (value s_dot_a w0) as [[[T Node'] w']|] eqn:E;
    [|vm_compute in E; discriminate E].
  pose proof (analyzerValue_keeps_shape syms typeToStr _ _ _ _ _ E) as Hs.
  vm_compute in E. injection E as <- <- <-.
  eexists. split; [reflexivity|]. split; [exact Hs|]. by split.
Defined.


Lemma analyzerValue_counts_lines_witness :
  INT_MIN ≤ errors (ctx w0)
  ∧ ∃ Node' w',
      value s_then_1_else_p w0 = Some (typeInvalid, Node', w')
      ∧ errors (ctx w') = 2
      ∧ errors (ctx w') ≤ INT_MAX
      ∧ ∃ ds,
          Forall isAnalyzerLine ds
          ∧ errors (ctx w') = errors (ctx w0) + Z.of_nat (length ds)
          ∧ stdout w' = stdout w0 +:+ linesText ds
          ∧ errors (ctx w0) ≤ errors (ctx w')
          ∧ INT_MIN ≤ errors (ctx w') ≤ INT_MAX
          ∧ errors (ctx w0) + Z.of_nat (length ds) ≤ INT_MAX
          ∧ types (ctx w') = types (ctx w0)
          ∧ warnings (ctx w') = warnings (ctx w0)
          ∧ returnType (ctx w') = returnType (ctx w0).
Proof.
  assert (Hmin : INT_MIN ≤ errors (ctx w0)) by (vm_compute; discriminate).
  split; [exact Hmin|].
  destruct (value s_then_1_else_p w0) as [[[T Node'] w']|] eqn:E;
    [|vm_compute in E; discriminate E].
  assert (HT : T = typeInvalid) by (vm_compute in E; by injection E as <- _ _).
  assert (He : errors (ctx w') = 2) by (vm_compute in E; by injection E as _ _ <-).
  assert (Hmax : errors (ctx w') ≤ INT_MAX)
    by (rewrite He; vm_compute; discriminate).
  pose proof (analyzerValue_counts_lines syms typeToStr _ _ _ _ _ E Hmin Hmax)
    as Hs.
  subst T. exists Node', w'. split; [reflexivity|]. split; [exact He|].
  split; [exact Hmax|exact Hs].
Defined.

Lemma analyzerLoop_test_witness :
  class do_s_while_p = astLoop
  ∧ l do_s_while_p = Some (ident "s" 10 4)
  ∧ r do_s_while_p = Some (ident "p" 12 14)
  ∧ class (ident "s" 10 4) ≠ astCode
  ∧ class (stmt astCode [return_nothing] None None 4) = astCode
  ∧ node do_s_while_p wInt
    = Some (setR (setL do_s_while_p (setDt (ident "s" 10 4) (typeBasic 8)))
                 (setDt (ident "p" 12 14) (typePtr int)),
            emit wInt
              ["error(1:4): do loop expected condition, found struct S"
                 +:+ nl])
  ∧ node do_block_while_s wInt
    = Some (setR (setL do_block_while_s
                       (stmt astCode [return_nothing] None None 4))
                 (setDt (ident "s" 10 22) (typeBasic 8)),
            emit wInt
              ["error(1:22): do loop expected condition, found struct S"
                 +:+ nl]).
Proof.
  assert (H0 : class (ident "s" 10 4) ≠ astCode) by discriminate.
  assert (H1 : value (ident "s" 10 4) wInt
    = Some (typeBasic 8, setDt (ident "s" 10 4) (typeBasic 8), wInt))
    by (vm_compute; reflexivity).
  assert (H2 : node (ident "p" 12 14)
                 (emit wInt (conditionLines syms typeToStr "do loop"
                               (setDt (ident "s" 10 4) (typeBasic 8))
                               (typeBasic 8)))
    = Some (setDt (ident "p" 12 14) (typePtr int),
            emit wInt
              ["error(1:4): do loop expected condition, found struct S"
                 +:+ nl]))
    by (vm_compute; reflexivity).
  assert (H3 : value (ident "s" 10 22) wInt
    = Some (typeBasic 8, setDt (ident "s" 10 22) (typeBasic 8), wInt))
    by (vm_compute; reflexivity).
  assert (H4 : node (stmt astCode [return_nothing] None None 4)
                 (emit wInt (conditionLines syms typeToStr "do loop"
                               (setDt (ident "s" 10 22) (typeBasic 8))
                               (typeBasic 8)))
    = Some (stmt astCode [return_nothing] None None 4,
            emit wInt
              ["error(1:22): do loop expected condition, found struct S"
                 +:+ nl]))
    by (vm_compute; reflexivity).
  do 3 (split; [reflexivity|]). split; [exact H0|]. split; [reflexivity|].
  split.
  - exact (proj2 (analyzerLoop_test syms typeToStr analyzerDecl analyzerDecl
                    do_s_while_p _ _ wInt eq_refl eq_refl eq_refl)
             H0 _ _ _ _ _ H1 H2).
  - exact (proj1 (analyzerLoop_test syms typeToStr analyzerDecl analyzerDecl
                    do_block_while_s _ _ wInt eq_refl eq_refl eq_refl)
             eq_refl _ _ _ _ _ H3 H4).
Defined.

Lemma analyzerBranch_arms_witness :
  class if_s = astBranch
  ∧ firstChild (stmt astBranch [] None None 1) = []
  ∧ firstChild if_s = [ident "s" 10 5]
  ∧ l if_s = Some return_nothing ∧ r if_s = None
  ∧ r if_s_else = Some return_nothing
  ∧ node (stmt astBranch [] None None 1) wInt = None
  ∧ node if_s wInt
    = Some (setL (setFirstChild if_s [setDt (ident "s" 10 5) (typeBasic 8)])
                 return_nothing,
            emit wInt
              ["error(1:5): if expected condition, found struct S" +:+ nl])
  ∧ node if_s_else wInt
    = Some (setR (setL (setFirstChild if_s_else
                          [setDt (ident "s" 10 5) (typeBasic 8)])
                       return_nothing) return_nothing,
            emit wInt
              ["error(1:5): if expected condition, found struct S" +:+ nl]).
Proof.
  assert (H1 : value (ident "s" 10 5) wInt
    = Some (typeBasic 8, setDt (ident "s" 10 5) (typeBasic 8), wInt))
    by (vm_compute; reflexivity).
  assert (H2 : node return_nothing
                 (emit wInt (conditionLines syms typeToStr "if"
                               (setDt (ident "s" 10 5) (typeBasic 8))
                               (typeBasic 8)))
    = Some (return_nothing,
            emit wInt
              ["error(1:5): if expected condition, found struct S" +:+ nl]))
    by (vm_compute; reflexivity).
  assert (H3 : node return_nothing
                 (emit wInt
                    ["error(1:5): if expected condition, found struct S"
                       +:+ nl])
    = Some (return_nothing,
            emit wInt
              ["error(1:5): if expected condition, found struct S" +:+ nl]))
    by (vm_compute; reflexivity).
  do 6 (split; [reflexivity|]).
  split; [exact (proj1 (analyzerBranch_arms syms typeToStr analyzerDecl
                          analyzerDecl (stmt astBranch [] None None 1) wInt
                          eq_refl) eq_refl)|].
  split.
  - exact (proj1 (proj2 (analyzerBranch_arms syms typeToStr analyzerDecl
                           analyzerDecl if_s wInt eq_refl)
                    _ _ _ _ _ _ _ _ eq_refl H1 eq_refl H2) eq_refl).
  - exact (proj2 (proj2 (analyzerBranch_arms syms typeToStr analyzerDecl
                           analyzerDecl if_s_else wInt eq_refl)
                    _ _ _ _ _ _ _ _ eq_refl H1 eq_refl H2)
             _ _ _ eq_refl H3).
Defined.

Lemma analyzerIter_header_witness :
  class for_ever = astIter
  ∧ (length (firstChild (stmt astIter [empty 6; empty 7] None None 1)) < 3)%nat
  ∧ firstChild for_ever = [empty 6; empty 7; empty 8]
  ∧ class (empty 6) = astEmpty
  ∧ l for_ever = Some return_nothing
  ∧ node return_nothing wInt = Some (return_nothing, wInt)
  ∧ node (stmt astIter [empty 6; empty 7] None None 1) wInt = None
  ∧ node for_ever wInt = Some (setL for_ever return_nothing, wInt)
  ∧ firstChild (setL for_ever return_nothing) = [empty 6; empty 7; empty 8].
Proof.
  assert (H0 : (length (firstChild (stmt astIter [empty 6; empty 7]
                                         None None 1)) < 3)%nat)
    by (cbn; lia).
  assert (H1 : node return_nothing wInt = Some (return_nothing, wInt))
    by (vm_compute; reflexivity).
  do 6 (split; [first [assumption | reflexivity]|]).
  split; [exact (proj1 (analyzerIter_header syms typeToStr analyzerDecl
                          analyzerDecl
                          (stmt astIter [empty 6; empty 7] None None 1) wInt
                          eq_refl) H0)|].
  exact (proj2 (analyzerIter_header syms typeToStr analyzerDecl analyzerDecl
                  for_ever wInt eq_refl)
           _ _ _ _ _ _ _ eq_refl eq_refl eq_refl eq_refl eq_refl H1).
Defined.

Lemma analyzerFnImpl_returnType_witness :
  class h_impl = astFnImpl
  ∧ l h_impl = Some (call (ident "h" 13 5) 13 [] 5)
  ∧ symbol h_impl = Some 13%positive
  ∧ ty.returnType (typeFunction int 0) = Some int
  ∧ ∃ body body' w2,
      r h_impl = Some body
      ∧ node body (withReturnType w0 (Some int)) = Some (body', w2)
      ∧ node h_impl w0
        = Some (setR (setL h_impl (call (ident "h" 13 5) 13 [] 5)) body',
                withReturnType w2 None)
      ∧ returnType (ctx (withReturnType w2 None)) = None
      ∧ errors (ctx (withReturnType w2 None)) = 1.
Proof.
  do 4 (split; [reflexivity|]).
  destruct (r h_impl) as [body|] eqn:Hr; [|discriminate Hr].
  destruct (node body (withReturnType w0 (Some int))) as [[body' w2]|] eqn:E;
    [|cbv in Hr; injection Hr as <-; vm_compute in E; discriminate E].
  pose proof (analyzerFnImpl_returnType syms typeToStr analyzerDecl
                analyzerDecl h_impl _ _ w0 w0 13%positive _ _ int
                body body' w2 eq_refl eq_refl eq_refl eq_refl eq_refl
                eq_refl eq_refl Hr E) as (Hn & Hrt & He & _).
  exists body, body', w2. split; [first [exact Hr | reflexivity]|].
  split; [exact E|]. split; [exact Hn|]. split; [exact Hrt|].
  rewrite He. cbv in Hr. injection Hr as <-.
  vm_compute in E. by injection E as _ <-.
Defined.

Lemma sample_decl_reporting Node : Reporting (analyzerDecl Node).
Proof. apply Reporting_ret. Qed.

Lemma analyzer_counts_lines_witness :
  ∃ Tree',
    analyzer syms typeToStr analyzerDecl analyzerDecl module_h Types ""
      = Some (mkResult 1 0, Tree',
              "error(1:8): return expected int, found int()" +:+ nl)
    ∧ ∃ ds,
        Forall isAnalyzerLine ds
        ∧ res_errors (mkResult 1 0) = Z.of_nat (length ds)
        ∧ "error(1:8): return expected int, found int()" +:+ nl
          = "" +:+ linesText ds
        ∧ res_warnings (mkResult 1 0) = 0.
Proof.
  destruct (analyzer syms typeToStr analyzerDecl analyzerDecl module_h Types "")
    as [[[res Tree'] out']|] eqn:E; [|vm_compute in E; discriminate E].
  pose proof (analyzer_counts_lines syms typeToStr analyzerDecl analyzerDecl
                sample_decl_reporting sample_decl_reporting
                _ _ _ _ _ _ E) as Hs.
  vm_compute in E. injection E as <- <- <-.
  eexists. split; [reflexivity|]. exact Hs.
Defined.

Lemma sample_fields_ready : Emitter.fieldsReady symsT 20 fieldsT fresh.
Proof.
  split; [|split; [|split]].
  - apply (bool_decide_unpack _). vm_compute. exact I.
  - apply (bool_decide_unpack _). vm_compute. exact I.
  - eexists. vm_compute. reflexivity.
  - intros c Hc. unfold fieldsT in Hc.
    repeat (apply elem_of_cons in Hc as [->|Hc]);
      [..|by apply elem_of_nil in Hc].
    all: split; [eexists; vm_compute; reflexivity|].
    all: eexists _, _; split; vm_compute; reflexivity.
Qed.

Lemma sample_fits : Emitter.fitsInt symsT sizeOf 8 0 fieldsT.
Proof.
  split; [lia|]. split; [|split; [lia|vm_compute; discriminate]].
  apply Forall_forall. intros x Hx. vm_compute in Hx.
  repeat (apply elem_of_cons in Hx as [->|Hx]); [lia..|].
  by apply elem_of_nil in Hx.
Qed.

Lemma emitterStruct_layout_witness :
  symbol structT = Some 20%positive
  ∧ symsT !! 20%positive = Some (sym.mk "T" symStruct None fieldsT)
  ∧ Emitter.fieldsReady symsT 20 fieldsT fresh
  ∧ fresh !! 20%positive = Some (Emitter.mkStorage 0 0)
  ∧ Emitter.fitsInt symsT sizeOf 8 0 fieldsT
  ∧ Emitter.emitterStruct symsT sizeOf 8 structT fresh = Some laidOut
  ∧ laidOut !! 20%positive = Some (Emitter.mkStorage 0 32)
  ∧ laidOut !! 21%positive = Some (Emitter.mkStorage 0 0)
  ∧ laidOut !! 22%positive = Some (Emitter.mkStorage 8 0)
  ∧ laidOut !! 23%positive = Some (Emitter.mkStorage 16 0).
Proof.
  assert (H1 : symsT !! 20%positive = Some (sym.mk "T" symStruct None fieldsT))
    by (vm_compute; reflexivity).
  assert (H3 : fresh !! 20%positive = Some (Emitter.mkStorage 0 0))
    by (vm_compute; reflexivity).
  destruct (emitterStruct_layout symsT sizeOf 8 structT 20 _ fresh _
              eq_refl H1 sample_fields_ready H3 sample_fits)
    as (m' & Hrun & HR & Hf & _).
  assert (Hm : m' = laidOut).
  { assert (E : Emitter.emitterStruct symsT sizeOf 8 structT fresh
                = Some laidOut) by (vm_compute; reflexivity).
    rewrite E in Hrun. by injection Hrun. }
  subst m'.
  split; [reflexivity|]. split; [exact H1|].
  split; [exact sample_fields_ready|]. split; [exact H3|].
  split; [exact sample_fits|]. split; [exact Hrun|].
  split; [etrans; [exact HR|]; vm_compute; reflexivity|].
  split; [|split].
  - destruct (Hf 0%nat 21%positive eq_refl) as (stc & Hc & Hm').
    vm_compute in Hc. injection Hc as <-.
    etrans; [exact Hm'|]. vm_compute. reflexivity.
  - destruct (Hf 1%nat 22%positive eq_refl) as (stc & Hc & Hm').
    vm_compute in Hc. injection Hc as <-.
    etrans; [exact Hm'|]. vm_compute. reflexivity.
  - destruct (Hf 2%nat 23%positive eq_refl) as (stc & Hc & Hm').
    vm_compute in Hc. injection Hc as <-.
    etrans; [exact Hm'|]. vm_compute. reflexivity.
Defined.

Lemma emitterStruct_fields_apart_witness :
  Emitter.fitsInt symsT sizeOf 8 0 fieldsT
  ∧ Emitter.emitterStruct symsT sizeOf 8 structT fresh = Some laidOut
  ∧ fieldsT !! 0%nat = Some 21%positive
  ∧ fieldsT !! 1%nat = Some 22%positive
  ∧ Emitter.fieldSize symsT sizeOf 21 = 1
  ∧ (8 | Emitter.size (Emitter.mkStorage 0 0))
  ∧ 0 ≤ 0
  ∧ 0 + Emitter.fieldSize symsT sizeOf 21 ≤ 8
  ∧ 0 + Emitter.fieldSize symsT sizeOf 21 ≤ 32
  ∧ 32 ≤ INT_MAX
  ∧ (8 | 0) ∧ (8 | 32).
Proof.
  assert (H1 : symsT !! 20%positive = Some (sym.mk "T" symStruct None fieldsT))
    by (vm_compute; reflexivity).
  assert (H3 : fresh !! 20%positive = Some (Emitter.mkStorage 0 0))
    by (vm_compute; reflexivity).
  assert (H5 : Emitter.emitterStruct symsT sizeOf 8 structT fresh
               = Some laidOut) by (vm_compute; reflexivity).
  assert (H6 : (8 | Emitter.size (Emitter.mkStorage 0 0)))
    by (exists 0; reflexivity).
  destruct (emitterStruct_fields_apart symsT sizeOf 8 structT 20 _ fresh _
              laidOut eq_refl H1 sample_fields_ready H3 sample_fits
              H5 0%nat 21%positive (Emitter.mkStorage 0 0) eq_refl eq_refl)
    as (Hpos & Hlater & Hrec).
  pose proof (Hlater 1%nat 22%positive (Emitter.mkStorage 8 0)
                ltac:(lia) eq_refl eq_refl) as Ha.
  destruct (Hrec (Emitter.mkStorage 0 32) eq_refl) as (Hb & Hmax & Hc).
  destruct (Hc H6) as [Hd He].
  split; [exact sample_fits|]. split; [exact H5|].
  do 2 (split; [reflexivity|]). split; [vm_compute; reflexivity|].
  split; [exact H6|]. split; [exact Hpos|]. split; [exact Ha|].
  split; [exact Hb|]. split; [exact Hmax|]. split; [exact Hd|exact He].
Defined.

Lemma emitterStruct_twice_witness :
  Emitter.fitsInt symsT sizeOf 8 0 fieldsT
  ∧ 0 + 2 * Emitter.total
            (Emitter.wordsFor 8 <$> Emitter.fieldSizes symsT sizeOf fieldsT)
    ≤ INT_MAX
  ∧ ∃ m2,
      Emitter.emitterStruct symsT sizeOf 8 structT fresh = Some laidOut
      ∧ Emitter.emitterStruct symsT sizeOf 8 structT laidOut = Some m2
      ∧ (Emitter.size <$> m2 !! 20%positive) = Some 64
      ∧ (Emitter.offset <$> laidOut !! 21%positive) = Some 0
      ∧ (Emitter.offset <$> m2 !! 21%positive) = Some 32.
Proof.
  assert (H1 : symsT !! 20%positive = Some (sym.mk "T" symStruct None fieldsT))
    by (vm_compute; reflexivity).
  assert (H3 : fresh !! 20%positive = Some (Emitter.mkStorage 0 0))
    by (vm_compute; reflexivity).
  assert (H4 : 0 + 2 * Emitter.total
                         (Emitter.wordsFor 8
                            <$> Emitter.fieldSizes symsT sizeOf fieldsT)
               ≤ INT_MAX) by (vm_compute; discriminate).
  split; [exact sample_fits|]. split; [exact H4|].
  destruct (emitterStruct_twice symsT sizeOf 8 structT 20 _ fresh _
              eq_refl H1 sample_fields_ready H3 sample_fits H4)
    as (m1 & m2 & Hrun1 & Hrun2 & HR & Hf).
  assert (Hm : m1 = laidOut).
  { assert (E : Emitter.emitterStruct symsT sizeOf 8 structT fresh
                = Some laidOut) by (vm_compute; reflexivity).
    rewrite E in Hrun1. by injection Hrun1. }
  subst m1. exists m2.
  split; [exact Hrun1|]. split; [exact Hrun2|].
  split; [etrans; [exact HR|]; vm_compute; reflexivity|].
  split; [vm_compute; reflexivity|].
  destruct (Hf 0%nat 21%positive eq_refl) as (st1 & st2 & Hc1 & Hc2 & Ho).
  vm_compute in Hc1. injection Hc1 as <-.
  etrans; [exact (f_equal (fmap Emitter.offset) Hc2)|].
  cbn [fmap option_fmap option_map]. rewrite Ho. vm_compute. reflexivity.
Defined.

(** Past [INT_MAX] the sums wrap: with a first field of size [INT_MAX]
    the record of [struct T] is given a negative size. *)
Lemma emitterStruct_wraps :
  (Emitter.emitterStruct symsT hugeSizeOf 8 structT fresh
     ≫= λ m, Emitter.size <$> m !! 20%positive)
  = Some (-2147483624).
Proof. vm_compute. reflexivity. Qed.

Lemma emitterUnion_layout_witness :
  ∃ m',
    Emitter.emitterUnion symsT sizeOf unionT fresh = Some m'
    ∧ m' !! 20%positive = Some (Emitter.mkStorage 0 12)
    ∧ (∀ c, c ∈ fieldsT →
         Emitter.fieldSize symsT sizeOf c ≤ 12
         ∧ ∃ stc, fresh !! c = Some stc
             ∧ m' !! c = Some (Emitter.mkStorage 0 (Emitter.size stc)))
    ∧ Emitter.emitterUnion symsT sizeOf unionT m' = Some m'.
Proof.
  assert (H1 : symsT !! 20%positive = Some (sym.mk "T" symStruct None fieldsT))
    by (vm_compute; reflexivity).
  assert (H3 : fresh !! 20%positive = Some (Emitter.mkStorage 0 0))
    by (vm_compute; reflexivity).
  destruct (emitterUnion_layout symsT sizeOf unionT 20 _ fresh _
              eq_refl H1 sample_fields_ready H3)
    as (m' & stRec & Hrun & HR & Hoff & Hge & Hf & Hmax & Ho & Hagain).
  assert (HstRec : stRec = Emitter.mkStorage 0 12).
  { assert (E : ∃ m, Emitter.emitterUnion symsT sizeOf unionT fresh = Some m
                     ∧ m !! 20%positive = Some (Emitter.mkStorage 0 12))
      by (eexists; split; vm_compute; reflexivity).
    destruct E as (m & E1 & E2).
    pose proof (eq_trans (eq_sym E1) Hrun) as Hm. injection Hm as ->.
    pose proof (eq_trans (eq_sym HR) E2) as Hst. by injection Hst. }
  subst stRec. exists m'.
  split; [exact Hrun|]. split; [exact HR|]. split; [exact Hf|exact Hagain].
Defined.
End MoreRuns.
